(** * openapi-dto-generator: schema ordering, naming and class synthesis

    A shallow embedding of [schema-dependency.ts] and
    [openapi-class-generator.ts], with the properties of the dependency
    sorter, the name registries and the class emitter stated against it.

    Conventions of the embedding:
    - a JavaScript object, [Map] or [Set] that the program iterates is a list
      in iteration order; a set that is only probed and grown is a [gset];
    - the sets and maps that the generator shares between its calls, and the
      enum arrays of the document, which it sorts in place, are the fields
      of one state that the calls pass along ([Generator.GenState]);
    - a recursive function of the program takes a bound [fuel] on the depth
      of its calls and returns [None] when the bound is reached; where the
      program always returns this is proved for an explicit bound;
    - [Math.random] is a function from the number of the call to the token
      it yields. *)

From Stdlib Require Import Ascii String ZArith.
From stdpp Require Import base option list sets gmap strings pretty sorting.

#[local] Set Warnings "-clear-no-such-hyp,-register-all".

(** ** JavaScript containers

    A [Map] or a [Set] that the program iterates is an association list or
    a list in insertion order; one that is only probed with [has] and
    grown with [add] is a [gset]. *)

Module JsMap.

Fixpoint get {V} (k : string) (m : list (string * V)) : option V :=
  match m with
  | [] => None
  | (k', v) :: m' => if decide (k' = k) then Some v else get k m'
  end.

Definition has {V} (k : string) (m : list (string * V)) : bool :=
  bool_decide (is_Some (get k m)).

(** [set] keeps the position of a key that is already present. *)
Fixpoint set {V} (k : string) (v : V) (m : list (string * V)) : list (string * V) :=
  match m with
  | [] => [(k, v)]
  | (k', v') :: m' => if decide (k' = k) then (k, v) :: m' else (k', v') :: set k v m'
  end.

Definition keys {V} (m : list (string * V)) : list string := m.*1.

End JsMap.

(** ** JavaScript strings

    Strings are sequences of 8-bit code units; the case conversions and the
    character classes of the regular expressions act on ASCII letters. *)

Module JsString.

(** ["\n"] *)
Definition nl : string := String (ascii_of_nat 10) EmptyString.

(** The double quote. *)
Definition dquote : ascii := ascii_of_nat 34.
Definition backslash : ascii := ascii_of_nat 92.

Definition isLower (c : ascii) : bool := (Ascii.leb "a" c && Ascii.leb c "z")%char.
Definition isUpper (c : ascii) : bool := (Ascii.leb "A" c && Ascii.leb c "Z")%char.
Definition isDigit (c : ascii) : bool := (Ascii.leb "0" c && Ascii.leb c "9")%char.

(** The class [[a-zA-Z0-9_]]. *)
Definition isWord (c : ascii) : bool :=
  isLower c || isUpper c || isDigit c || Ascii.eqb c "_".

Definition upperChar (c : ascii) : ascii :=
  if isLower c then ascii_of_nat (nat_of_ascii c - 32) else c.
Definition lowerChar (c : ascii) : ascii :=
  if isUpper c then ascii_of_nat (nat_of_ascii c + 32) else c.

Fixpoint mapChars (f : ascii → ascii) (s : string) : string :=
  match s with
  | EmptyString => EmptyString
  | String c s' => String (f c) (mapChars f s')
  end.

Definition toUpperCase : string → string := mapChars upperChar.
Definition toLowerCase : string → string := mapChars lowerChar.

Fixpoint existsChar (p : ascii → bool) (s : string) : bool :=
  match s with
  | EmptyString => false
  | String c s' => p c || existsChar p s'
  end.

(** [s.startsWith(p)] *)
Definition startsWith (s p : string) : bool := String.prefix p s.

Fixpoint dropChars (n : nat) (s : string) : string :=
  match n, s with
  | O, _ => s
  | S n', String _ s' => dropChars n' s'
  | S _, EmptyString => EmptyString
  end.

(** [s.includes(sub)] *)
Fixpoint includes (s sub : string) : bool :=
  String.prefix sub s ||
  match s with
  | EmptyString => false
  | String _ s' => includes s' sub
  end.

(** [s.replace(pat, rep)] for a string pattern: the first occurrence.
    (No replacement in this program contains a [$] pattern.) *)
Fixpoint replace (s pat rep : string) : string :=
  if String.prefix pat s then rep +:+ dropChars (String.length pat) s
  else match s with
       | EmptyString => EmptyString
       | String c s' => String c (replace s' pat rep)
       end.

(** [arr.join(sep)] *)
Definition join (sep : string) (l : list string) : string := String.concat sep l.

(** A string is truthy unless it is empty. *)
Definition truthy (s : option string) : bool :=
  match s with
  | Some (String _ _) => true
  | _ => false
  end.

(** [[...new Set(l)]]: the first occurrence of each element, in order. *)
Fixpoint uniq (l : list string) : list string :=
  match l with
  | [] => []
  | x :: l' => x :: filter (λ y, y ≠ x) (uniq l')
  end.

(** The default comparison of [Array.prototype.sort] on strings: by code
    units. *)
Definition codeUnitLe (a b : string) : Prop := String.leb a b = true.

Global Instance codeUnitLe_dec a b : Decision (codeUnitLe a b).
Proof. unfold codeUnitLe. apply _. Defined.

(** The contents of an array of strings after [arr.sort()]. *)
Definition sort (l : list string) : list string := merge_sort codeUnitLe l.

(** [JSON.stringify] of a string and of an array of strings (of the
    escapes, those of the quote and of the backslash). *)
Fixpoint escape (s : string) : string :=
  match s with
  | EmptyString => EmptyString
  | String c s' =>
    if Ascii.eqb c dquote || Ascii.eqb c backslash
    then String backslash (String c (escape s'))
    else String c (escape s')
  end.

Definition stringifyString (s : string) : string :=
  String dquote (escape s +:+ String dquote EmptyString).

Definition stringify (l : list string) : string :=
  "[" +:+ join "," (stringifyString <$> l) +:+ "]".

End JsString.

(** ** openapi-types.ts *)

Module Schema.

(** [OpenAPISchema], with the fields of the interface that the program
    reads. Numbers are those that print as integers. The field
    [enum] holds a reference to the array object (an index into the store
    of arrays, see [Arrays]); the program sorts such arrays in place, and a
    schema object reached twice shares its array. [ref] is [$ref]. *)
Inductive t : Type := mk {
  type : option string;
  format : option string;
  enum : option nat;
  minimum : option Z;
  maximum : option Z;
  minLength : option Z;
  maxLength : option Z;
  pattern : option string;
  properties : option (list (string * t));
  items : option t;
  required : option (list string);
  allOf : option (list t);
  ref : option string;
  title : option string
}.

(** [{}] *)
Definition empty : t :=
  mk None None None None None None None None None None None None None None.

(** [{ ...schema, title }] *)
Definition withTitle (s : t) (name : string) : t :=
  mk (type s) (format s) (enum s) (minimum s) (maximum s) (minLength s)
     (maxLength s) (pattern s) (properties s) (items s) (required s)
     (allOf s) (ref s) (Some name).

(** [schema.type === name] *)
Definition typeIs (s : t) (name : string) : bool :=
  bool_decide (type s = Some name).

End Schema.

Abbreviation OpenAPISchema := Schema.t.

(** The store of the enum value arrays of a parsed document. *)
Module Arrays.

Abbreviation t := (list (list string)).

(** The contents of the array at [loc]. *)
Definition read (h : t) (loc : nat) : list string := default [] (h !! loc).

(** [arr.sort()] *)
Definition sortInPlace (h : t) (loc : nat) : t :=
  <[loc := JsString.sort (read h loc)]> h.

End Arrays.

(** [{ schema }], an entry of [content]. Of the responses, operations and
    paths, too, the fields that the program reads. *)
Record MediaType := mkMediaType {
  schema : option OpenAPISchema
}.

Record OpenAPIResponse := mkResponse {
  content : option (list (string * MediaType))
}.

(** A parsed operation may lack its [operationId]. *)
Record OpenAPIOperation := mkOperation {
  operationId : option string;
  responses : list (string * OpenAPIResponse)
}.

(** [OpenAPIPath]: the operations of a path by method. *)
Definition OpenAPIPath := list (string * OpenAPIOperation).

Record Components := mkComponents {
  schemas : option (list (string * OpenAPISchema))
}.

(** Objects are lists of their own entries in the order of [Object.entries];
    their keys are pairwise distinct, and none is [__proto__] or an array
    index (a canonical numeric string), the keys that [Object.assign] and the
    order of the entries treat in a way of their own. *)
Record OpenAPIDocument := mkDocument {
  paths : list (string * OpenAPIPath);
  components : option Components
}.

(** [openApiDocument.components?.schemas] *)
Definition documentSchemas (doc : OpenAPIDocument) : option (list (string * OpenAPISchema)) :=
  components doc ≫= schemas.

(** The names of the members of [Object.prototype], which the objects of a
    parsed document inherit. *)
Definition prototypeMembers : list string :=
  ["constructor"; "__defineGetter__"; "__defineSetter__"; "hasOwnProperty";
   "__lookupGetter__"; "__lookupSetter__"; "isPrototypeOf"; "propertyIsEnumerable";
   "toString"; "valueOf"; "__proto__"; "toLocaleString"].

(** [openApiDocument.components?.schemas?.[name]]; [None] is [undefined].
    Indexing finds the schema declared as [name] or else, if [name] is the
    name of a member of [Object.prototype], that member: a function, or the
    prototype itself for [__proto__]. Such a member is truthy and has none
    of the fields of a schema, so the program reads it as it reads [{}]. *)
Definition lookupSchema (doc : OpenAPIDocument) (name : string) : option OpenAPISchema :=
  match documentSchemas doc with
  | None => None
  | Some declared =>
    match JsMap.get name declared with
    | Some schema => Some schema
    | None => if decide (name ∈ prototypeMembers) then Some Schema.empty else None
    end
  end.

(** ** schema-dependency.ts: the cycle-tolerant sorter *)

Module SchemaDependency.

(** [Map<string, Set<string>>], keys and members in insertion order. *)
Definition Graph := list (string * list string).

(** [graph.get(node) || new Set()] *)
Definition dependenciesOf (graph : Graph) (node : string) : list string :=
  default [] (JsMap.get node graph).

(** The four collections the first pass closes over. *)
Record VisitState := mkVisit {
  sorted : list string;
  visited : gset string;
  visiting : gset string;
  cycles : gset string
}.

Definition initVisit : VisitState := mkVisit [] ∅ ∅ ∅.

(** A [for ... of] loop whose body may fail to return. *)
Fixpoint forOf {A S} (body : A → S → option S) (l : list A) (s : S) : option S :=
  match l with
  | [] => Some s
  | x :: l' => match body x s with
               | Some s' => forOf body l' s'
               | None => None
               end
  end.

(** [visit(node, path)]; [fuel] bounds the depth of the call stack and
    [None] stands for a call that does not return. The [path] argument is
    the caller's copy [new Set(path)]. *)
Fixpoint visit (fuel : nat) (graph : Graph) (node : string) (path : gset string)
    (st : VisitState) : option VisitState :=
  match fuel with
  | O => None
  | S fuel' =>
    if decide (node ∈ visited st) then Some st
    else if decide (node ∈ visiting st) then
      Some (mkVisit (sorted st) (visited st) (visiting st) (cycles st ∪ path))
    else
      let path' := path ∪ {[node]} in
      let st1 := mkVisit (sorted st) (visited st) (visiting st ∪ {[node]}) (cycles st) in
      match forOf (fun dep s =>
                     if decide (dep ∈ visited s) then Some s
                     else visit fuel' graph dep path' s)
                  (dependenciesOf graph node) st1 with
      | None => None
      | Some st2 =>
        Some (mkVisit (node :: sorted st2)
                      (visited st2 ∪ {[node]})
                      (visiting st2 ∖ {[node]})
                      (cycles st2))
      end
  end.

(** First pass: [for (const node of graph.keys()) if (!visited.has(node)) visit(node)]. *)
Definition firstPass (fuel : nat) (graph : Graph) : option VisitState :=
  forOf (fun node s =>
           if decide (node ∈ visited s) then Some s
           else visit fuel graph node ∅ s)
        (JsMap.keys graph) initVisit.

(** [finalSorted] and [processed] of the second pass. *)
Record ProcessState := mkProcess {
  finalSorted : list string;
  processed : gset string
}.

Definition initProcess : ProcessState := mkProcess [] ∅.

Definition emit (node : string) (ps : ProcessState) : ProcessState :=
  mkProcess (finalSorted ps ++ [node]) (processed ps ∪ {[node]}).

(** The loop "Process cyclic dependencies" of [processNode]. *)
Definition emitCyclic (cyc : gset string) (deps : list string) (ps : ProcessState)
    : ProcessState :=
  foldl (fun s dep =>
           if decide (dep ∈ cyc ∧ dep ∉ processed s) then emit dep s else s)
        ps deps.

Fixpoint processNode (fuel : nat) (graph : Graph) (cyc : gset string) (node : string)
    (ps : ProcessState) : option ProcessState :=
  match fuel with
  | O => None
  | S fuel' =>
    if decide (node ∈ processed ps) then Some ps
    else
      let deps := dependenciesOf graph node in
      match forOf (fun dep s =>
                     if decide (dep ∈ cyc) then Some s
                     else processNode fuel' graph cyc dep s)
                  deps ps with
      | None => None
      | Some ps1 => Some (emit node (emitCyclic cyc deps ps1))
      end
  end.

Definition secondPass (fuel : nat) (graph : Graph) (cyc : gset string)
    (order : list string) : option ProcessState :=
  forOf (processNode fuel graph cyc) order initProcess.

(** Every name the graph mentions, as a key or as a dependency. *)
Definition nodes (graph : Graph) : gset string :=
  list_to_set (JsMap.keys graph) ∪ list_to_set (mjoin graph.*2).

(** Neither pass nests deeper than the number of names, so the fuel given
    here is never exhausted ([sortSchemasByDependency_returns]). *)
Definition sortSchemasByDependency (graph : Graph) : option (list string) :=
  match firstPass (S (size (nodes graph))) graph with
  | None => None
  | Some st =>
    match secondPass (S (length (sorted st))) graph (cycles st) (sorted st) with
    | None => None
    | Some ps => Some (finalSorted ps)
    end
  end.

(** *** References and top-level enums *)

Definition refPrefix : string := "#/components/schemas/".

(** [refs.add(name)] on a [Set] kept in insertion order. *)
Definition setAdd (x : string) (l : list string) : list string :=
  if decide (x ∈ l) then l else l ++ [x].

(** [processSchema] inside [getSchemaRefs], with [refs] passed along. *)
Fixpoint processSchema (s : OpenAPISchema) (refs : list string) : list string :=
  let refs1 :=
    match Schema.ref s with
    | Some r =>
      if JsString.truthy (Some r) && JsString.startsWith r refPrefix
      then setAdd (JsString.replace r refPrefix "") refs else refs
    | None => refs
    end in
  let refs2 :=
    match Schema.allOf s with
    | Some l => foldl (λ acc s', processSchema s' acc) refs1 l
    | None => refs1
    end in
  let refs3 :=
    match Schema.properties s with
    | Some l => foldl (λ acc kv, processSchema kv.2 acc) refs2 l
    | None => refs2
    end in
  match Schema.items s with
  | Some s' => processSchema s' refs3
  | None => refs3
  end.

Definition getSchemaRefs (s : OpenAPISchema) : list string := processSchema s [].

(** [s.$ref && s.$ref.startsWith('#/components/schemas/')], then the name. *)
Definition refName (s : OpenAPISchema) : option string :=
  match Schema.ref s with
  | Some r =>
    if JsString.truthy (Some r) && JsString.startsWith r refPrefix
    then Some (JsString.replace r refPrefix "") else None
  | None => None
  end.

Definition getParentClasses (s : OpenAPISchema) : list string :=
  option_list (refName s) ++
  match Schema.allOf s with
  | Some l => omap refName l
  | None => []
  end.

Definition buildSchemaDependencyGraph (doc : OpenAPIDocument) : Graph :=
  let schemas := default [] (documentSchemas doc) in
  let graph := foldl (λ g kv, JsMap.set kv.1 [] g) [] schemas in
  foldl (λ g kv,
           JsMap.set kv.1 (JsString.uniq (getSchemaRefs kv.2 ++ getParentClasses kv.2)) g)
        graph schemas.

(** [resolveRef]; [None] is [null]. The name is looked up by indexing the
    schemas object, which also finds the members that the object inherits
    ([lookupSchema]). *)
Definition resolveRef (ref : string) (doc : OpenAPIDocument) : option OpenAPISchema :=
  if negb (JsString.startsWith ref refPrefix) then None
  else
    let schemaName := JsString.replace ref refPrefix "" in
    match lookupSchema doc schemaName with
    | Some schema =>
      if Schema.typeIs schema "string" || Schema.typeIs schema "number"
         || Schema.typeIs schema "integer" || Schema.typeIs schema "boolean"
         || bool_decide (is_Some (Schema.enum schema))
      then Some (Schema.withTitle schema schemaName)
      else Some schema
    | None => None
    end.

Definition isEnumSchema (h : Arrays.t) (s : OpenAPISchema) : bool :=
  Schema.typeIs s "string" &&
  match Schema.enum s with
  | Some loc => bool_decide (0 < length (Arrays.read h loc))
  | None => false
  end.

(** [getEnums]: the enum arrays by schema name; the values of the map are
    the arrays of the document themselves. *)
Definition getEnums (h : Arrays.t) (doc : OpenAPIDocument) : list (string * nat) :=
  match documentSchemas doc with
  | Some l =>
    foldl (λ enums kv,
             match Schema.enum kv.2 with
             | Some loc => if isEnumSchema h kv.2 then JsMap.set kv.1 loc enums else enums
             | None => enums
             end) [] l
  | None => []
  end.

(** [getNonParentProperties] (exported, and called from nowhere); [None]
    when indexing the last member of an empty [allOf] throws. *)
Definition getNonParentProperties (schema : OpenAPISchema) (doc : OpenAPIDocument)
    : option OpenAPISchema :=
  match Schema.allOf schema with
  | None => Some schema
  | Some subs =>
    let parentProps : list string :=
      foldl (λ acc sub,
               match Schema.ref sub with
               | Some r =>
                 if JsString.truthy (Some r) then
                   match resolveRef r doc with
                   | Some refSchema =>
                     match Schema.properties refSchema with
                     | Some ps => foldl (λ a k, setAdd k a) acc (JsMap.keys ps)
                     | None => acc
                     end
                   | None => acc
                   end
                 else acc
               | None => acc
               end) [] subs in
    lastSub ← last subs;
    let ownProperties := default [] (Schema.properties lastSub) in
    let kept := filter (λ kv, kv.1 ∉ parentProps) ownProperties in
    Some (Schema.mk (Some "object") None None None None None None None
                    (Some kept) None None None None None)
  end.

(** *** Vocabulary of the ordering properties *)

(** [edge graph a b]: schema [a] lists [b] among its dependencies. *)
Definition edge (graph : Graph) (a b : string) : Prop :=
  b ∈ dependenciesOf graph a.

(** [a] is a cycle participant. *)
Definition onCycle (graph : Graph) (a : string) : Prop :=
  tc (edge graph) a a.

(** Some cycle participant is reachable from [a] ([a] itself included). *)
Definition reachesCycle (graph : Graph) (a : string) : Prop :=
  ∃ c, rtc (edge graph) a c ∧ onCycle graph c.

(** [a] is a declared schema name or a dependency of one. *)
Definition mentioned (graph : Graph) (a : string) : Prop :=
  a ∈ JsMap.keys graph ∨ ∃ u, edge graph u a.

(** Every dependency is a declared schema name. *)
Definition closedGraph (graph : Graph) : Prop :=
  ∀ a b, edge graph a b → b ∈ JsMap.keys graph.

(** No schema lists itself among its dependencies. *)
Definition noSelfDependency (graph : Graph) : Prop :=
  ∀ a, ¬ edge graph a a.

(** [Array.prototype.indexOf], [None] for -1. *)
Fixpoint indexOf (x : string) (l : list string) : option nat :=
  match l with
  | [] => None
  | y :: l' => if decide (y = x) then Some 0 else S <$> indexOf x l'
  end.

(** [b] is found at a smaller index than [a]. *)
Definition precedes (out : list string) (b a : string) : Prop :=
  ∃ i j, indexOf b out = Some i ∧ indexOf a out = Some j ∧ i < j.

(** *** Sample graphs *)

(** [A] depends on the leaf [B]. *)
Definition graphChain : Graph := [("A", ["B"]); ("B", [])].

(** [A] refers to a schema that is not declared. *)
Definition graphDangling : Graph := [("A", ["B"])].

(** [Node] refers to itself. *)
Definition graphSelf : Graph := [("Node", ["Node"])].

(** [X] and [A] refer to each other, and [A] also depends on the leaf [B]. *)
Definition graphCycleLeaf : Graph := [("X", ["A"]); ("A", ["X"; "B"]); ("B", [])].

End SchemaDependency.

(** ** openapi-class-generator.ts *)

Module Generator.
Import JsString SchemaDependency.

(** *** Registries *)

(** What one run of the generator reads and writes: the module-level map
    [schemaToClassName], the sets and maps created by
    [generateClassesFromOpenAPI] and handed down its calls, the arrays of
    the document, and the number of calls of [Math.random] so far. *)
Record GenState := mkGen {
  schemaToClassName : gmap string string;
  usedNames : gset string;
  usedEnums : list (string * nat);
  classMap : list (string * string);
  arrays : Arrays.t;
  randomCalls : nat
}.

(** The state at the start of a run on a document whose arrays are [h]. *)
Definition initGen (h : Arrays.t) : GenState := mkGen ∅ ∅ [] [] h 0.

(** A computation on the state; [None] is a call that does not return. *)
Definition Gen (A : Type) : Type := GenState → option (A * GenState).

Global Instance gen_ret : MRet Gen := λ A x st, Some (x, st).
Global Instance gen_bind : MBind Gen := λ A B f m st,
  match m st with
  | Some (x, st') => f x st'
  | None => None
  end.

Definition getState : Gen GenState := λ st, Some (st, st).
Definition putState (st : GenState) : Gen () := λ _, Some ((), st).
Definition modifyState (f : GenState → GenState) : Gen () := λ st, Some ((), f st).
Definition diverge {A} : Gen A := λ _, None.

Definition addUsedName (n : string) : Gen () :=
  modifyState (λ st, mkGen (schemaToClassName st) (usedNames st ∪ {[n]}) (usedEnums st)
                           (classMap st) (arrays st) (randomCalls st)).
Definition setSchemaClassName (k n : string) : Gen () :=
  modifyState (λ st, mkGen (<[k := n]> (schemaToClassName st)) (usedNames st) (usedEnums st)
                           (classMap st) (arrays st) (randomCalls st)).
Definition setUsedEnum (n : string) (loc : nat) : Gen () :=
  modifyState (λ st, mkGen (schemaToClassName st) (usedNames st)
                           (JsMap.set n loc (usedEnums st))
                           (classMap st) (arrays st) (randomCalls st)).
Definition setClassMap (k n : string) : Gen () :=
  modifyState (λ st, mkGen (schemaToClassName st) (usedNames st) (usedEnums st)
                           (JsMap.set k n (classMap st)) (arrays st) (randomCalls st)).
Definition sortArray (loc : nat) : Gen () :=
  modifyState (λ st, mkGen (schemaToClassName st) (usedNames st) (usedEnums st)
                           (classMap st) (Arrays.sortInPlace (arrays st) loc) (randomCalls st)).

(** A [for ... of] loop in [Gen] with an accumulator. *)
Fixpoint forM {A B} (body : A → B → Gen B) (l : list A) (acc : B) : Gen B :=
  match l with
  | [] => mret acc
  | x :: l' => acc' ← body x acc; forM body l' acc'
  end.

Section WithRandom.
(** [Math.random().toString(36).substring(2, 8)] at its n-th call. *)
Variable randomToken : nat → string.

Definition nextRandomToken : Gen string := λ st,
  Some (randomToken (randomCalls st),
        mkGen (schemaToClassName st) (usedNames st) (usedEnums st)
              (classMap st) (arrays st) (S (randomCalls st))).

(** *** Names *)

Definition capitalize (s : string) : string :=
  match s with
  | String c s' => if isLower c then String (upperChar c) s' else s
  | EmptyString => s
  end.

(** [.replace(/[-_]([a-z])/g, (g) => g[1].toUpperCase())] *)
Fixpoint camelize (s : string) : string :=
  match s with
  | EmptyString => EmptyString
  | String c s' =>
    if Ascii.eqb c "-" || Ascii.eqb c "_" then
      match s' with
      | String d s'' =>
        if isLower d then String (upperChar d) (camelize s'')
        else String c (camelize s')
      | EmptyString => String c EmptyString
      end
    else String c (camelize s')
  end.

Definition toPascalCase (str : string) : string := capitalize (camelize str).

Definition needsQuotes (str : string) : bool := existsChar (λ c, negb (isWord c)) str.

(** The first of the suffixed names that is free, if any. *)
Fixpoint firstFree (base : string) (suffixes : list string) (used : string → bool)
    : option string :=
  match suffixes with
  | [] => None
  | suffix :: rest =>
    if used (base +:+ suffix) then firstFree base rest used
    else Some (base +:+ suffix)
  end.

Definition getClassNameFromOperationId (operationId statusCode : string) : Gen string :=
  let baseClassName := toPascalCase operationId +:+ statusCode +:+ "Response" in
  st ← getState;
  if decide (baseClassName ∉ usedNames st) then
    addUsedName baseClassName;; mret baseClassName
  else
    match firstFree baseClassName ["Detail"; "Extended"; "Full"; "Complete"; "Info"]
                    (λ n, bool_decide (n ∈ usedNames st)) with
    | Some newName => addUsedName newName;; mret newName
    | None =>
      uniqueSuffix ← nextRandomToken;
      let fallbackName := baseClassName +:+ "_" +:+ uniqueSuffix in
      addUsedName fallbackName;; mret fallbackName
    end.

Definition getClassNameFromSchemaName (schemaName : string) : Gen string :=
  st ← getState;
  match schemaToClassName st !! schemaName with
  | Some name => mret name
  | None =>
    if decide (schemaName ∉ usedNames st) then
      addUsedName schemaName;; setSchemaClassName schemaName schemaName;;
      mret schemaName
    else
      let pascalName := toPascalCase schemaName in
      if decide (pascalName ∉ usedNames st) then
        addUsedName pascalName;; setSchemaClassName schemaName pascalName;;
        mret pascalName
      else
        match firstFree pascalName ["Model"; "Type"; "Entity"; "Object"; "Data"]
                        (λ n, bool_decide (n ∈ usedNames st)) with
        | Some newName =>
          addUsedName newName;; setSchemaClassName schemaName newName;;
          mret newName
        | None =>
          uniqueSuffix ← nextRandomToken;
          let fallbackName := pascalName +:+ "_" +:+ uniqueSuffix in
          addUsedName fallbackName;; setSchemaClassName schemaName fallbackName;;
          mret fallbackName
        end
  end.

(** [JSON.stringify(values.sort())] on the array at [loc]: the array is
    sorted in place, then serialised. *)
Definition sortedKey (loc : nat) : Gen string :=
  sortArray loc;;
  st ← getState;
  mret (stringify (Arrays.read (arrays st) loc)).

(** The loop over [usedEnums.entries()]: each array met on the way is
    sorted, the first one with the key [enumKey] ends the search. *)
Fixpoint findEnum (enumKey : string) (entries : list (string * nat)) : Gen (option string) :=
  match entries with
  | [] => mret None
  | (existingName, existingValues) :: rest =>
    k ← sortedKey existingValues;
    if decide (k = enumKey) then mret (Some existingName)
    else findEnum enumKey rest
  end.

Definition enumBaseName (propertyName context : string) : string :=
  if decide (toLowerCase propertyName = "currency") then "Currency"
  else if decide (toLowerCase propertyName = "status")
  then toPascalCase context +:+ "Status"
  else toPascalCase context +:+ toPascalCase propertyName.

Definition getEnumNameFromProperty (propertyName : string) (enumValues : nat)
    (context : string) : Gen string :=
  enumKey ← sortedKey enumValues;
  st ← getState;
  found ← findEnum enumKey (usedEnums st);
  match found with
  | Some existingName => mret existingName
  | None =>
    let baseName := enumBaseName propertyName context in
    st ← getState;
    if negb (JsMap.has baseName (usedEnums st)) then
      setUsedEnum baseName enumValues;; mret baseName
    else
      match firstFree baseName ["Type"; "Enum"; "Values"; "Options"; "List"]
                      (λ n, JsMap.has n (usedEnums st)) with
      | Some newName => setUsedEnum newName enumValues;; mret newName
      | None =>
        uniqueSuffix ← nextRandomToken;
        let fallbackName := baseName +:+ "_" +:+ uniqueSuffix in
        setUsedEnum fallbackName enumValues;; mret fallbackName
      end
  end.

(** *** Decorators *)

(** The special cases on the lower-cased property name, in order. *)
Definition nameDecorator (lower : string) : option string :=
  if decide (lower = "latitude") then Some "@IsLatitude()"
  else if decide (lower = "longitude") then Some "@IsLongitude()"
  else if bool_decide (lower = "email") || includes lower "email" then Some "@IsEmail()"
  else if bool_decide (lower = "creditcard") || includes lower "credit_card"
          || includes lower "creditcard" then Some "@IsCreditCard()"
  else if bool_decide (lower = "phone") || includes lower "phone" then Some "@IsPhoneNumber()"
  else if bool_decide (lower = "postalcode") || includes lower "postal_code"
          || includes lower "zip" then Some "@IsPostalCode()"
  else if bool_decide (lower = "uuid") || includes lower "uuid" then Some "@IsUUID()"
  else if bool_decide (lower = "url") || includes lower "url" then Some "@IsUrl()"
  else if bool_decide (lower = "ip") || includes lower "ip_address" then Some "@IsIP()"
  else if bool_decide (lower = "mongodb") || includes lower "mongo_id"
          || bool_decide (lower = "objectid") then Some "@IsMongoId()"
  else None.

Definition formatDecorator (format : string) : list string :=
  if decide (format = "email") then ["@IsEmail()"]
  else if decide (format = "uri" ∨ format = "url") then ["@IsUrl()"]
  else if decide (format = "uuid") then ["@IsUUID()"]
  else if decide (format = "ipv4" ∨ format = "ipv6") then ["@IsIP()"]
  else [].

Definition isDateFormat (schema : OpenAPISchema) : bool :=
  bool_decide (Schema.format schema = Some "date")
  || bool_decide (Schema.format schema = Some "date-time").

Definition generateDecorators (schema : OpenAPISchema) (propertyName : string)
    (isRequired : bool) : list string :=
  let decorators := if isRequired then [] else ["@IsOptional()"] in
  match nameDecorator (toLowerCase propertyName) with
  | Some d => decorators ++ [d]
  | None =>
    if Schema.typeIs schema "string" then
      if isDateFormat schema then
        decorators ++ ["@IsDate()";
                       "@Transform(({ value }) => value ? new Date(value) : value)"]
      else
        decorators ++ ["@IsString()"]
        ++ from_option (λ n, ["@MinLength(" +:+ pretty n +:+ ")"]) [] (Schema.minLength schema)
        ++ from_option (λ n, ["@MaxLength(" +:+ pretty n +:+ ")"]) [] (Schema.maxLength schema)
        ++ (if truthy (Schema.pattern schema)
            then ["@Matches(/" +:+ default "" (Schema.pattern schema) +:+ "/)"] else [])
        ++ (if truthy (Schema.format schema)
            then formatDecorator (default "" (Schema.format schema)) else [])
    else if Schema.typeIs schema "number" || Schema.typeIs schema "integer" then
      decorators
      ++ [if Schema.typeIs schema "integer" then "@IsInt()" else "@IsNumber()"]
      ++ from_option (λ n, [if decide (n = 0%Z) then "@IsPositive()"
                            else "@Min(" +:+ pretty n +:+ ")"]) [] (Schema.minimum schema)
      ++ from_option (λ n, [if decide (n = 0%Z) then "@IsNegative()"
                            else "@Max(" +:+ pretty n +:+ ")"]) [] (Schema.maximum schema)
    else if Schema.typeIs schema "boolean" then
      decorators ++ ["@IsBoolean()"]
    else if Schema.typeIs schema "array" && bool_decide (is_Some (Schema.items schema)) then
      decorators ++ ["@IsArray()"; "@ValidateNested({ each: true })";
                     "@Type(() => PLACEHOLDER)"]
    else if Schema.typeIs schema "object"
            || bool_decide (is_Some (Schema.properties schema)) then
      decorators ++ ["@IsObject()"; "@ValidateNested()"; "@Type(() => PLACEHOLDER)"]
    else decorators
  end.

(** [decorators[i] = decorators[i].replace('PLACEHOLDER', name)] at the
    first decorator that includes [PLACEHOLDER]. *)
Fixpoint replacePlaceholder (decorators : list string) (name : string) : list string :=
  match decorators with
  | [] => []
  | d :: rest =>
    if includes d "PLACEHOLDER" then replace d "PLACEHOLDER" name :: rest
    else d :: replacePlaceholder rest name
  end.

(** [decorators.splice(i, 1)] at the first decorator that includes [sub]. *)
Fixpoint removeFirst (decorators : list string) (sub : string) : list string :=
  match decorators with
  | [] => []
  | d :: rest => if includes d sub then rest else d :: removeFirst rest sub
  end.

(** *** Parents and merged properties *)

(** [Object.assign(target, source)], for keys that are not array indices
    and not [__proto__] (see [OpenAPIDocument]): a key of the target
    keeps its place, a new key goes last. *)
Definition assign {V} (target source : list (string * V)) : list (string * V) :=
  foldl (λ t kv, JsMap.set kv.1 kv.2 t) target source.

Fixpoint getAllParentClasses (fuel : nat) (schema : OpenAPISchema) (doc : OpenAPIDocument)
    : option (list string) :=
  match fuel with
  | O => None
  | S fuel' =>
    parents ←
      match Schema.allOf schema with
      | None => Some []
      | Some subs =>
        SchemaDependency.forOf (λ subSchema parents,
          match refName subSchema with
          | Some parentName =>
            match lookupSchema doc parentName with
            | Some parentSchema =>
              more ← getAllParentClasses fuel' parentSchema doc;
              Some (parents ++ [parentName] ++ more)
            | None => Some (parents ++ [parentName])
            end
          | None => Some parents
          end) subs []
      end;
    Some (uniq parents)
  end.

Fixpoint mergeParentProperties (fuel : nat) (schema : OpenAPISchema) (doc : OpenAPIDocument)
    : option (list (string * OpenAPISchema) * list string) :=
  match fuel with
  | O => None
  | S fuel' =>
    merged ←
      match Schema.allOf schema with
      | None => Some ([], [])
      | Some subs =>
        SchemaDependency.forOf (λ subSchema (merged : list (string * OpenAPISchema) * list string),
          if truthy (Schema.ref subSchema) then
            match resolveRef (default "" (Schema.ref subSchema)) doc with
            | Some parentSchema =>
              parent ← mergeParentProperties fuel' parentSchema doc;
              Some (assign merged.1 parent.1, merged.2 ++ parent.2)
            | None => Some merged
            end
          else
            Some (assign merged.1 (default [] (Schema.properties subSchema)),
                  merged.2 ++ default [] (Schema.required subSchema))) subs ([], [])
      end;
    Some (assign merged.1 (default [] (Schema.properties schema)),
          uniq (merged.2 ++ default [] (Schema.required schema)))
  end.

(** *** Properties *)

(** The loop "Handle duplicate property names": [fuel] iterations at
    most, [None] if the loop has not ended by then. *)
Fixpoint uniquePropertyNameFrom (fuel : nat) (propertyName : string)
    (usedProperties : gset string) (uniquePropertyName : string) (counter : nat)
    : option string :=
  if decide (uniquePropertyName ∈ usedProperties) then
    match fuel with
    | O => None
    | S fuel' =>
      uniquePropertyNameFrom fuel' propertyName usedProperties
                             (propertyName +:+ pretty counter) (S counter)
    end
  else Some uniquePropertyName.

(** The names the loop tries, in order. *)
Definition candidate (propertyName : string) (k : nat) : string :=
  match k with O => propertyName | S _ => propertyName +:+ pretty k end.

(** The loop ends within as many iterations as names are in use
    ([uniquePropertyName_fresh]). *)
Definition uniquePropertyName (propertyName : string) (usedProperties : gset string)
    : option string :=
  uniquePropertyNameFrom (size usedProperties) propertyName usedProperties propertyName 1.

Record PropertyResult := mkProperty {
  property : string;
  nestedClasses : list string;
  enums : list string
}.

(** The result of [generateClassProperties]: [properties],
    [nestedClasses], [enums]. *)
Record PropertiesResult := mkProperties {
  classProperties : list string;
  classNestedClasses : list string;
  classEnums : list string
}.

(** The text of a property: its decorators, then its declaration. *)
Definition propertyText (decorators : list string) (formattedPropertyName : string)
    (isRequired : bool) (propertyType : string) : string :=
  "  " +:+ join (nl +:+ "  ") decorators +:+ nl +:+ "  " +:+ formattedPropertyName
  +:+ (if isRequired then "" else "?") +:+ ": " +:+ propertyType +:+ ";" +:+ nl.

Definition classText (className extendsClause : string) (properties : list string)
    : string :=
  nl +:+ "export class " +:+ className +:+ extendsClause +:+ " {" +:+ nl
  +:+ join nl properties +:+ nl +:+ "}".

(** [v.replace(/[^a-zA-Z0-9_]/g, '_').toUpperCase()] *)
Definition enumMemberKey (v : string) : string :=
  toUpperCase (mapChars (λ c, if isWord c then c else "_"%char) v).

Definition enumMember (v : string) : string :=
  enumMemberKey v +:+ " = '" +:+ v +:+ "'".

(** The declaration pushed for an inline enum. *)
Definition inlineEnumText (enumName : string) (values : list string) : string :=
  "export enum " +:+ enumName +:+ " { " +:+ nl +:+ "  "
  +:+ join ("," +:+ nl +:+ "  ") (enumMember <$> values) +:+ " " +:+ nl +:+ "}".

(** The declaration pushed for a top-level enum. *)
Definition enumText (enumName : string) (values : list string) : string :=
  "export enum " +:+ enumName +:+ " {" +:+ nl +:+ "  "
  +:+ join ("," +:+ nl +:+ "  ") (enumMember <$> values) +:+ nl +:+ "}".

(** The type and the extra decorator of an array of items without
    properties, with [@ValidateNested] and [@Type] removed. *)
Definition simpleArray (items : OpenAPISchema) (decorators : list string)
    : list string * string :=
  let '(decorators1, propertyType) :=
    if Schema.typeIs items "string" then
      (decorators ++ ["@IsString({ each: true })"], "string[]")
    else if Schema.typeIs items "number" || Schema.typeIs items "integer" then
      (decorators ++ ["@IsNumber({}, { each: true })"], "number[]")
    else if Schema.typeIs items "boolean" then
      (decorators ++ ["@IsBoolean({ each: true })"], "boolean[]")
    else (decorators, "any[]") in
  (removeFirst (removeFirst decorators1 "@ValidateNested") "@Type", propertyType).

Definition lift {A} (o : option A) : Gen A := λ st, (λ x, (x, st)) <$> o.

Fixpoint generateClassProperty (fuel : nat) (propertyName : string)
    (schema : OpenAPISchema) (required : list string) (doc : OpenAPIDocument)
    (usedProperties : gset string) (context : string) {struct fuel}
    : Gen (PropertyResult * gset string) :=
  match fuel with
  | O => diverge
  | S fuel' =>
    let isRequired := bool_decide (propertyName ∈ required) in
    let decorators := generateDecorators schema propertyName isRequired in
    uniqueName ← lift (uniquePropertyName propertyName usedProperties);
    let usedProperties' := usedProperties ∪ {[uniqueName]} in
    let formattedPropertyName :=
      if needsQuotes propertyName then "'" +:+ propertyName +:+ "'" else propertyName in
    let finish (decorators : list string) (propertyType : string)
               (nestedClasses enums : list string) : Gen (PropertyResult * gset string) :=
      mret (mkProperty (propertyText decorators formattedPropertyName isRequired propertyType)
                       nestedClasses enums, usedProperties') in
    let resolved :=
      if truthy (Schema.ref schema)
      then resolveRef (default "" (Schema.ref schema)) doc else None in
    match resolved with
    | Some refSchema =>
      let refName := replace (default "" (Schema.ref schema)) refPrefix "" in
      className ← getClassNameFromSchemaName refName;
      let decorators1 :=
        if bool_decide (is_Some (Schema.enum refSchema))
        then decorators ++ ["@IsEnum(" +:+ className +:+ ")"] else decorators in
      finish (replacePlaceholder decorators1 className) className [] []
    | None =>
      if Schema.typeIs schema "string" then
        let propertyType := if isDateFormat schema then "Date" else "string" in
        match Schema.enum schema with
        | Some loc =>
          enumName ← getEnumNameFromProperty propertyName loc context;
          st ← getState;
          let enumDefinition := inlineEnumText enumName (Arrays.read (arrays st) loc) in
          finish (decorators ++ ["@IsEnum(" +:+ enumName +:+ ")"]) enumName
                 [] [enumDefinition]
        | None => finish decorators propertyType [] []
        end
      else if Schema.typeIs schema "number" || Schema.typeIs schema "integer" then
        finish decorators "number" [] []
      else if Schema.typeIs schema "boolean" then
        finish decorators "boolean" [] []
      else
        match (if Schema.typeIs schema "array" then Schema.items schema else None) with
        | Some items =>
          nestedClassName ← getClassNameFromSchemaName (propertyName +:+ "Item");
          let itemRef :=
            if truthy (Schema.ref items)
            then resolveRef (default "" (Schema.ref items)) doc else None in
          match itemRef with
          | Some _ =>
            let refName := replace (default "" (Schema.ref items)) refPrefix "" in
            refClassName ← getClassNameFromSchemaName refName;
            finish (replacePlaceholder decorators refClassName)
                   (refClassName +:+ "[]") [] []
          | None =>
            match Schema.properties items with
            | Some _ =>
              nested ← generateClassProperties fuel' items [] doc context;
              if bool_decide (0 < length (classProperties nested)) then
                let nestedClass := classText nestedClassName "" (classProperties nested) in
                setClassMap (propertyName +:+ ".items") nestedClassName;;
                finish (replacePlaceholder decorators nestedClassName)
                       (nestedClassName +:+ "[]")
                       (classNestedClasses nested ++ [nestedClass])
                       (classEnums nested)
              else
                let '(decorators1, propertyType) := simpleArray items decorators in
                finish decorators1 propertyType [] []
            | None =>
              let '(decorators1, propertyType) := simpleArray items decorators in
              finish decorators1 propertyType [] []
            end
          end
        | None =>
          if Schema.typeIs schema "object"
             || bool_decide (is_Some (Schema.properties schema)) then
            nestedClassName ← getClassNameFromSchemaName (propertyName +:+ "Object");
            let untyped :=
              finish (removeFirst (removeFirst decorators "@ValidateNested") "@Type")
                     "Record<string, any>" [] [] in
            match Schema.properties schema with
            | Some _ =>
              nested ← generateClassProperties fuel' schema [] doc context;
              if bool_decide (0 < length (classProperties nested)) then
                let nestedClass := classText nestedClassName "" (classProperties nested) in
                setClassMap propertyName nestedClassName;;
                finish (replacePlaceholder decorators nestedClassName) nestedClassName
                       (classNestedClasses nested ++ [nestedClass]) (classEnums nested)
              else untyped
            | None => untyped
            end
          else finish decorators "any" [] []
        end
    end
  end

(** [generateClassProperties]; its [usedProperties] is a fresh set, and
    every property text is a non-empty string, so each one is kept. *)
with generateClassProperties (fuel : nat) (schema : OpenAPISchema) (required : list string)
    (doc : OpenAPIDocument) (context : string) {struct fuel} : Gen PropertiesResult :=
  match fuel with
  | O => diverge
  | S fuel' =>
    merged ← lift (mergeParentProperties fuel' schema doc);
    let '(mergedProperties, mergedRequired) := merged in
    res ← forM (λ (kv : string * OpenAPISchema) (acc : PropertiesResult * gset string),
                  r ← generateClassProperty fuel' kv.1 kv.2 mergedRequired doc acc.2 context;
                  let '(p, usedProperties) := r in
                  mret (mkProperties (classProperties acc.1 ++ [property p])
                                     (classNestedClasses acc.1 ++ nestedClasses p)
                                     (classEnums acc.1 ++ enums p),
                        usedProperties))
               mergedProperties (mkProperties [] [] [], ∅);
    mret res.1
  end.

(** [formattedPropertyName] in [generateClassProperty]. *)
Definition formattedPropertyName (propertyName : string) : string :=
  if needsQuotes propertyName then "'" +:+ propertyName +:+ "'" else propertyName.


(** *** generateClassesFromOpenAPI, from the parsed document on *)

(** The arrays and the set that collect the output. *)
Record Emission := mkEmission {
  generatedEnums : list string;
  baseClasses : list string;
  childClasses : list string;
  processedSchemas : gset string
}.

Definition pushBase (c : string) (e : Emission) : Emission :=
  mkEmission (generatedEnums e) (baseClasses e ++ [c]) (childClasses e) (processedSchemas e).
Definition pushChild (c : string) (e : Emission) : Emission :=
  mkEmission (generatedEnums e) (baseClasses e) (childClasses e ++ [c]) (processedSchemas e).
Definition pushEnums (l : list string) (e : Emission) : Emission :=
  mkEmission (generatedEnums e ++ l) (baseClasses e) (childClasses e) (processedSchemas e).
Definition markProcessed (n : string) (e : Emission) : Emission :=
  mkEmission (generatedEnums e) (baseClasses e) (childClasses e) (processedSchemas e ∪ {[n]}).

(** "Add nested classes to appropriate array", then the class itself. *)
Definition pushClasses (nestedClasses : list string) (classDefinition extendsClause : string)
    (e : Emission) : Emission :=
  let e1 := foldl (λ e nestedClass,
                     if includes nestedClass " extends " then pushChild nestedClass e
                     else pushBase nestedClass e) e nestedClasses in
  if truthy (Some extendsClause) then pushChild classDefinition e1
  else pushBase classDefinition e1.

(** The loop "Create intermediate classes for each additional parent";
    the accumulator is [intermediateProps] and the emission. *)
Definition intermediateClasses (fuel : nat) (doc : OpenAPIDocument) (className : string)
    (others : list string) (e : Emission) : Gen Emission :=
  res ← forM (λ parentName (acc : list string * Emission),
                match lookupSchema doc parentName with
                | None => mret acc
                | Some parentSchema =>
                  parentClassName ← getClassNameFromSchemaName parentName;
                  let intermediateClassName := className +:+ "With" +:+ parentClassName in
                  parent ← generateClassProperties fuel parentSchema [] doc parentName;
                  let uniqueProps :=
                    filter (λ prop, prop ∉ acc.1) (classProperties parent) in
                  let intermediateProps := acc.1 ++ uniqueProps in
                  if bool_decide (0 < length uniqueProps) then
                    mret (intermediateProps,
                          pushBase (classText intermediateClassName "" uniqueProps) acc.2)
                  else mret (intermediateProps, acc.2)
                end) others ([], e);
  mret res.2.

(** The body of the loop over [sortedSchemas]. *)
Definition processSchemaName (fuel : nat) (doc : OpenAPIDocument) (schemaName : string)
    (e : Emission) : Gen Emission :=
  match lookupSchema doc schemaName with
  | None => mret e
  | Some schema =>
    if decide (schemaName ∈ processedSchemas e) then mret e
    else
      className ← getClassNameFromSchemaName schemaName;
      res ← generateClassProperties fuel schema [] doc schemaName;
      if bool_decide (length (classProperties res) = 0) then mret e
      else
        let e1 := pushEnums (classEnums res) e in
        ext ←
          match Schema.allOf schema with
          | None => mret ("", e1)
          | Some _ =>
            parents ← lift (getAllParentClasses fuel schema doc);
            match parents with
            | [] => mret ("", e1)
            | primaryParent :: others =>
              primaryParentClassName ← getClassNameFromSchemaName primaryParent;
              e2 ← intermediateClasses fuel doc className others e1;
              mret (" extends " +:+ primaryParentClassName, e2)
            end
          end;
        let '(extendsClause, e3) := ext in
        let classDefinition := classText className extendsClause (classProperties res) in
        mret (markProcessed schemaName
                (pushClasses (classNestedClasses res) classDefinition extendsClause e3))
  end.

(** "Find parent class if this schema extends another". *)
Definition responseExtends (schema : OpenAPISchema) : Gen string :=
  match Schema.allOf schema with
  | Some subs =>
    match head (omap refName subs) with
    | Some parentName =>
      parentClassName ← getClassNameFromSchemaName parentName;
      mret (" extends " +:+ parentClassName)
    | None => mret ""
    end
  | None =>
    match refName schema with
    | Some parentName =>
      parentClassName ← getClassNameFromSchemaName parentName;
      mret (" extends " +:+ parentClassName)
    | None => mret ""
    end
  end.

(** The body of the loop over the content types of a response. *)
Definition processContent (fuel : nat) (doc : OpenAPIDocument) (operationId statusCode : string)
    (media : MediaType) (e : Emission) : Gen Emission :=
  match schema media with
  | None => mret e
  | Some contentSchema =>
    className ← getClassNameFromOperationId operationId statusCode;
    res ← generateClassProperties fuel contentSchema [] doc operationId;
    if bool_decide (length (classProperties res) = 0) then mret e
    else
      let e1 := pushEnums (classEnums res) e in
      extendsClause ← responseExtends contentSchema;
      let classDefinition := classText className extendsClause (classProperties res) in
      mret (pushClasses (classNestedClasses res) classDefinition extendsClause e1)
  end.

(** The body of the loop over the responses of an operation: "Only
        process 2XX responses". *)
Definition processResponse (fuel : nat) (doc : OpenAPIDocument) (operationId : string)
    (statusCode : string) (response : OpenAPIResponse) (e : Emission) : Gen Emission :=
  if negb (startsWith statusCode "2") then mret e
  else
    match content response with
    | None => mret e
    | Some entries =>
      forM (λ kv, processContent fuel doc operationId statusCode kv.2) entries e
    end.

(** The body of the loop over the operations of a path. *)
Definition processOperation (fuel : nat) (doc : OpenAPIDocument)
    (operation : OpenAPIOperation) (e : Emission) : Gen Emission :=
  if negb (truthy (operationId operation)) then mret e
  else
    forM (λ kv, processResponse fuel doc (default "" (operationId operation)) kv.1 kv.2)
         (responses operation) e.

Definition processPaths (fuel : nat) (doc : OpenAPIDocument)
    (pathList : list (string * OpenAPIPath)) (e : Emission) : Gen Emission :=
  forM (λ (pathEntry : string * OpenAPIPath),
          forM (λ (opEntry : string * OpenAPIOperation),
                  processOperation fuel doc opEntry.2) pathEntry.2)
       pathList e.

(** The core of [generateClassesFromOpenAPI]: from the parsed document
    to the collected declarations. *)
Definition generateClasses (fuel : nat) (doc : OpenAPIDocument) : Gen Emission :=
  st ← getState;
  let enumSchemas := getEnums (arrays st) doc in
  let e0 := mkEmission ((λ kv, enumText kv.1 (Arrays.read (arrays st) kv.2)) <$> enumSchemas)
                       [] [] ∅ in
  let dependencyGraph := buildSchemaDependencyGraph doc in
  sortedSchemas ← lift (sortSchemasByDependency dependencyGraph);
  e1 ← match documentSchemas doc with
       | Some _ => forM (processSchemaName fuel doc) sortedSchemas e0
       | None => mret e0
       end;
  processPaths fuel doc (paths doc) e1.

Definition importHeader : string :=
"import {
  IsString,
  IsNumber,
  IsBoolean,
  IsDate,
  IsArray,
  IsObject,
  ValidateNested,
  IsOptional,
  IsEnum,
  Min,
  Max,
  MinLength,
  MaxLength,
  Matches,
  IsEmail,
  IsUrl,
  IsIP,
  IsUUID,
  IsLatitude,
  IsLongitude,
  IsCreditCard,
  IsPhoneNumber,
  IsPostalCode,
  IsMongoId,
  IsInt,
  IsPositive,
  IsNegative,
} from 'class-validator';
import { Type, Transform } from 'class-transformer';

".

(** "Add enums first, then base classes, then child classes". *)
Definition outputText (e : Emission) : string :=
  importHeader
  +:+ join (nl +:+ nl) (uniq (generatedEnums e)) +:+ nl +:+ nl
  +:+ join nl (uniq (baseClasses e)) +:+ nl +:+ nl
  +:+ join nl (uniq (childClasses e)).

(** A run: [schemaToClassName.clear()], the fresh sets and maps, the
    document with its arrays [h]; the result is the emission and the
    state at the end, which holds the arrays of the document. *)
Definition run (fuel : nat) (doc : OpenAPIDocument) (h : Arrays.t)
    : option (Emission * GenState) :=
  generateClasses fuel doc (initGen h).

(** The text written to the output file. *)
Definition generateClassesFromOpenAPI (fuel : nat) (doc : OpenAPIDocument) (h : Arrays.t)
    : option string :=
  (λ r, outputText r.1) <$> run fuel doc h.

End WithRandom.
End Generator.

(** ** Sample documents *)

Module Samples.
Import Generator.

(** [{ type }] *)
Definition primitive (type : string) : OpenAPISchema :=
  Schema.mk (Some type) None None None None None None None None None None None None None.

(** [{ type: 'string', enum }], the array being the one at [loc]. *)
Definition stringEnum (loc : nat) : OpenAPISchema :=
  Schema.mk (Some "string") None (Some loc) None None None None None None None None None None None.

(** [{ type: 'object', properties, required }] *)
Definition object (properties : list (string * OpenAPISchema)) (required : list string)
    : OpenAPISchema :=
  Schema.mk (Some "object") None None None None None None None (Some properties) None
            (Some required) None None None.

(** [{ $ref }] *)
Definition reference (ref : string) : OpenAPISchema :=
  Schema.mk None None None None None None None None None None None None (Some ref) None.

(** [{ allOf }] *)
Definition composite (members : list OpenAPISchema) : OpenAPISchema :=
  Schema.mk None None None None None None None None None None None (Some members) None None.

Definition withSchemas (l : list (string * OpenAPISchema)) : option Components :=
  Some (mkComponents (Some l)).

Definition jsonResponse (s : OpenAPISchema) : OpenAPIResponse :=
  mkResponse (Some [("application/json", mkMediaType (Some s))]).

(** A source of tokens for the runs below, none of which draws one. *)
Definition noToken : nat → string := λ _, "token0".

Definition pet : OpenAPISchema :=
  object [("id", primitive "integer"); ("name", primitive "string")] ["name"].

(** Scenario B: [Dog] is composed from a reference to [Pet] and its own
    field [breed]. *)
Definition dog : OpenAPISchema :=
  composite [reference "#/components/schemas/Pet";
             object [("breed", primitive "string")] []].

Definition petStore : OpenAPIDocument :=
  mkDocument [] (withSchemas [("Pet", pet); ("Dog", dog)]).

(** Scenario C: [getPet] with a 200 and a 404 response, each with an
    inline enum over the same values; the two arrays are at 0 and 1. *)
Definition statusArrays : Arrays.t := [["available"; "sold"]; ["available"; "sold"]].

Definition getPet (second : string) : OpenAPIOperation :=
  mkOperation (Some "getPet")
    [("200", jsonResponse (object [("status", stringEnum 0)] []));
     (second, jsonResponse (object [("state", stringEnum 1)] []))].

Definition getPetDocument (second : string) : OpenAPIDocument :=
  mkDocument [("/pets/{id}", [("get", getPet second)])] None.

(** A top-level enum [Status] and a schema [Order] with an inline enum
    over the same values; an array for each. *)
Definition orderDocument : OpenAPIDocument :=
  mkDocument [] (withSchemas [("Status", stringEnum 0);
                              ("Order", object [("kind", stringEnum 1)] [])]).

(** A reference to a schema that the document does not declare, next to
    a declared type. *)
Definition typedReference : OpenAPISchema :=
  Schema.mk (Some "string") None None None None None None None None None None None
            (Some "#/components/schemas/Missing") None.

(** An operation that lacks its [operationId]. *)
Definition anonymousOperation : OpenAPIOperation :=
  mkOperation None [("200", jsonResponse pet)].

End Samples.

(** ** Vocabulary of the registry properties *)

Module Registry.
Import JsString Generator.

(** The canonical key of the array at [loc]: what
    [JSON.stringify(values.sort())] evaluates to. *)
Definition enumKey (h : Arrays.t) (loc : nat) : string :=
  stringify (sort (Arrays.read h loc)).

(** The name of the first entry of [usedEnums] whose array has the key [k]. *)
Fixpoint firstWithKey (h : Arrays.t) (k : string) (entries : list (string * nat))
    : option string :=
  match entries with
  | [] => None
  | (name, loc) :: rest =>
    if decide (enumKey h loc = k) then Some name else firstWithKey h k rest
  end.

(** A state that differs from [st] by arrays having been sorted. *)
Definition sortedOnly (st st' : GenState) : Prop :=
  schemaToClassName st' = schemaToClassName st ∧
  usedNames st' = usedNames st ∧
  usedEnums st' = usedEnums st ∧
  classMap st' = classMap st ∧
  randomCalls st' = randomCalls st ∧
  ∀ loc, enumKey (arrays st') loc = enumKey (arrays st) loc.

(** An allocation request to one of the three registries. *)
Inductive Request :=
| SchemaRequest (schemaName : string)
| OperationRequest (operationId statusCode : string)
| EnumRequest (propertyName : string) (enumValues : nat) (context : string).

Section WithRandom.
Variable randomToken : nat → string.

Definition serve (r : Request) : Gen string :=
  match r with
  | SchemaRequest schemaName => getClassNameFromSchemaName randomToken schemaName
  | OperationRequest operationId statusCode =>
    getClassNameFromOperationId randomToken operationId statusCode
  | EnumRequest propertyName enumValues context =>
    getEnumNameFromProperty randomToken propertyName enumValues context
  end.

(** The answers to a sequence of requests, in order. *)
Fixpoint serveAll (rs : list Request) : Gen (list string) :=
  match rs with
  | [] => mret []
  | r :: rs' => n ← serve r; ns ← serveAll rs'; mret (n :: ns)
  end.

(** The name that the last rung of the ladder would give to [r] in the
    state [st] is not in use. *)
Definition tokenFresh (r : Request) (st : GenState) : bool :=
  let token := randomToken (randomCalls st) in
  match r with
  | SchemaRequest schemaName =>
    bool_decide (toPascalCase schemaName +:+ "_" +:+ token ∉ usedNames st)
  | OperationRequest operationId statusCode =>
    let baseClassName := toPascalCase operationId +:+ statusCode +:+ "Response" in
    bool_decide (baseClassName +:+ "_" +:+ token ∉ usedNames st)
  | EnumRequest propertyName _ context =>
    negb (JsMap.has (enumBaseName propertyName context +:+ "_" +:+ token) (usedEnums st))
  end.

(** [tokenFresh] at every request of a sequence served from [st]. *)
Fixpoint tokensFresh (rs : list Request) (st : GenState) : bool :=
  match rs with
  | [] => true
  | r :: rs' =>
    tokenFresh r st &&
    match serve r st with
    | Some (_, st') => tokensFresh rs' st'
    | None => true
    end
  end.
End WithRandom.

(** What the registries hold about a request answered with [n]. *)
Definition recorded (h : Arrays.t) (st : GenState) (r : Request) (n : string) : Prop :=
  match r with
  | SchemaRequest schemaName => schemaToClassName st !! schemaName = Some n
  | OperationRequest _ _ =>
    n ∈ usedNames st ∧ ∀ k, schemaToClassName st !! k ≠ Some n
  | EnumRequest _ enumValues _ =>
    ∃ loc, JsMap.get n (usedEnums st) = Some loc ∧ enumKey h loc = enumKey h enumValues
  end.

(** The registries are consistent: every class name of a schema is in
    [usedNames], no two schemas share a class name, and no two enum
    names stand for the same key. *)
Record consistent (h : Arrays.t) (st : GenState) : Prop := {
  co_used : ∀ k n, schemaToClassName st !! k = Some n → n ∈ usedNames st;
  co_inj : ∀ k1 k2 n,
    schemaToClassName st !! k1 = Some n → schemaToClassName st !! k2 = Some n → k1 = k2;
  co_enums : ∀ n1 n2 l1 l2,
    JsMap.get n1 (usedEnums st) = Some l1 → JsMap.get n2 (usedEnums st) = Some l2 →
    enumKey h l1 = enumKey h l2 → n1 = n2;
  co_nodup : NoDup (JsMap.keys (usedEnums st));
  co_keys : ∀ loc, enumKey (arrays st) loc = enumKey h loc
}.

(** How a request may change the registries: names are added, and a new
    class name of a schema was not in use before. *)
Definition registryStep (st st' : GenState) : Prop :=
  usedNames st ⊆ usedNames st' ∧
  (∀ k n, schemaToClassName st !! k = Some n → schemaToClassName st' !! k = Some n) ∧
  (∀ k n, schemaToClassName st' !! k = Some n →
          schemaToClassName st !! k = Some n ∨ n ∉ usedNames st) ∧
  (∀ n loc, JsMap.get n (usedEnums st) = Some loc → JsMap.get n (usedEnums st') = Some loc).

(** The answer to a request for an operation response was not in use. *)
Definition newName (st : GenState) (r : Request) (n : string) : Prop :=
  match r with
  | OperationRequest _ _ => n ∉ usedNames st
  | _ => True
  end.

(** Two requests of one run and their answers, as the registries relate
    them: schemas and enums are told apart by their keys, an operation
    response gets a name of its own at every request. *)
Definition related (h : Arrays.t) (i j : nat) (ri rj : Request) (ni nj : string) : Prop :=
  match ri, rj with
  | SchemaRequest k1, SchemaRequest k2 => ni = nj ↔ k1 = k2
  | EnumRequest _ l1 _, EnumRequest _ l2 _ => ni = nj ↔ enumKey h l1 = enumKey h l2
  | OperationRequest _ _, OperationRequest _ _ => ni = nj ↔ i = j
  | SchemaRequest _, OperationRequest _ _
  | OperationRequest _ _, SchemaRequest _ => ni ≠ nj
  | _, _ => True
  end.

(** A sample sequence of requests. *)
Definition sampleRequests : list Request :=
  [SchemaRequest "Pet"; OperationRequest "getPet" "200"; EnumRequest "status" 0 "Pet";
   SchemaRequest "Pet"; OperationRequest "getPet" "200"; EnumRequest "state" 1 "Order";
   SchemaRequest "pet"].

(** Requests of one run: the enum of [Order.kind], a schema, another
    enum, a response, and the enum of [Invoice.category], whose array holds
    the values of the first in another order. *)
Definition enumRequests : list Request :=
  [EnumRequest "kind" 0 "Order"; SchemaRequest "Order"; EnumRequest "size" 2 "Order";
   OperationRequest "getOrder" "200"; EnumRequest "category" 1 "Invoice"].

Definition enumArrays : Arrays.t := [["A"; "B"]; ["B"; "A"]; ["S"; "M"; "L"]].

(** Nine requests for the enum of a field [currency]. The first six take
    the base name and its five suffixes; the seventh and the eighth fall
    back on a random token, and the ninth asks for the values of the
    seventh again, in another order. *)
Definition currencyRequests : list Request :=
  (λ loc, EnumRequest "currency" loc "Price") <$> seq 0 9.

Definition currencyArrays : Arrays.t :=
  [["a"]; ["b"]; ["c"]; ["d"]; ["e"]; ["f"]; ["g"; "h"]; ["i"]; ["h"; "g"]].

(** A generator of tokens that gives the same token twice. *)
Definition repeatedToken (n : nat) : string :=
  match n with 0 | 1 => "t0" | _ => "t1" end.

End Registry.

(** ** Invariants of the two passes of the sorter *)

Module SorterInv.
Import SchemaDependency.

(** [u] occurs in [l] at a smaller index than [w]. *)
Definition before (l : list string) (u w : string) : Prop :=
  ∃ i j, l !! i = Some u ∧ l !! j = Some w ∧ i < j.

(** What holds of the first pass between two calls of [visit]: [sorted]
    lists the finished nodes once each; a finished node has each
    dependency finished earlier (further right in [sorted]) unless both
    ends of the edge were marked; and only nodes from which a cycle is
    reachable are marked. *)
Record visitInv (g : Graph) (st : VisitState) : Prop := {
  vi_nodup : NoDup (sorted st);
  vi_sorted : ∀ x, x ∈ sorted st ↔ x ∈ visited st;
  vi_disj : visited st ## visiting st;
  vi_univ : ∀ x, x ∈ visited st ∪ visiting st → mentioned g x;
  vi_edges : ∀ u w, u ∈ visited st → edge g u w →
    before (sorted st) u w ∨ (u ∈ cycles st ∧ w ∈ cycles st);
  vi_closed : ∀ u w, u ∈ visited st → edge g u w → w ∈ visited st ∪ visiting st;
  vi_cycles : ∀ x, x ∈ cycles st → reachesCycle g x
}.

(** How a call of [visit] may change the state. *)
Definition visitStep (s s' : VisitState) : Prop :=
  visiting s' = visiting s ∧
  (∃ new, sorted s' = new ++ sorted s) ∧
  visited s ⊆ visited s' ∧
  cycles s ⊆ cycles s'.

(** What the second pass is run on: the outcome of the first. *)
Record orderOk (g : Graph) (cyc : gset string) (L : list string) : Prop := {
  oo_nodup : NoDup L;
  oo_edges : ∀ u w, u ∈ L → edge g u w → before L u w ∨ (u ∈ cyc ∧ w ∈ cyc);
  oo_closed : ∀ u w, u ∈ L → edge g u w → w ∈ L
}.

(** Every occurrence of an unmarked node in [out] has all the
    dependencies of the node to its left. *)
Definition depsFirst (g : Graph) (cyc : gset string) (out : list string) : Prop :=
  ∀ l1 u l2, out = l1 ++ u :: l2 → u ∉ cyc → ∀ w, edge g u w → w ∈ l1.

Record processInv (g : Graph) (cyc : gset string) (L : list string)
    (ps : ProcessState) : Prop := {
  pi_processed : ∀ x, x ∈ finalSorted ps ↔ x ∈ processed ps;
  pi_sub : ∀ x, x ∈ processed ps → x ∈ L;
  pi_deps : depsFirst g cyc (finalSorted ps);
  pi_nodup : noSelfDependency g → NoDup (finalSorted ps)
}.

Definition processStep (s s' : ProcessState) : Prop :=
  processed s ⊆ processed s'.

End SorterInv.

(** ** Vocabulary of the document properties *)

Module Document.
Import JsString SchemaDependency Generator.

(** Induction on a schema: the members of [allOf], the values of
    [properties] and [items] are the smaller schemas. *)
Section SchemaInduction.
Variable P : OpenAPISchema → Prop.
Hypothesis step : ∀ type format enum minimum maximum minLength maxLength pattern
    properties items required allOf ref title,
  from_option (Forall (λ kv : string * OpenAPISchema, P kv.2)) True properties →
  from_option P True items →
  from_option (Forall P) True allOf →
  P (Schema.mk type format enum minimum maximum minLength maxLength pattern
               properties items required allOf ref title).

Fixpoint schema_ind (s : OpenAPISchema) : P s :=
  match s with
  | Schema.mk type format enum minimum maximum minLength maxLength pattern
              properties items required allOf ref title =>
    step type format enum minimum maximum minLength maxLength pattern
         properties items required allOf ref title
      match properties with
      | Some l =>
        (fix go (l : list (string * OpenAPISchema))
           : Forall (λ kv : string * OpenAPISchema, P kv.2) l :=
           match l with
           | [] => @List.Forall_nil _ _
           | (k, s') :: l' =>
             @List.Forall_cons _ (λ kv : string * OpenAPISchema, P kv.2) (k, s') l'
                         (schema_ind s') (go l')
           end) l
      | None => I
      end
      match items with
      | Some s' => schema_ind s'
      | None => I
      end
      match allOf with
      | Some l =>
        (fix go (l : list OpenAPISchema) : Forall P l :=
           match l with
           | [] => @List.Forall_nil _ _
           | s' :: l' => @List.Forall_cons _ P s' l' (schema_ind s') (go l')
           end) l
      | None => I
      end
  end.
End SchemaInduction.

(** [nested s s']: [s'] is [s] or a schema found in [s] under [allOf],
    [properties] or [items], at any depth. *)
Inductive nested : OpenAPISchema → OpenAPISchema → Prop :=
| nested_here s : nested s s
| nested_allOf s l s1 s' :
    Schema.allOf s = Some l → s1 ∈ l → nested s1 s' → nested s s'
| nested_properties s l k s1 s' :
    Schema.properties s = Some l → (k, s1) ∈ l → nested s1 s' → nested s s'
| nested_items s s1 s' :
    Schema.items s = Some s1 → nested s1 s' → nested s s'.

(** [refersTo doc a b]: the schema that [doc] declares as [a] holds, at
    some depth, a reference [#/components/schemas/b]. *)
Definition refersTo (doc : OpenAPIDocument) (a b : string) : Prop :=
  ∃ s s', (documentSchemas doc ≫= JsMap.get a) = Some s ∧ nested s s' ∧
          Schema.ref s' = Some (refPrefix +:+ b).

(** The names of the schemas of a document, in the order of the document. *)
Definition schemaNames (doc : OpenAPIDocument) : list string :=
  JsMap.keys (default [] (documentSchemas doc)).

(** [inheritedProperty doc subs k]: a reference among the schemas [subs]
    resolves to a schema that has a property [k] of its own. *)
Definition inheritedProperty (doc : OpenAPIDocument) (subs : list OpenAPISchema)
    (k : string) : Prop :=
  ∃ sub ref parent ps,
    sub ∈ subs ∧ Schema.ref sub = Some ref ∧ resolveRef ref doc = Some parent ∧
    Schema.properties parent = Some ps ∧ k ∈ JsMap.keys ps.

(** [inheritsFrom doc s parent]: a reference among the [allOf] members of
    [s] resolves to [parent]. *)
Definition inheritsFrom (doc : OpenAPIDocument) (s parent : OpenAPISchema) : Prop :=
  ∃ subs sub ref, Schema.allOf s = Some subs ∧ sub ∈ subs ∧
    Schema.ref sub = Some ref ∧ resolveRef ref doc = Some parent.

(** [includedIn merged merged']: the property names and the required
    names of [merged] are among those of [merged']. *)
Definition includedIn (merged merged' : list (string * OpenAPISchema) * list string)
    : Prop :=
  (∀ k, k ∈ JsMap.keys merged.1 → k ∈ JsMap.keys merged'.1) ∧
  (∀ k, k ∈ merged.2 → k ∈ merged'.2).

(** The references among the [allOf] members of a schema, by name. *)
Definition directParents (s : OpenAPISchema) : list string :=
  omap refName (default [] (Schema.allOf s)).

(** Every class name given to a schema is registered as used. *)
Definition classNamesUsed (st : GenState) : Prop :=
  ∀ k n, schemaToClassName st !! k = Some n → n ∈ usedNames st.

(** [grows st st']: what the state [st] holds, [st'] holds as well. Names
    in use stay in use, a schema keeps its class name, the names of the
    enums and the keys of [classMap] stay, and each array of the document
    is as it was or has been sorted. *)
Record grows (st st' : GenState) : Prop := {
  gr_names : ∀ n, n ∈ usedNames st → n ∈ usedNames st';
  gr_classes : ∀ k n,
    schemaToClassName st !! k = Some n → schemaToClassName st' !! k = Some n;
  gr_enums : ∀ n, n ∈ JsMap.keys (usedEnums st) → n ∈ JsMap.keys (usedEnums st');
  gr_classMap : ∀ k, k ∈ JsMap.keys (classMap st) → k ∈ JsMap.keys (classMap st');
  gr_random : randomCalls st ≤ randomCalls st';
  gr_length : length (arrays st') = length (arrays st);
  gr_arrays : ∀ loc,
    Arrays.read (arrays st') loc = Arrays.read (arrays st) loc ∨
    Arrays.read (arrays st') loc = sort (Arrays.read (arrays st) loc);
  gr_used : classNamesUsed st → classNamesUsed st'
}.

(** A computation whose final state holds what its initial state held. *)
Definition keeps {A} (m : Gen A) : Prop :=
  ∀ st x st', m st = Some (x, st') → grows st st'.

(** [yields m Q]: whatever [m] returns satisfies [Q]. *)
Definition yields {A} (m : Gen A) (Q : A → Prop) : Prop :=
  ∀ st x st', m st = Some (x, st') → Q x.

(** *** Sample documents *)

(** [Node] is composed from a reference to itself and a field [next]. *)
Definition node : OpenAPISchema :=
  Samples.composite [Samples.reference "#/components/schemas/Node";
                     Samples.object [("next", Samples.primitive "string")] []].

Definition nodeDocument : OpenAPIDocument :=
  mkDocument [] (Samples.withSchemas [("Node", node)]).

(** Two schemas, each with a property [address] that is an object of its
    own. *)
Definition addressBook : OpenAPIDocument :=
  mkDocument []
    (Samples.withSchemas
       [("Customer", Samples.object
                       [("address", Samples.object [("street", Samples.primitive "string")] [])]
                       []);
        ("Warehouse", Samples.object
                        [("address", Samples.object [("dock", Samples.primitive "integer")] [])]
                        [])]).


(** [{ type: 'array', items: { type: 'string' } }] *)
Definition stringList : OpenAPISchema :=
  Schema.mk (Some "array") None None None None None None None None
            (Some (Samples.primitive "string")) None None None None.

(** [{ type: 'array', items: { type: 'integer' } }] *)
Definition tagList : OpenAPISchema :=
  Schema.mk (Some "array") None None None None None None None None
            (Some (Samples.primitive "integer")) None None None None.

End Document.

(** ** Tactics *)

Import SchemaDependency SorterInv JsString Generator Samples Registry.

(** Edges of a graph given by its bindings, one case per binding. *)
Ltac edge_cases H :=
  unfold edge, dependenciesOf in H; simpl in H;
  repeat (case_decide; simplify_eq/=);
  repeat (apply elem_of_cons in H as [H|H]; simplify_eq/=);
  try (by apply elem_of_nil in H).

(** Unfolding of the operations of [Gen]. *)
Ltac gen_unfold :=
  unfold mbind, gen_bind, mret, gen_ret, getState, putState, modifyState, lift,
         addUsedName, setSchemaClassName, setUsedEnum, setClassMap, sortArray,
         nextRandomToken, diverge in *.

(** * Properties of the dependency sorter *)

Section ForOf.
Context {A S : Type}.
Implicit Types (body : A → S → option S) (l : list A).

(** Invariant rule for a loop: [I] is kept by every iteration, [R] relates
    a state to every later one, and what an iteration establishes about
    its element ([Q]) survives the later iterations. *)
Lemma forOf_inv body (I : S → Prop) (R : S → S → Prop) (Q : A → S → Prop) l :
  (∀ s, R s s) →
  (∀ s1 s2 s3, R s1 s2 → R s2 s3 → R s1 s3) →
  (∀ x s s', R s s' → Q x s → Q x s') →
  (∀ x s, x ∈ l → I s → ∃ s', body x s = Some s' ∧ I s' ∧ R s s' ∧ Q x s') →
  ∀ s, I s →
    ∃ s', forOf body l s = Some s' ∧ I s' ∧ R s s' ∧ ∀ x, x ∈ l → Q x s'.
Proof.
  intros Hrefl Htrans Hmono.
  induction l as [|x l IH]; intros Hbody s Hs; simpl.
  - exists s. split_and!; auto. intros x Hx. by apply elem_of_nil in Hx.
  - destruct (Hbody x s) as (s1 & -> & HI1 & HR1 & HQ1); [left | done |].
    destruct IH with (s := s1) as (s2 & -> & HI2 & HR2 & HQ2); [|done|].
    { intros y t Hy. apply Hbody. by right. }
    exists s2. split_and!; eauto.
    intros y [->|Hy]%elem_of_cons; eauto.
Qed.
End ForOf.

Section ListFacts.
Implicit Types (l : list string) (x y : string).

Lemma indexOf_lookup x l i :
  indexOf x l = Some i → l !! i = Some x ∧ ∀ j, j < i → l !! j ≠ Some x.
Proof.
  revert i. induction l as [|y l IH]; intros i; simpl; [done|].
  case_decide as Hy.
  - intros [= <-]. subst. split; [done|]. intros j Hj. lia.
  - destruct (indexOf x l) as [k|] eqn:Hk; simpl; [|done].
    intros [= <-]. destruct (IH k eq_refl) as [Hl Hmin]. split; [done|].
    intros [|j] Hj; simpl; [congruence|]. apply Hmin. lia.
Qed.

Lemma indexOf_elem x l : x ∈ l → is_Some (indexOf x l).
Proof.
  induction l as [|y l IH]; [by intros ?%elem_of_nil|].
  simpl. case_decide; [by eauto|].
  intros [->|Hx]%elem_of_cons; [done|].
  destruct (IH Hx) as [k ->]. by eexists.
Qed.

Lemma indexOf_app_l x l l' i : indexOf x l = Some i → indexOf x (l ++ l') = Some i.
Proof.
  revert i. induction l as [|y l IH]; intros i; simpl; [done|].
  case_decide; [done|].
  destruct (indexOf x l) as [k|] eqn:Hk; simpl; [|done].
  intros [= <-]. by rewrite (IH k eq_refl).
Qed.

Lemma indexOf_app_r x l l' :
  x ∉ l → indexOf x (l ++ l') = (λ i, length l + i) <$> indexOf x l'.
Proof.
  induction l as [|y l IH]; intros Hx; simpl.
  - by destruct (indexOf x l').
  - apply not_elem_of_cons in Hx as [Hne Hx]. case_decide; [congruence|].
    rewrite IH; [|done]. by destruct (indexOf x l').
Qed.

Lemma indexOf_lt_length x l i : indexOf x l = Some i → i < length l.
Proof. intros [Hl _]%indexOf_lookup. by eapply lookup_lt_Some. Qed.
End ListFacts.

Section GraphFacts.
Context (g : Graph).
Implicit Types (u w x : string) (l : list string).

Lemma get_elem {V} k (m : list (string * V)) v :
  JsMap.get k m = Some v → (k, v) ∈ m.
Proof.
  induction m as [|[k' v'] m IH]; simpl; [done|].
  case_decide as Hk.
  - intros [= ->]. subst. by left.
  - intros Hm. right. by apply IH.
Qed.

Lemma edge_key u w : edge g u w → u ∈ JsMap.keys g.
Proof.
  unfold edge, dependenciesOf.
  destruct (JsMap.get u g) as [ds|] eqn:Hget; simpl; [|by intros ?%elem_of_nil].
  intros _. apply get_elem in Hget.
  unfold JsMap.keys. apply list_elem_of_fmap. by exists (u, ds).
Qed.

Lemma edge_nodes u w : edge g u w → w ∈ nodes g.
Proof.
  unfold edge, dependenciesOf, nodes.
  destruct (JsMap.get u g) as [ds|] eqn:Hget; simpl; [|by intros ?%elem_of_nil].
  intros Hw. apply get_elem in Hget.
  apply elem_of_union_r, elem_of_list_to_set, list_elem_of_join.
  exists ds. split; [done|]. apply list_elem_of_fmap. by exists (u, ds).
Qed.

Lemma key_nodes u : u ∈ JsMap.keys g → u ∈ nodes g.
Proof. intros Hu. by apply elem_of_union_l, elem_of_list_to_set. Qed.

Lemma mentioned_nodes u : mentioned g u → u ∈ nodes g.
Proof. intros [Hu|[v Hv]]; [by apply key_nodes | by eapply edge_nodes]. Qed.

Lemma before_cons l x u w : before l u w → before (x :: l) u w.
Proof. intros (i & j & Hi & Hj & Hij). exists (S i), (S j). split_and!; [done..|lia]. Qed.

Lemma before_app l l' u w : before l u w → before (l' ++ l) u w.
Proof. induction l'; simpl; auto using before_cons. Qed.

Lemma before_head l x w : w ∈ l → before (x :: l) x w.
Proof.
  intros [j Hj]%list_elem_of_lookup_1. exists 0, (S j). split_and!; [done..|lia].
Qed.

Lemma before_elem_r l u w : before l u w → w ∈ l.
Proof. intros (i & j & _ & Hj & _). by eapply list_elem_of_lookup_2. Qed.

Lemma before_trans l u v w : NoDup l → before l u v → before l v w → before l u w.
Proof.
  intros Hnd (i & j & Hi & Hj & Hij) (j' & k & Hj' & Hk & Hjk).
  assert (j = j') as <- by eauto using NoDup_lookup.
  exists i, k. split_and!; [done..|lia].
Qed.

Lemma before_irrefl l u : NoDup l → ¬ before l u u.
Proof.
  intros Hnd (i & j & Hi & Hj & Hij).
  assert (i = j) by eauto using NoDup_lookup. lia.
Qed.

Lemma size_visiting_lt (U V : gset string) x :
  x ∈ U → x ∉ V → size (U ∖ (V ∪ {[x]})) < size (U ∖ V).
Proof. intros HU HV. apply subset_size. set_solver. Qed.

End GraphFacts.

Section FirstPass.
Context (g : Graph).

Lemma visitStep_refl s : visitStep s s.
Proof. split_and!; [done | by exists [] | done..]. Qed.

Lemma visitStep_trans s1 s2 s3 : visitStep s1 s2 → visitStep s2 s3 → visitStep s1 s3.
Proof.
  intros (Hv1 & [n1 Hs1] & Hd1 & Hc1) (Hv2 & [n2 Hs2] & Hd2 & Hc2).
  split_and!; [congruence | | set_solver..].
  exists (n2 ++ n1). by rewrite Hs2, Hs1, (assoc_L (++)).
Qed.

Lemma visitInv_init : visitInv g initVisit.
Proof.
  split; simpl; [constructor | set_solver..].
Qed.

(** A back edge marks the whole path. *)
Lemma visitInv_mark st node path :
  visitInv g st →
  node ∈ path →
  (∀ p, p ∈ path → tc (edge g) p node) →
  visitInv g (mkVisit (sorted st) (visited st) (visiting st) (cycles st ∪ path)).
Proof.
  intros [] Hnode Hpath. split; simpl; try done.
  - intros u w Hu Hw. destruct (vi_edges0 u w Hu Hw) as [?|[??]]; [by left|].
    right. set_solver.
  - intros x [Hx|Hx]%elem_of_union; [by auto|].
    exists node. split; [by apply tc_rtc, Hpath | by apply Hpath].
Qed.

(** Entering a node. *)
Lemma visitInv_enter st node :
  visitInv g st → mentioned g node → node ∉ visited st →
  visitInv g (mkVisit (sorted st) (visited st) (visiting st ∪ {[node]}) (cycles st)).
Proof.
  intros [] Hm Hnv. split; simpl; try done.
  - set_solver.
  - intros x Hx. destruct (decide (x = node)) as [->|]; [done|].
    apply vi_univ0. set_solver.
  - intros u w Hu Hw. specialize (vi_closed0 u w Hu Hw). set_solver.
Qed.

(** Leaving a node whose dependencies have all been looked at. *)
Lemma visitInv_leave st0 st2 node path :
  visiting st0 ⊆ path →
  node ∉ visiting st0 →
  visitInv g st2 →
  visiting st2 = visiting st0 ∪ {[node]} →
  (∀ dep, edge g node dep →
     dep ∈ visited st2 ∨ (dep ∈ visiting st2 ∧ path ∪ {[node]} ⊆ cycles st2)) →
  visitInv g (mkVisit (node :: sorted st2) (visited st2 ∪ {[node]})
                      (visiting st2 ∖ {[node]}) (cycles st2)).
Proof.
  intros Hpath Hnew [] Hving Hdeps.
  assert (node ∉ visited st2) as Hnv by set_solver.
  split; simpl.
  - constructor; [|done]. by rewrite vi_sorted0.
  - intros x. rewrite elem_of_cons, vi_sorted0. set_solver.
  - set_solver.
  - intros x Hx. apply vi_univ0. set_solver.
  - intros u w [Hu| ->%elem_of_singleton]%elem_of_union Hw.
    + destruct (vi_edges0 u w Hu Hw) as [?|?]; [left|by right].
      by apply before_cons.
    + destruct (Hdeps w Hw) as [Hv|[Hv Hc]].
      * left. apply before_head. by apply vi_sorted0.
      * right. set_solver.
  - intros u w [Hu| ->%elem_of_singleton]%elem_of_union Hw.
    + specialize (vi_closed0 u w Hu Hw).
      destruct (decide (w = node)); set_solver.
    + destruct (Hdeps w Hw) as [Hv|[Hv Hc]]; [set_solver|].
      destruct (decide (w = node)); set_solver.
  - done.
Qed.

(** [visit] returns whenever its fuel exceeds the number of nodes that
    are not on the call stack, and keeps the invariant. *)
Lemma visit_spec fuel : ∀ node path st,
  visitInv g st →
  visiting st ⊆ path →
  (∀ p, p ∈ path → tc (edge g) p node) →
  mentioned g node →
  size (nodes g ∖ visiting st) < fuel →
  ∃ st', visit fuel g node path st = Some st' ∧
    visitInv g st' ∧ visitStep st st' ∧
    (node ∈ visited st' ∨ (node ∈ visiting st ∧ path ⊆ cycles st')).
Proof.
  induction fuel as [|fuel IH]; intros node path st Hinv Hsub Hpath Hm Hfuel; [lia|].
  simpl. case_decide as Hvd.
  { exists st. split_and!; auto using visitStep_refl. }
  case_decide as Hvg.
  { eexists. split_and!; [done | | | right].
    - apply (visitInv_mark st node path); [done| |done]. by apply Hsub.
    - split_and!; simpl; [done | by exists [] | done | set_solver].
    - simpl. split; [done | set_solver]. }
  set (st1 := mkVisit (sorted st) (visited st) (visiting st ∪ {[node]}) (cycles st)).
  set (path' := path ∪ {[node]}).
  destruct (forOf_inv
    (λ dep s, if decide (dep ∈ visited s) then Some s else visit fuel g dep path' s)
    (λ s, visitInv g s ∧ visiting s = visiting st1)
    visitStep
    (λ dep s, dep ∈ visited s ∨ (dep ∈ visiting s ∧ path' ⊆ cycles s))
    (dependenciesOf g node))
    with (s := st1) as (st2 & -> & [Hinv2 Hving2] & Hstep2 & Hdeps).
  - apply visitStep_refl.
  - apply visitStep_trans.
  - intros x s s' (Hv & _ & Hd & Hc) [?|[??]]; [left|right]; [set_solver|].
    split; [congruence | set_solver].
  - intros dep s Hdep [Hinv' Hving']. case_decide as Hd.
    { exists s. split_and!; auto using visitStep_refl. }
    destruct (IH dep path' s) as (s' & Hs' & Hinv'' & Hstep'' & Hpost); try done.
    + rewrite Hving'. subst st1 path'. simpl. set_solver.
    + intros p [Hp| ->%elem_of_singleton]%elem_of_union.
      * eapply tc_r; [by apply Hpath | done].
      * by apply tc_once.
    + right. by exists node.
    + rewrite Hving'. subst st1. simpl.
      pose proof (size_visiting_lt (nodes g) (visiting st) node) as Hlt.
      specialize (Hlt (mentioned_nodes g node Hm) Hvg). lia.
    + exists s'. split_and!; try done.
      * destruct Hstep'' as (-> & _). done.
      * destruct Hpost as [?|[??]]; [by left|right].
        split; [|done]. by destruct Hstep'' as (-> & _).
  - split; [|done]. by apply visitInv_enter.
  - eexists. split_and!; [done | | | left; simpl; set_solver].
    + eapply visitInv_leave; eauto.
    + destruct Hstep2 as (_ & [new Hnew] & Hd & Hc). subst st1. simpl in *.
      split_and!; simpl.
      * rewrite Hving2. set_solver.
      * exists (node :: new). by rewrite Hnew.
      * set_solver.
      * done.
Qed.

End FirstPass.

Section FirstPassResult.
Context (g : Graph).

Lemma firstPass_spec :
  ∃ st, firstPass (S (size (nodes g))) g = Some st ∧
    visitInv g st ∧ visiting st = ∅ ∧ ∀ k, k ∈ JsMap.keys g → k ∈ visited st.
Proof.
  unfold firstPass.
  destruct (forOf_inv
    (λ node s, if decide (node ∈ visited s) then Some s
               else visit (S (size (nodes g))) g node ∅ s)
    (λ s, visitInv g s ∧ visiting s = ∅)
    visitStep
    (λ node s, node ∈ visited s)
    (JsMap.keys g))
    with (s := initVisit) as (st & -> & [Hinv Hving] & _ & Hkeys).
  - apply visitStep_refl.
  - apply visitStep_trans.
  - intros x s s' (_ & _ & Hd & _) Hx. by apply Hd.
  - intros k s Hk [Hinv Hving]. case_decide as Hd.
    { exists s. split_and!; auto using visitStep_refl. }
    destruct (visit_spec g (S (size (nodes g))) k ∅ s)
      as (s' & Hs' & Hinv' & Hstep' & Hpost); try done.
    + by rewrite Hving.
    + by left.
    + rewrite Hving, difference_empty_L. lia.
    + exists s'. split_and!; try done.
      * destruct Hstep' as (-> & _). done.
      * destruct Hpost as [?|[Hk' _]]; [done|]. rewrite Hving in Hk'. set_solver.
  - split; [apply visitInv_init | done].
  - by exists st.
Qed.

(** The outcome of the first pass is what the second pass relies on. *)
Lemma visitInv_orderOk st :
  visitInv g st → visiting st = ∅ → orderOk g (cycles st) (sorted st).
Proof.
  intros [] Hving. split.
  - done.
  - intros u w Hu Hw. apply vi_edges0; [|done]. by apply vi_sorted0.
  - intros u w Hu Hw. apply vi_sorted0.
    apply vi_sorted0 in Hu. specialize (vi_closed0 u w Hu Hw). set_solver.
Qed.

Lemma visitInv_mentioned st :
  visitInv g st → visiting st = ∅ → (∀ k, k ∈ JsMap.keys g → k ∈ visited st) →
  ∀ x, x ∈ sorted st ↔ mentioned g x.
Proof.
  intros Hinv Hving Hkeys x. split.
  - intros Hx. apply (vi_univ g st Hinv). apply (vi_sorted g st Hinv) in Hx. set_solver.
  - intros [Hx|[u Hu]]; apply (vi_sorted g st Hinv); [by apply Hkeys|].
    pose proof (vi_closed g st Hinv u x (Hkeys u (edge_key g u x Hu)) Hu). set_solver.
Qed.

End FirstPassResult.

Lemma processStep_refl s : processStep s s.
Proof. by unfold processStep. Qed.

Lemma processStep_trans s1 s2 s3 : processStep s1 s2 → processStep s2 s3 → processStep s1 s3.
Proof. unfold processStep. set_solver. Qed.

Section SecondPass.
Context (g : Graph) (cyc : gset string) (L : list string).
Context (HL : orderOk g cyc L).

Lemma processInv_init : processInv g cyc L initProcess.
Proof.
  split; simpl.
  - set_solver.
  - set_solver.
  - intros l1 u l2 Heq. by destruct l1.
  - constructor.
Qed.

Lemma depsFirst_snoc out x :
  depsFirst g cyc out →
  (x ∉ cyc → ∀ w, edge g x w → w ∈ out) →
  depsFirst g cyc (out ++ [x]).
Proof.
  intros Hout Hx l1 u l2 Heq Hu w Hw.
  destruct l2 as [|y l2 _] using rev_ind.
  - apply app_inj_tail in Heq as [-> ->]. by apply Hx.
  - rewrite app_comm_cons, (assoc_L (++)) in Heq.
    apply app_inj_tail in Heq as [-> ->]. by eapply Hout.
Qed.

(** Emitting a node that is not yet processed. *)
Lemma processInv_emit ps x :
  processInv g cyc L ps → x ∈ L →
  (noSelfDependency g → x ∉ processed ps) →
  (x ∉ cyc → ∀ w, edge g x w → w ∈ processed ps) →
  processInv g cyc L (emit x ps).
Proof.
  intros [] HxL Hx Hdeps. split; simpl.
  - intros y. rewrite elem_of_app, list_elem_of_singleton, pi_processed0. set_solver.
  - intros y [?| ->%elem_of_singleton]%elem_of_union; auto.
  - apply depsFirst_snoc; [done|]. intros Hc w Hw. apply pi_processed0. auto.
  - intros Hself. apply NoDup_app. split_and!; [auto | | apply NoDup_singleton].
    intros y Hy ->%list_elem_of_singleton. by apply Hx, pi_processed0.
Qed.

Lemma emitCyclic_spec deps : ∀ ps,
  processInv g cyc L ps → (∀ d, d ∈ deps → d ∈ L) →
  processInv g cyc L (emitCyclic cyc deps ps) ∧
  ∀ x, x ∈ processed (emitCyclic cyc deps ps) ↔
       x ∈ processed ps ∨ (x ∈ deps ∧ x ∈ cyc).
Proof.
  unfold emitCyclic.
  induction deps as [|d deps IH]; intros ps Hinv Hdeps; simpl.
  { split; [done|]. set_solver. }
  case_decide as Hd.
  - destruct (IH (emit d ps)) as [Hinv' Hpr].
    + apply processInv_emit; [done | apply Hdeps; by left | tauto | tauto].
    + intros d' Hd'. apply Hdeps. by right.
    + split; [done|]. intros x. rewrite Hpr. simpl. set_solver.
  - destruct (IH ps) as [Hinv' Hpr]; [done | |].
    + intros d' Hd'. apply Hdeps. by right.
    + split; [done|]. intros x. rewrite Hpr.
      destruct (decide (d ∈ cyc)); [|set_solver].
      assert (d ∈ processed ps) by (destruct (decide (d ∈ processed ps)); tauto).
      set_solver.
Qed.

(** [processNode] returns when its fuel covers the nodes from the
    position of [n] in [L] to the end: it only recurses into unmarked
    dependencies, which lie further right. Whatever it emits besides [n]
    lies right of [n] or is a marked dependency of [n]. *)
Lemma processNode_spec fuel : ∀ n i ps,
  L !! i = Some n → length L ≤ fuel + i →
  processInv g cyc L ps →
  ∃ ps', processNode fuel g cyc n ps = Some ps' ∧
    processInv g cyc L ps' ∧ processStep ps ps' ∧
    n ∈ processed ps' ∧
    ∀ x, x ∈ processed ps' →
      x ∈ processed ps ∨ x = n ∨ before L n x ∨ (x ∈ cyc ∧ edge g n x).
Proof.
  induction fuel as [|fuel IH]; intros n i ps Hi Hfuel Hinv.
  { apply lookup_lt_Some in Hi. lia. }
  simpl. case_decide as Hn.
  { exists ps. split_and!; auto using processStep_refl. }
  assert (n ∈ L) as HnL by eauto using list_elem_of_lookup_2.
  destruct (forOf_inv
    (λ dep s, if decide (dep ∈ cyc) then Some s else processNode fuel g cyc dep s)
    (λ s, processInv g cyc L s ∧
          ∀ x, x ∈ processed s → x ∈ processed ps ∨ before L n x)
    processStep
    (λ dep s, dep ∈ cyc ∨ dep ∈ processed s)
    (dependenciesOf g n))
    with (s := ps) as (ps1 & -> & [Hinv1 Hnew1] & Hstep1 & Hdeps).
  - apply processStep_refl.
  - apply processStep_trans.
  - intros x s s' Hs [?|?]; [by left|right]. by apply Hs.
  - intros d s Hd [Hinv' Hnew']. case_decide as Hc.
    { exists s. split_and!; auto using processStep_refl. }
    assert (before L n d) as Hnd.
    { destruct (oo_edges g cyc L HL n d HnL Hd) as [?|[_ ?]]; done. }
    destruct Hnd as (i' & j & Hi' & Hj & Hlt).
    assert (i' = i) as -> by eauto using NoDup_lookup, oo_nodup.
    destruct (IH d j s) as (s' & Hs' & Hinv'' & Hstep'' & Hdone & Hnew''); [done|lia|done|].
    exists s'. split_and!; try done; [|by right].
    intros x Hx. destruct (Hnew'' x Hx) as [Hold| [-> | [Hb | [Hxc Hdx]]]].
    + by apply Hnew'.
    + right. by exists i, j.
    + right. eapply before_trans; [by eapply oo_nodup | by exists i, j | done].
    + right. eapply before_trans; [by eapply oo_nodup | by exists i, j |].
      destruct (oo_edges g cyc L HL d x) as [?|[? _]]; [|done..].
      by eapply list_elem_of_lookup_2.
  - split; [done | by left].
  - destruct (emitCyclic_spec (dependenciesOf g n) ps1) as [Hinv2 Hpr2]; [done | |].
    { intros d Hd. by eapply oo_closed. }
    eexists. split; [done|]. split_and!.
    + apply processInv_emit; [done..| |].
      * intros Hself. rewrite Hpr2. intros [Hx|[Hx _]].
        -- destruct (Hnew1 n Hx) as [?|Hb]; [done|].
           by eapply before_irrefl; [eapply oo_nodup|].
        -- by eapply Hself.
      * intros Hc w Hw. apply Hpr2. destruct (Hdeps w Hw); auto.
    + intros x Hx. simpl. apply elem_of_union_l, Hpr2. left. by apply Hstep1.
    + simpl. set_solver.
    + simpl. intros x [Hx| ->%elem_of_singleton]%elem_of_union; [|by auto].
      apply Hpr2 in Hx as [Hx|[Hx Hc]].
      * destruct (Hnew1 x Hx); auto.
      * auto.
Qed.

End SecondPass.

Section SecondPassResult.
Context (g : Graph) (cyc : gset string) (L : list string).
Context (HL : orderOk g cyc L).

Lemma secondPass_spec :
  ∃ ps, secondPass (S (length L)) g cyc L = Some ps ∧
    processInv g cyc L ps ∧ ∀ x, x ∈ L → x ∈ processed ps.
Proof.
  unfold secondPass.
  destruct (forOf_inv (processNode (S (length L)) g cyc)
    (processInv g cyc L) processStep (λ n s, n ∈ processed s) L)
    with (s := initProcess) as (ps & -> & Hinv & _ & Hall).
  - apply processStep_refl.
  - apply processStep_trans.
  - intros x s s' Hs Hx. by apply Hs.
  - intros n s [i Hi]%list_elem_of_lookup_1 Hinv.
    destruct (processNode_spec g cyc L HL (S (length L)) n i s)
      as (s' & Hs' & Hinv' & Hstep' & Hn & _); [done | lia | done |].
    exists s'. by split_and!.
  - by apply processInv_init.
  - by exists ps.
Qed.
End SecondPassResult.

Section Sorter.
Context (g : Graph).

(** The sorter returns; its result lists exactly the names the graph
    mentions; every unmarked node comes after all its dependencies, and
    a node is marked only if a cycle is reachable from it. *)
Lemma sortSchemasByDependency_spec :
  ∃ out cyc, sortSchemasByDependency g = Some out ∧
    (∀ x, x ∈ out ↔ mentioned g x) ∧
    (∀ x, x ∈ cyc → reachesCycle g x) ∧
    depsFirst g cyc out ∧
    (noSelfDependency g → NoDup out).
Proof.
  unfold sortSchemasByDependency.
  destruct (firstPass_spec g) as (st & -> & Hinv & Hving & Hkeys).
  pose proof (visitInv_orderOk g st Hinv Hving) as HL.
  destruct (secondPass_spec g (cycles st) (sorted st) HL) as (ps & -> & Hpinv & Hall).
  exists (finalSorted ps), (cycles st). split_and!.
  - done.
  - intros x. rewrite <-(visitInv_mentioned g st Hinv Hving Hkeys).
    rewrite (pi_processed _ _ _ _ Hpinv).
    split; [apply (pi_sub _ _ _ _ Hpinv) | apply Hall].
  - apply (vi_cycles _ _ Hinv).
  - apply (pi_deps _ _ _ _ Hpinv).
  - apply (pi_nodup _ _ _ _ Hpinv).
Qed.

Lemma sortSchemasByDependency_returns : is_Some (sortSchemasByDependency g).
Proof. destruct sortSchemasByDependency_spec as (out & _ & -> & _). by eexists. Qed.

Lemma indexOf_split x (l : list string) j :
  indexOf x l = Some j → ∃ l1 l2, l = l1 ++ x :: l2 ∧ length l1 = j ∧ x ∉ l1.
Proof.
  revert j. induction l as [|y l IH]; intros j; simpl; [done|].
  case_decide as Hy.
  - intros [= <-]. subst. exists [], l. split_and!; [done..|]. by apply not_elem_of_nil.
  - destruct (indexOf x l) as [k|] eqn:Hk; simpl; [|done].
    intros [= <-]. destruct (IH k eq_refl) as (l1 & l2 & -> & <- & Hx).
    exists (y :: l1), l2. split_and!; [done..|].
    apply not_elem_of_cons. split; [congruence | done].
Qed.

Lemma precedes_split (l1 l2 : list string) a b :
  a ∉ l1 → b ∈ l1 → precedes (l1 ++ a :: l2) b a.
Proof.
  intros Ha Hb. destruct (indexOf_elem b l1 Hb) as [i Hi].
  exists i, (length l1). split_and!.
  - by apply indexOf_app_l.
  - rewrite indexOf_app_r by done. simpl. rewrite decide_True by done.
    simpl. f_equal. lia.
  - by eapply indexOf_lt_length.
Qed.
End Sorter.

(** C1, as the code has it. When every dependency is a declared schema name
    and no schema depends directly on itself, the sorter returns a list that
    is a permutation of the declared names: as many names as the graph has
    keys, each declared name once and no other name. *)
Theorem sortSchemasByDependency_permutation (g : Graph) :
  NoDup (JsMap.keys g) → closedGraph g → noSelfDependency g →
  ∃ out, sortSchemasByDependency g = Some out ∧
    out ≡ₚ JsMap.keys g ∧ length out = length (JsMap.keys g).
Proof.
  intros Hkeys Hclosed Hself.
  destruct (sortSchemasByDependency_spec g) as (out & cyc & Hout & Hm & _ & _ & Hnd).
  assert (out ≡ₚ JsMap.keys g) as Hperm.
  { apply NoDup_Permutation; [by apply Hnd | done |].
    intros x. rewrite Hm. split; [|by left].
    intros [Hx|[u Hu]]; [done | by eapply Hclosed]. }
  exists out. split_and!; [done..|]. by rewrite Hperm.
Qed.

Lemma graphChain_closed : closedGraph graphChain.
Proof. intros a b H. edge_cases H. compute. set_solver. Qed.

Lemma graphChain_noSelf : noSelfDependency graphChain.
Proof. intros a H. edge_cases H. Qed.

Lemma graphChain_keys : NoDup (JsMap.keys graphChain).
Proof. compute. apply NoDup_ListNoDup. repeat constructor; set_solver. Qed.

(** [sortSchemasByDependency_permutation] on the chain [A -> B]. *)
Lemma sortSchemasByDependency_permutation_witness :
  ∃ out, sortSchemasByDependency graphChain = Some out ∧
    out ≡ₚ JsMap.keys graphChain ∧ length out = length (JsMap.keys graphChain).
Proof.
  apply (sortSchemasByDependency_permutation graphChain).
  - apply graphChain_keys.
  - apply graphChain_closed.
  - apply graphChain_noSelf.
Defined.

(** C1 as stated fails on a dangling reference: the one declared schema [A]
    refers to an undeclared [B], and the sorter returns two names. It fails
    also on a schema that refers to itself, which is returned twice. *)
Lemma sortSchemasByDependency_not_permutation :
  NoDup (JsMap.keys graphDangling) ∧
  sortSchemasByDependency graphDangling = Some ["B"; "A"] ∧
  ("B" ∉ JsMap.keys graphDangling) ∧
  length ["B"; "A"] ≠ length (JsMap.keys graphDangling) ∧
  sortSchemasByDependency graphSelf = Some ["Node"; "Node"].
Proof.
  split_and!.
  - apply NoDup_singleton.
  - by vm_compute.
  - by intros ?%list_elem_of_singleton.
  - simpl. lia.
  - by vm_compute.
Qed.


Lemma tc_first {A} (R : relation A) x z : tc R x z → ∃ y, R x y ∧ rtc R y z.
Proof.
  intros H. inversion H as [|? y ? Hy Hrest]; subst.
  - by exists z.
  - exists y. split; [done | by apply tc_rtc].
Qed.





(** * Sorting and the store of arrays *)

Section Sort.
Import JsString.

Lemma compare_le_trans a b c :
  String.compare a b ≠ Gt → String.compare b c ≠ Gt → String.compare a c ≠ Gt.
Proof.
  revert b c. induction a as [|x a IH]; intros [|y b] [|z c]; simpl; try done.
  unfold Ascii.compare.
  destruct (N.compare_spec (N_of_ascii x) (N_of_ascii y)) as [Hxy|Hxy|Hxy];
    destruct (N.compare_spec (N_of_ascii y) (N_of_ascii z)) as [Hyz|Hyz|Hyz];
    destruct (N.compare_spec (N_of_ascii x) (N_of_ascii z)) as [Hxz|Hxz|Hxz];
    try done; try lia.
  apply IH.
Qed.

Global Instance codeUnitLe_trans : Transitive codeUnitLe.
Proof.
  intros a b c. unfold codeUnitLe, String.leb.
  pose proof (compare_le_trans a b c).
  destruct (String.compare a b), (String.compare b c), (String.compare a c);
    naive_solver.
Qed.

Global Instance codeUnitLe_total : Total codeUnitLe.
Proof. intros a b. apply String.leb_total. Qed.

Global Instance codeUnitLe_antisym : AntiSymm (=) codeUnitLe.
Proof. intros a b. apply String.leb_antisym. Qed.

(** Sorting forgets the order of the values. *)
Lemma sort_permutation l1 l2 : l1 ≡ₚ l2 → sort l1 = sort l2.
Proof.
  intros Hperm. apply (Sorted_unique codeUnitLe); [apply Sorted_merge_sort, _..|].
  unfold sort. by rewrite !merge_sort_Permutation.
Qed.

Lemma sort_idempotent l : sort (sort l) = sort l.
Proof. apply sort_permutation, merge_sort_Permutation. Qed.

Lemma sort_nil : sort [] = [].
Proof. done. Qed.
End Sort.

Section ArraysFacts.
Implicit Types (h : Arrays.t) (loc : nat).

(** The contents of an array once sorted: what [sortInPlace] leaves
    unchanged at every location. *)
Lemma read_sortInPlace_sorted h loc loc' :
  JsString.sort (Arrays.read (Arrays.sortInPlace h loc') loc)
  = JsString.sort (Arrays.read h loc).
Proof.
  unfold Arrays.sortInPlace, Arrays.read.
  destruct (decide (loc = loc')) as [->|Hne].
  - destruct (h !! loc') as [l|] eqn:Hl.
    + rewrite list_lookup_insert_eq by (by eapply lookup_lt_Some). simpl.
      apply sort_idempotent.
    + rewrite list_insert_ge by (by apply lookup_ge_None). by rewrite Hl.
  - by rewrite list_lookup_insert_ne.
Qed.

Lemma read_sortInPlace_eq h loc :
  Arrays.read (Arrays.sortInPlace h loc) loc = JsString.sort (Arrays.read h loc).
Proof.
  unfold Arrays.sortInPlace, Arrays.read.
  destruct (h !! loc) as [l|] eqn:Hl.
  - by rewrite list_lookup_insert_eq by (by eapply lookup_lt_Some).
  - rewrite list_insert_ge by (by apply lookup_ge_None). by rewrite Hl.
Qed.
End ArraysFacts.

(** * The enum registry *)

Lemma gen_bind_eq {A B} (m : Gen A) (f : A → Gen B) st x st' :
  m st = Some (x, st') → (m ≫= f) st = f x st'.
Proof. intros H. unfold mbind, gen_bind. by rewrite H. Qed.

Lemma gen_bind_getState {B} (f : GenState → Gen B) st : (getState ≫= f) st = f st st.
Proof. done. Qed.

Lemma gen_bind_None {A B} (m : Gen A) (f : A → Gen B) st :
  m st = None → (m ≫= f) st = None.
Proof. intros H. unfold mbind, gen_bind. by rewrite H. Qed.

Section EnumRegistry.
Context (randomToken : nat → string).
Implicit Types (st : GenState) (h : Arrays.t) (loc : nat).

Lemma sortedOnly_refl st : sortedOnly st st.
Proof. by unfold sortedOnly. Qed.

Lemma sortedOnly_trans st1 st2 st3 :
  sortedOnly st1 st2 → sortedOnly st2 st3 → sortedOnly st1 st3.
Proof.
  intros (?&?&?&?&?&Hk1) (?&?&?&?&?&Hk2).
  split_and!; [congruence..|]. intros loc. by rewrite Hk2.
Qed.

Lemma enumKey_sortInPlace h loc loc' :
  enumKey (Arrays.sortInPlace h loc') loc = enumKey h loc.
Proof. unfold enumKey. by rewrite read_sortInPlace_sorted. Qed.

(** Equal values in any order have the same key. *)
Lemma enumKey_permutation h loc1 loc2 :
  Arrays.read h loc1 ≡ₚ Arrays.read h loc2 → enumKey h loc1 = enumKey h loc2.
Proof. intros Hp. unfold enumKey. by rewrite (sort_permutation _ _ Hp). Qed.

Lemma sortedKey_spec st loc :
  ∃ st', sortedKey loc st = Some (enumKey (arrays st) loc, st') ∧ sortedOnly st st'.
Proof.
  eexists. split.
  - unfold sortedKey. gen_unfold. simpl. by rewrite read_sortInPlace_eq.
  - split_and!; simpl; try done. intros loc'. apply enumKey_sortInPlace.
Qed.

Lemma firstWithKey_ext h h' k entries :
  (∀ loc, enumKey h' loc = enumKey h loc) →
  firstWithKey h' k entries = firstWithKey h k entries.
Proof.
  intros Hk. induction entries as [|[n loc] entries IH]; simpl; [done|].
  by rewrite Hk, IH.
Qed.

(** The search returns the first entry with the key, and only sorts. *)
Lemma findEnum_spec k entries : ∀ st,
  ∃ st', findEnum k entries st = Some (firstWithKey (arrays st) k entries, st')
         ∧ sortedOnly st st'.
Proof.
  induction entries as [|[n loc] entries IH]; intros st; simpl.
  { exists st. split; [done | apply sortedOnly_refl]. }
  destruct (sortedKey_spec st loc) as (st1 & Hkey & Hst1).
  rewrite (gen_bind_eq _ _ _ _ _ Hkey). case_decide as Hk.
  - exists st1. split; [done|]. done.
  - destruct (IH st1) as (st2 & Hfind & Hst2). exists st2. rewrite Hfind. split.
    + do 2 f_equal. apply firstWithKey_ext. apply Hst1.
    + by eapply sortedOnly_trans.
Qed.

(** Registering [n] for an array with a key that no entry has makes [n]
    the first entry with that key. *)
Lemma firstWithKey_set h k n loc entries :
  firstWithKey h k entries = None → enumKey h loc = k →
  firstWithKey h k (JsMap.set n loc entries) = Some n.
Proof.
  intros Hnone Hk. induction entries as [|[n' loc'] entries IH]; simpl in *.
  - by rewrite decide_True.
  - case_decide; [done|]. case_decide; simpl.
    + by rewrite decide_True.
    + rewrite decide_False by done. by apply IH.
Qed.

(** After a request, the name returned is the first entry with the key of
    the requested values. *)
Lemma getEnumNameFromProperty_spec propertyName loc context st :
  ∃ n st', getEnumNameFromProperty randomToken propertyName loc context st = Some (n, st') ∧
    (∀ loc', enumKey (arrays st') loc' = enumKey (arrays st) loc') ∧
    firstWithKey (arrays st') (enumKey (arrays st) loc) (usedEnums st') = Some n.
Proof.
  unfold getEnumNameFromProperty.
  destruct (sortedKey_spec st loc) as (st1 & Hkey & Hst1).
  rewrite (gen_bind_eq _ _ _ _ _ Hkey), gen_bind_getState.
  destruct (findEnum_spec (enumKey (arrays st) loc) (usedEnums st1) st1)
    as (st2 & Hfind & Hst2).
  rewrite (gen_bind_eq _ _ _ _ _ Hfind).
  pose proof (sortedOnly_trans _ _ _ Hst1 Hst2) as (_ & _ & Hue & _ & _ & Hkeys).
  destruct (firstWithKey (arrays st1) (enumKey (arrays st) loc) (usedEnums st1))
    as [existing|] eqn:Hfirst.
  { exists existing, st2. split_and!; [done..|].
    destruct Hst2 as (_ & _ & -> & _ & _ & Hk2).
    by rewrite (firstWithKey_ext _ _ _ _ Hk2). }
  assert (∀ n, firstWithKey (arrays st2) (enumKey (arrays st) loc)
                 (JsMap.set n loc (usedEnums st2)) = Some n) as Hset.
  { intros n. apply firstWithKey_set; [|apply Hkeys].
    destruct Hst2 as (_ & _ & -> & _ & _ & Hk2).
    by rewrite (firstWithKey_ext _ _ _ _ Hk2). }
  rewrite gen_bind_getState.
  destruct (negb _); [|destruct (firstFree _ _ _)]; gen_unfold; simpl; by eauto 10.
Qed.
End EnumRegistry.

(** Two requests to the enum registry, one directly after the other, for
    arrays that hold the same values in any order return the same name,
    whatever the state of the registry before them. *)
Lemma getEnumNameFromProperty_consecutive (randomToken : nat → string) (st : GenState)
    (property1 context1 property2 context2 : string) (loc1 loc2 : nat) :
  Arrays.read (arrays st) loc1 ≡ₚ Arrays.read (arrays st) loc2 →
  ∃ n st1 st2,
    getEnumNameFromProperty randomToken property1 loc1 context1 st = Some (n, st1) ∧
    getEnumNameFromProperty randomToken property2 loc2 context2 st1 = Some (n, st2).
Proof.
  intros Hperm.
  destruct (getEnumNameFromProperty_spec randomToken property1 loc1 context1 st)
    as (n & st1 & Hfirst & Hkeys1 & Hreg).
  exists n, st1.
  assert (enumKey (arrays st1) loc2 = enumKey (arrays st) loc1) as Hkey.
  { rewrite Hkeys1. symmetry. by apply enumKey_permutation. }
  (* the second request finds [n] *)
  unfold getEnumNameFromProperty.
  destruct (sortedKey_spec st1 loc2) as (st1' & Hk & Hst1').
  rewrite (gen_bind_eq _ _ _ _ _ Hk), gen_bind_getState.
  destruct (findEnum_spec (enumKey (arrays st1) loc2) (usedEnums st1') st1')
    as (st2 & Hfind & Hst2).
  rewrite (gen_bind_eq _ _ _ _ _ Hfind).
  destruct Hst1' as (_ & _ & Hue & _ & _ & Hk1').
  rewrite (firstWithKey_ext _ _ _ _ Hk1'), Hue, Hkey, Hreg.
  by exists st2.
Qed.

(** * The name registries *)

Section JsMapFacts.
Context {V : Type}.
Implicit Types (m : list (string * V)) (k : string) (v : V).

Lemma get_set_eq k v m : JsMap.get k (JsMap.set k v m) = Some v.
Proof.
  induction m as [|[k' v'] m IH]; simpl.
  - by rewrite decide_True.
  - case_decide; simpl; [by rewrite decide_True|]. by rewrite decide_False.
Qed.

Lemma get_set_ne k k' v m : k ≠ k' → JsMap.get k' (JsMap.set k v m) = JsMap.get k' m.
Proof.
  intros Hne. induction m as [|[k0 v0] m IH]; simpl.
  - by rewrite decide_False.
  - case_decide; simpl; subst.
    + by rewrite !decide_False.
    + case_decide; [done | apply IH].
Qed.

Lemma get_None_keys k m : JsMap.get k m = None ↔ k ∉ JsMap.keys m.
Proof.
  unfold JsMap.keys. induction m as [|[k' v'] m IH]; simpl.
  - split; [intros _; apply not_elem_of_nil | done].
  - rewrite not_elem_of_cons. case_decide; [naive_solver|]. rewrite IH. naive_solver.
Qed.

Lemma has_false k m : JsMap.has k m = false ↔ JsMap.get k m = None.
Proof.
  unfold JsMap.has. rewrite bool_decide_eq_false, <-eq_None_not_Some. done.
Qed.

Lemma keys_set k v m :
  JsMap.keys (JsMap.set k v m)
  = if decide (k ∈ JsMap.keys m) then JsMap.keys m else JsMap.keys m ++ [k].
Proof.
  unfold JsMap.keys. induction m as [|[k' v'] m IH]; [done|].
  cbn [JsMap.set]. rewrite fmap_cons. cbn [fst].
  destruct (decide (k' = k)) as [->|Hne].
  + rewrite decide_True; [done | by left].
  + rewrite fmap_cons, IH. cbn [fst]. destruct (decide (k ∈ m.*1)) as [Hin|Hin].
    * rewrite decide_True; [done | by right].
    * rewrite decide_False; [done|]. apply not_elem_of_cons. naive_solver.
Qed.

Lemma keys_set_NoDup k v m : NoDup (JsMap.keys m) → NoDup (JsMap.keys (JsMap.set k v m)).
Proof.
  intros Hnd. rewrite keys_set. case_decide; [done|].
  apply NoDup_app. split_and!; [done | | apply NoDup_singleton].
  intros x Hx ->%list_elem_of_singleton. done.
Qed.
End JsMapFacts.

Section Ladder.
Lemma firstFree_free base suffixes used n :
  firstFree base suffixes used = Some n → used n = false.
Proof.
  induction suffixes as [|s suffixes IH]; simpl; [done|].
  destruct (used (base +:+ s)) eqn:Hu; [done|]. by intros [= <-].
Qed.
End Ladder.

#[local] Arguments firstFree : simpl never.

Section RegistrySteps.
Context (randomToken : nat → string) (h : Arrays.t).
Implicit Types (st : GenState) (r : Request).

Lemma registryStep_refl st : registryStep st st.
Proof. unfold registryStep. naive_solver. Qed.

Lemma registryStep_trans st1 st2 st3 :
  registryStep st1 st2 → registryStep st2 st3 → registryStep st1 st3.
Proof.
  intros (Hu1 & Hc1 & Hn1 & He1) (Hu2 & Hc2 & Hn2 & He2). split_and!.
  - set_solver.
  - naive_solver.
  - intros k n Hk. destruct (Hn2 k n Hk) as [Hk'|Hk']; [by apply Hn1|].
    right. set_solver.
  - naive_solver.
Qed.

Lemma consistent_init : consistent h (initGen h).
Proof.
  split; simpl; try done.
  constructor.
Qed.

(** What is recorded stays recorded. *)
Lemma recorded_step st st' r n :
  recorded h st r n → registryStep st st' → recorded h st' r n.
Proof.
  intros Hrec (Hu & Hc & Hn & He). destruct r as [k|id code|p loc c]; simpl in *.
  - by apply Hc.
  - destruct Hrec as [Hin Hfree]. split; [set_solver|].
    intros k Hk. destruct (Hn k n Hk) as [Hk'|Hk']; [by eapply Hfree | done].
  - destruct Hrec as (l & Hl & Hkey). exists l. split; [by apply He | done].
Qed.

(** What two recorded requests imply about their answers. *)
Lemma related_recorded st i j ri rj ni nj :
  consistent h st → recorded h st ri ni → recorded h st rj nj →
  (∀ id1 c1 id2 c2, ri = OperationRequest id1 c1 → rj = OperationRequest id2 c2 →
     (ni = nj ↔ i = j)) →
  related h i j ri rj ni nj.
Proof.
  intros Hco Hi Hj Hop.
  destruct ri as [k1|id1 c1|p1 l1 x1], rj as [k2|id2 c2|p2 l2 x2]; simpl in *; try done.
  - split; [intros ->; by eapply co_inj | intros ->; congruence].
  - destruct Hj as [_ Hfree]. intros ->. by eapply Hfree.
  - destruct Hi as [_ Hfree]. intros <-. by eapply Hfree.
  - by eapply Hop.
  - destruct Hi as (l & Hl & Hk), Hj as (l' & Hl' & Hk'). split.
    + intros ->. congruence.
    + intros Heq. eapply (co_enums h st Hco); [done..|congruence].
Qed.

(** Allocating an unused class name to a schema that has none. *)
Lemma allocate_schema st k n calls :
  consistent h st → schemaToClassName st !! k = None → n ∉ usedNames st →
  let st' := mkGen (<[k := n]> (schemaToClassName st)) (usedNames st ∪ {[n]})
                   (usedEnums st) (classMap st) (arrays st) calls in
  consistent h st' ∧ registryStep st st' ∧ recorded h st' (SchemaRequest k) n.
Proof.
  intros [] Hk Hn st'. split_and!.
  - split; simpl; try done.
    + intros k' n'. rewrite lookup_insert. case_decide; [set_solver|].
      intros Hk'. apply elem_of_union_l. by eapply co_used0.
    + intros k1 k2 n'. rewrite !lookup_insert.
      repeat case_decide; simplify_eq; try done.
      * intros [= <-] Hk2. destruct Hn. by eapply co_used0.
      * intros Hk1 [= ->]. destruct Hn. by eapply co_used0.
      * by apply co_inj0.
  - split_and!; simpl; [set_solver | | | done].
    + intros k' n' Hk'. rewrite lookup_insert_ne; [done | congruence].
    + intros k' n'. rewrite lookup_insert. case_decide; [|by left].
      intros [= <-]. by right.
  - simpl. by rewrite lookup_insert_eq.
Qed.

(** Allocating an unused class name to an operation response. *)
Lemma allocate_operation st id code n calls :
  consistent h st → n ∉ usedNames st →
  let st' := mkGen (schemaToClassName st) (usedNames st ∪ {[n]})
                   (usedEnums st) (classMap st) (arrays st) calls in
  consistent h st' ∧ registryStep st st' ∧ recorded h st' (OperationRequest id code) n.
Proof.
  intros [] Hn st'. split_and!.
  - split; simpl; try done. intros k' n' Hk'. apply elem_of_union_l. by eapply co_used0.
  - split_and!; simpl; [set_solver | done | by left | done].
  - simpl. split; [set_solver|]. intros k Hk. destruct Hn. by eapply co_used0.
Qed.

Lemma serve_schema st k :
  consistent h st → tokenFresh randomToken (SchemaRequest k) st = true →
  ∃ n st', getClassNameFromSchemaName randomToken k st = Some (n, st') ∧
    consistent h st' ∧ registryStep st st' ∧ recorded h st' (SchemaRequest k) n.
Proof.
  intros Hco Hfresh. unfold getClassNameFromSchemaName.
  rewrite gen_bind_getState.
  destruct (schemaToClassName st !! k) as [n|] eqn:Hk.
  { exists n, st. split_and!; [done | done | apply registryStep_refl | done]. }
  simpl in Hfresh. apply bool_decide_eq_true in Hfresh.
  repeat case_decide.
  - gen_unfold; simpl. eexists _, _. split; [done|]. by apply allocate_schema.
  - gen_unfold; simpl. eexists _, _. split; [done|]. by apply allocate_schema.
  - destruct (firstFree _ _ _) as [n|] eqn:Hfree.
    + gen_unfold; simpl. eexists _, _. split; [done|]. apply allocate_schema; [done..|].
      apply firstFree_free in Hfree. by apply bool_decide_eq_false in Hfree.
    + gen_unfold; simpl. eexists _, _. split; [done|]. by apply allocate_schema.
Qed.

Lemma serve_operation st id code :
  consistent h st → tokenFresh randomToken (OperationRequest id code) st = true →
  ∃ n st', getClassNameFromOperationId randomToken id code st = Some (n, st') ∧
    consistent h st' ∧ registryStep st st' ∧
    recorded h st' (OperationRequest id code) n ∧ n ∉ usedNames st.
Proof.
  intros Hco Hfresh. unfold getClassNameFromOperationId.
  rewrite gen_bind_getState.
  simpl in Hfresh. apply bool_decide_eq_true in Hfresh.
  case_decide.
  - gen_unfold; simpl. eexists _, _. split; [done|].
    split_and!; [by apply allocate_operation.. | done].
  - destruct (firstFree _ _ _) as [n|] eqn:Hfree.
    + apply firstFree_free in Hfree. apply bool_decide_eq_false in Hfree.
      gen_unfold; simpl. eexists _, _. split; [done|].
      split_and!; [by apply allocate_operation.. | done].
    + gen_unfold; simpl. eexists _, _. split; [done|].
      split_and!; [by apply allocate_operation.. | done].
Qed.
End RegistrySteps.

Section EnumSteps.
Context (randomToken : nat → string) (h : Arrays.t).
Implicit Types (st : GenState) (entries : list (string * nat)).

Lemma firstWithKey_get h' k entries n :
  NoDup (JsMap.keys entries) → firstWithKey h' k entries = Some n →
  ∃ loc, JsMap.get n entries = Some loc ∧ enumKey h' loc = k.
Proof.
  unfold JsMap.keys. induction entries as [|[n' loc'] entries IH]; [done|].
  rewrite fmap_cons, NoDup_cons. cbn [fst]. intros [Hn' Hnd]. simpl.
  case_decide as Hk.
  - intros [= ->]. exists loc'. by rewrite decide_True.
  - intros Hfirst. destruct (IH Hnd Hfirst) as (loc & Hget & Hkey).
    exists loc. split; [|done]. rewrite decide_False; [done|].
    intros ->. apply Hn'. apply get_elem in Hget.
    apply list_elem_of_fmap. by exists (n, loc).
Qed.

Lemma firstWithKey_None_get h' k entries n loc :
  firstWithKey h' k entries = None → JsMap.get n entries = Some loc → enumKey h' loc ≠ k.
Proof.
  induction entries as [|[n' loc'] entries IH]; simpl; [done|].
  case_decide as Hk; [done|]. intros Hnone. case_decide; [|by apply IH].
  by intros [= <-].
Qed.

(** The request found a registered array with the same key. *)
Lemma enum_found st n p loc c h' :
  consistent h st → (∀ l, enumKey h' l = enumKey h l) →
  firstWithKey h (enumKey h loc) (usedEnums st) = Some n →
  let st' := mkGen (schemaToClassName st) (usedNames st) (usedEnums st) (classMap st)
                   h' (randomCalls st) in
  consistent h st' ∧ registryStep st st' ∧ recorded h st' (EnumRequest p loc c) n.
Proof.
  intros [] Hkeys Hfirst st'. split_and!.
  - by split.
  - unfold registryStep. simpl. naive_solver.
  - simpl. by apply firstWithKey_get.
Qed.

(** The request registered its array under a name that was free. *)
Lemma enum_allocated st n p loc c h' calls :
  consistent h st → (∀ l, enumKey h' l = enumKey h l) →
  firstWithKey h (enumKey h loc) (usedEnums st) = None →
  JsMap.has n (usedEnums st) = false →
  let st' := mkGen (schemaToClassName st) (usedNames st) (JsMap.set n loc (usedEnums st))
                   (classMap st) h' calls in
  consistent h st' ∧ registryStep st st' ∧ recorded h st' (EnumRequest p loc c) n.
Proof.
  intros [] Hkeys Hnone Hfree%has_false st'. split_and!.
  - split; simpl; try done.
    + intros n1 n2 l1 l2.
      destruct (decide (n = n1)) as [<-|Hn1], (decide (n = n2)) as [<-|Hn2]; try done.
      * rewrite get_set_eq, get_set_ne by done. intros [= <-] Hl2 Heq.
        by destruct (firstWithKey_None_get _ _ _ _ _ Hnone Hl2).
      * rewrite get_set_eq, get_set_ne by done. intros Hl1 [= <-] Heq.
        by destruct (firstWithKey_None_get _ _ _ _ _ Hnone Hl1).
      * rewrite !get_set_ne by done. apply co_enums0.
    + by apply keys_set_NoDup.
  - unfold registryStep. simpl. split_and!; [done | done | by left |].
    intros n' l Hn'. rewrite get_set_ne; [done|]. congruence.
  - simpl. exists loc. by rewrite get_set_eq.
Qed.

Lemma serve_enum st p loc c :
  consistent h st → tokenFresh randomToken (EnumRequest p loc c) st = true →
  ∃ n st', getEnumNameFromProperty randomToken p loc c st = Some (n, st') ∧
    consistent h st' ∧ registryStep st st' ∧ recorded h st' (EnumRequest p loc c) n.
Proof.
  intros Hco Hfresh. unfold getEnumNameFromProperty.
  destruct (sortedKey_spec st loc) as (st1 & Hkey & Hst1).
  rewrite (gen_bind_eq _ _ _ _ _ Hkey), gen_bind_getState.
  destruct (findEnum_spec (enumKey (arrays st) loc) (usedEnums st1) st1)
    as (st2 & Hfind & Hst2).
  rewrite (gen_bind_eq _ _ _ _ _ Hfind).
  assert (∀ l, enumKey (arrays st1) l = enumKey h l) as Hk1.
  { intros l. destruct Hst1 as (_ & _ & _ & _ & _ & ->). apply Hco. }
  rewrite (firstWithKey_ext h _ _ _ Hk1).
  pose proof (sortedOnly_trans _ _ _ Hst1 Hst2) as (Hc & Hu & He & Hm & Hr & Hk2).
  destruct Hst1 as (_ & _ & -> & _ & _ & _).
  rewrite (co_keys h st Hco).
  assert (∀ l, enumKey (arrays st2) l = enumKey h l) as Hkeys.
  { intros l. rewrite Hk2. apply Hco. }
  simpl in Hfresh.
  destruct st2 as [c2 u2 e2 m2 a2 r2]. simpl in *. subst.
  destruct (firstWithKey h (enumKey h loc) (usedEnums st)) as [n|] eqn:Hfirst.
  { eexists _, _. split; [done|]. by eapply (enum_found _ _ p loc c). }
  rewrite gen_bind_getState. simpl.
  apply negb_true_iff in Hfresh.
  destruct (JsMap.has (enumBaseName p c) (usedEnums st)) eqn:Hbase; simpl; cycle 1.
  { gen_unfold. simpl.
    eexists _, _. split; [done|]. by eapply (enum_allocated _ _ p loc c). }
  destruct (firstFree _ _ _) as [n|] eqn:Hfree.
  - apply firstFree_free in Hfree. gen_unfold. simpl.
    eexists _, _. split; [done|]. by eapply (enum_allocated _ _ p loc c).
  - gen_unfold. simpl.
    eexists _, _. split; [done|]. by eapply (enum_allocated _ _ p loc c).
Qed.
End EnumSteps.

Section Runs.
Context (randomToken : nat → string) (h : Arrays.t).
Implicit Types (st : GenState) (r : Request).

(** A request returns, keeps the registries consistent and is recorded. *)
Lemma serve_spec st r :
  consistent h st → tokenFresh randomToken r st = true →
  ∃ n st', serve randomToken r st = Some (n, st') ∧
    consistent h st' ∧ registryStep st st' ∧ recorded h st' r n ∧ newName st r n.
Proof.
  intros Hco Hfresh. destruct r as [k|id code|p loc c]; simpl.
  - destruct (serve_schema randomToken h st k) as (n & st' & ? & ? & ? & ?); [done..|].
    by exists n, st'.
  - destruct (serve_operation randomToken h st id code) as (n & st' & ? & ? & ? & ? & ?);
      [done..|].
    by exists n, st'.
  - destruct (serve_enum randomToken h st p loc c) as (n & st' & ? & ? & ? & ?); [done..|].
    by exists n, st'.
Qed.

Lemma newName_mono st st' r n : usedNames st ⊆ usedNames st' → newName st' r n → newName st r n.
Proof. destruct r; simpl; set_solver. Qed.

(** A sequence of requests: every answer is recorded at the end, and any
    two requests are related as [related] says. *)
Lemma serveAll_spec rs : ∀ st,
  consistent h st → tokensFresh randomToken rs st = true →
  ∃ names st', serveAll randomToken rs st = Some (names, st') ∧
    consistent h st' ∧ registryStep st st' ∧
    Forall2 (recorded h st') rs names ∧
    Forall2 (newName st) rs names ∧
    ∀ i j ri rj ni nj,
      rs !! i = Some ri → rs !! j = Some rj →
      names !! i = Some ni → names !! j = Some nj →
      related h i j ri rj ni nj.
Proof.
  induction rs as [|r rs IH]; intros st Hco Hfresh.
  { exists [], st. split_and!; [done | done | apply registryStep_refl | constructor..|].
    intros i j ri rj ni nj Hi. by rewrite lookup_nil in Hi. }
  simpl in Hfresh. apply andb_true_iff in Hfresh as [Hfresh1 Hfresh2].
  destruct (serve_spec st r Hco Hfresh1) as (n & st1 & Hserve & Hco1 & Hstep1 & Hrec1 & Hnew1).
  rewrite Hserve in Hfresh2.
  destruct (IH st1 Hco1 Hfresh2)
    as (names & st' & Hall & Hco' & Hstep' & Hrec' & Hnew' & Hrel').
  exists (n :: names), st'.
  assert (recorded h st' r n) as Hrec by eauto using recorded_step.
  assert (∀ j rj nj, rs !! j = Some rj → names !! j = Some nj →
            recorded h st' rj nj ∧ newName st1 rj nj) as Hlater.
  { intros j rj nj Hj Hnj. split.
    - eapply Forall2_lookup_lr; [apply Hrec' | done..].
    - eapply Forall2_lookup_lr; [apply Hnew' | done..]. }
  split_and!.
  - simpl. rewrite (gen_bind_eq _ _ _ _ _ Hserve), (gen_bind_eq _ _ _ _ _ Hall). done.
  - done.
  - by eapply registryStep_trans.
  - by constructor.
  - constructor; [done|].
    eapply Forall2_impl; [done|]. intros r' n'. apply newName_mono. apply Hstep1.
  - intros [|i] [|j] ri rj ni nj Hi Hj Hni Hnj; simpl in *; simplify_eq.
    + eapply related_recorded; [done..|]. naive_solver.
    + destruct (Hlater j rj nj Hj Hnj) as [Hrj Hnewj].
      eapply related_recorded; [done..|].
      intros id1 c1 id2 c2 -> ->. simpl in *. split; [|done].
      intros ->. destruct Hnewj. apply Hrec1.
    + destruct (Hlater i ri ni Hi Hni) as [Hri Hnewi].
      eapply related_recorded; [done..|].
      intros id1 c1 id2 c2 -> ->. simpl in *. split; [|done].
      intros ->. destruct Hnewi. apply Hrec1.
    + specialize (Hrel' i j ri rj ni nj Hi Hj Hni Hnj).
      destruct ri, rj; simpl in *; try done. rewrite Hrel'. lia.
Qed.
End Runs.

(** C3, as the code has it. In a run in which the name that the last rung
    of the ladder would give is never in use: two requests for the class
    name of a schema get the same name exactly when they name the same
    schema; two requests for an enum name get the same name exactly when
    their values have the same canonical key; and a request for a response
    class gets a name of its own every time, which is the name of no other
    response and of no schema, also when the operation and the status code
    were requested before. *)
Theorem registries_related (randomToken : nat → string) (h : Arrays.t) (rs : list Request) :
  tokensFresh randomToken rs (initGen h) = true →
  ∃ names st', serveAll randomToken rs (initGen h) = Some (names, st') ∧
    length names = length rs ∧
    ∀ i j ri rj ni nj,
      rs !! i = Some ri → rs !! j = Some rj →
      names !! i = Some ni → names !! j = Some nj →
      related h i j ri rj ni nj.
Proof.
  intros Hfresh.
  destruct (serveAll_spec randomToken h rs (initGen h))
    as (names & st' & Hall & _ & _ & Hrec & _ & Hrel); [apply consistent_init | done |].
  exists names, st'. split_and!; [done | | done].
  symmetry. by eapply Forall2_length.
Qed.

(** C3 as stated fails for the responses of operations: the second request
    for the same operation and status code is answered with another name. *)
Lemma getClassNameFromOperationId_repeated :
  fst <$> serveAll noToken [OperationRequest "getPet" "200"; OperationRequest "getPet" "200"]
                   (initGen [])
  = Some ["GetPet200Response"; "GetPet200ResponseDetail"].
Proof. by vm_compute. Qed.

(** The answers to the sample requests: the schema and the enum keep their
    names, the response gets a second one. *)
Example sampleRequests_answers :
  fst <$> serveAll noToken sampleRequests (initGen [["a"; "b"]; ["b"; "a"]])
  = Some ["Pet"; "GetPet200Response"; "PetStatus"; "Pet"; "GetPet200ResponseDetail";
          "PetStatus"; "pet"].
Proof. by vm_compute. Qed.

(** [registries_related] on the sample requests. *)
Lemma registries_related_witness :
  ∃ names st',
    serveAll noToken sampleRequests (initGen [["a"; "b"]; ["b"; "a"]]) = Some (names, st') ∧
    length names = length sampleRequests ∧
    ∀ i j ri rj ni nj,
      sampleRequests !! i = Some ri → sampleRequests !! j = Some rj →
      names !! i = Some ni → names !! j = Some nj →
      related [["a"; "b"]; ["b"; "a"]] i j ri rj ni nj.
Proof.
  apply (registries_related noToken [["a"; "b"]; ["b"; "a"]] sampleRequests).
  vm_compute. reflexivity.
Defined.

(** C6, as the code has it. In a run in which the name that the last rung
    of the ladder would give is never in use, any two requests to the enum
    registry for arrays that hold the same values, each as often, in any
    order are answered with the same name, whatever the property names and
    the contexts of the two requests and whatever requests are served before
    them, between them and after them (the top-level enums that [getEnums]
    collects are not in the registry). *)
Theorem getEnumNameFromProperty_same_values (randomToken : nat → string) (h : Arrays.t)
    (rs : list Request) (i j : nat)
    (property1 context1 property2 context2 : string) (loc1 loc2 : nat) :
  tokensFresh randomToken rs (initGen h) = true →
  rs !! i = Some (EnumRequest property1 loc1 context1) →
  rs !! j = Some (EnumRequest property2 loc2 context2) →
  Arrays.read h loc1 ≡ₚ Arrays.read h loc2 →
  ∃ names st' n,
    serveAll randomToken rs (initGen h) = Some (names, st') ∧
    names !! i = Some n ∧ names !! j = Some n.
Proof.
  intros Hfresh Hi Hj Hperm.
  destruct (serveAll_spec randomToken h rs (initGen h))
    as (names & st' & Hall & _ & _ & Hrec & _ & Hrel); [apply consistent_init | done |].
  destruct (Forall2_lookup_l _ _ _ _ _ Hrec Hi) as (ni & Hni & _).
  destruct (Forall2_lookup_l _ _ _ _ _ Hrec Hj) as (nj & Hnj & _).
  exists names, st', ni. split_and!; [done..|].
  rewrite Hnj. f_equal. symmetry.
  apply (Hrel i j _ _ ni nj Hi Hj Hni Hnj). by apply enumKey_permutation.
Qed.

(** A request for [A, B] and a later one for [B, A], under other names and
    with other requests in between. *)
Lemma getEnumNameFromProperty_same_values_witness :
  ∃ names st' n,
    serveAll noToken enumRequests (initGen enumArrays) = Some (names, st') ∧
    names !! 0 = Some n ∧ names !! 4 = Some n.
Proof.
  apply (getEnumNameFromProperty_same_values noToken enumArrays enumRequests 0 4
           "kind" "Order" "category" "Invoice" 0 1).
  - vm_compute. reflexivity.
  - reflexivity.
  - reflexivity.
  - simpl. apply perm_swap.
Defined.

(** The answers to those requests. *)
Example enumRequests_answers :
  fst <$> serveAll noToken enumRequests (initGen enumArrays)
  = Some ["OrderKind"; "Order"; "OrderSize"; "GetOrder200Response"; "OrderKind"].
Proof. by vm_compute. Qed.

(** Without the condition on the tokens the two names may differ: the
    random name of the eighth request is that of the seventh, whose entry it
    takes over, and the ninth request, for the values of the seventh, finds
    no entry and gets a name of its own. *)
Example currencyRequests_answers :
  tokensFresh repeatedToken currencyRequests (initGen currencyArrays) = false ∧
  fst <$> serveAll repeatedToken currencyRequests (initGen currencyArrays)
  = Some ["Currency"; "CurrencyType"; "CurrencyEnum"; "CurrencyValues"; "CurrencyOptions";
          "CurrencyList"; "Currency_t0"; "Currency_t0"; "Currency_t1"].
Proof. split; by vm_compute. Qed.

(** Arrays that hold the same values, one of them a value twice, have two
    keys and get two names. *)
Example enum_repeated_value :
  fst <$> serveAll noToken [EnumRequest "kind" 0 "Order"; EnumRequest "kind" 1 "Invoice"]
                   (initGen [["A"; "B"]; ["A"; "A"; "B"]])
  = Some ["OrderKind"; "InvoiceKind"].
Proof. by vm_compute. Qed.

(** * The class emitter *)

Section PropertyNames.
Implicit Types (used R : gset string) (p : string).

Lemma pretty_N_go_nonempty x s : s ≠ "" → pretty_N_go x s ≠ "".
Proof.
  revert s. induction (N.lt_wf_0 x) as [x _ IH]. intros s Hs.
  destruct (decide (x = 0%N)) as [->|Hx].
  - by rewrite pretty_N_go_0.
  - rewrite pretty_N_go_step by lia. apply IH; [|done].
    apply N.div_lt; lia.
Qed.

Lemma pretty_nat_nonempty (k : nat) : pretty k ≠ "".
Proof.
  unfold pretty, pretty_nat, pretty, pretty_N. case_decide; [done|].
  rewrite pretty_N_go_step by lia. by apply pretty_N_go_nonempty.
Qed.

Lemma append_inj_r p a b : p +:+ a = p +:+ b → a = b.
Proof. induction p as [|c p IH]; simpl; [done|]. intros [= H]. by apply IH. Qed.

Lemma append_empty_r p a : p = p +:+ a → a = "".
Proof. induction p as [|c p IH]; simpl; [done|]. intros [= H]. by apply IH. Qed.

Lemma candidate_inj p j k : candidate p j = candidate p k → j = k.
Proof.
  destruct j as [|j], k as [|k]; simpl; try done.
  - intros H%append_empty_r. by destruct (pretty_nat_nonempty (S k)).
  - intros H. symmetry in H. apply append_empty_r in H.
    by destruct (pretty_nat_nonempty (S j)).
  - intros H%append_inj_r. by apply (inj pretty) in H.
Qed.

Lemma uniquePropertyNameFrom_fresh fuel : ∀ p used k R,
  (∀ j, k ≤ j → candidate p j ∈ used → candidate p j ∈ R) →
  size R ≤ fuel →
  ∃ n, uniquePropertyNameFrom fuel p used (candidate p k) (S k) = Some n ∧ n ∉ used.
Proof.
  induction fuel as [|fuel IH]; intros p used k R HR Hsize.
  - simpl. case_decide as Hin; [|by eauto].
    apply HR in Hin; [|done].
    assert (R ≡ ∅) as HR0 by (apply size_empty_inv; lia). set_solver.
  - simpl. case_decide as Hin; [|by eauto].
    apply (IH p used (S k) (R ∖ {[candidate p k]})).
    + intros j Hj Hused. apply elem_of_difference. split; [apply HR; [lia|done]|].
      intros Heq%elem_of_singleton%candidate_inj. lia.
    + assert (candidate p k ∈ R) as HinR by (apply HR; [lia|done]).
      assert (R ∖ {[candidate p k]} ⊂ R) as Hsub%subset_size by set_solver. lia.
Qed.

(** The loop ends, with a name that is not in use. *)
Lemma uniquePropertyName_fresh p used :
  ∃ n, uniquePropertyName p used = Some n ∧ n ∉ used.
Proof.
  apply (uniquePropertyNameFrom_fresh (size used) p used 0 used); [done | lia].
Qed.
End PropertyNames.

Section Resolve.
Implicit Types (doc : OpenAPIDocument) (ref name : string).

(** Indexing the schemas finds a declared schema under its name. *)
Lemma lookupSchema_declared doc name s :
  (documentSchemas doc ≫= JsMap.get name) = Some s → lookupSchema doc name = Some s.
Proof.
  unfold lookupSchema. destruct (documentSchemas doc) as [declared|]; simpl; [|done].
  by intros ->.
Qed.

(** What indexing finds is a declared schema or an inherited member. *)
Lemma lookupSchema_Some doc name s :
  lookupSchema doc name = Some s ↔
  (documentSchemas doc ≫= JsMap.get name) = Some s ∨
  (is_Some (documentSchemas doc) ∧ (documentSchemas doc ≫= JsMap.get name) = None ∧
   name ∈ prototypeMembers ∧ s = Schema.empty).
Proof.
  unfold lookupSchema. destruct (documentSchemas doc) as [declared|]; simpl.
  - destruct (JsMap.get name declared) as [s'|]; [naive_solver|].
    case_decide; [|naive_solver]. split.
    + intros [= <-]. right. by eauto.
    + intros [?|(_ & _ & _ & ->)]; done.
  - split; [done|]. intros [?|([? ?] & _)]; done.
Qed.

(** Indexing finds nothing exactly for the names that are neither declared
    nor inherited. *)
Lemma lookupSchema_None doc name :
  lookupSchema doc name = None ↔
  (documentSchemas doc ≫= JsMap.get name) = None ∧
  (is_Some (documentSchemas doc) → name ∉ prototypeMembers).
Proof.
  unfold lookupSchema. destruct (documentSchemas doc) as [declared|]; simpl.
  - destruct (JsMap.get name declared) as [s'|]; [naive_solver|].
    case_decide; [|naive_solver]. split; [done|]. intros [_ Hno]. destruct Hno; by eauto.
  - split; [|done]. intros _. split; [done|]. by intros [? ?].
Qed.

(** [resolveRef] answers [null] exactly when the reference has not the
    supported shape or indexing the schemas by its name finds nothing. *)
Lemma resolveRef_None ref doc :
  resolveRef ref doc = None ↔
  startsWith ref refPrefix = false ∨
  lookupSchema doc (replace ref refPrefix "") = None.
Proof.
  unfold resolveRef. destruct (startsWith ref refPrefix); simpl.
  - destruct (lookupSchema doc _) as [s|]; [|naive_solver].
    destruct (_ || _); naive_solver.
  - naive_solver.
Qed.

(** What [resolveRef] returns is what indexing finds, or a copy of it with
    the schema name as its title; the document is not an output. *)
Lemma resolveRef_Some ref doc s :
  resolveRef ref doc = Some s →
  ∃ stored, lookupSchema doc (replace ref refPrefix "") = Some stored ∧
    (s = stored ∨ s = Schema.withTitle stored (replace ref refPrefix "")).
Proof.
  unfold resolveRef. destruct (startsWith ref refPrefix); simpl; [|done].
  destruct (lookupSchema doc _) as [stored|]; [|done].
  destruct (_ || _); intros [= <-]; eauto.
Qed.
End Resolve.

(** C9, as the code has it. A property whose schema is a reference that does
    not resolve, because it has not the supported shape or because indexing
    the schemas by its name finds nothing (the name is not declared and is
    not the name of a member that the schemas object inherits), and that
    declares no type and no properties of its own is emitted with the type
    [any]: [resolveRef] returns [null], the call returns, its decorators are
    [@IsOptional()] (unless the property is required) and the decorator of
    its name, if any, and the registries are left as they were. *)
Theorem unresolved_reference_any (randomToken : nat → string) (fuel : nat)
    (propertyName : string) (schema : OpenAPISchema) (required : list string)
    (doc : OpenAPIDocument) (usedProperties : gset string) (context : string)
    (st : GenState) (ref : string) :
  Schema.ref schema = Some ref →
  (startsWith ref refPrefix = false ∨
   lookupSchema doc (replace ref refPrefix "") = None) →
  Schema.type schema = None →
  Schema.properties schema = None →
  let isRequired := bool_decide (propertyName ∈ required) in
  let decorators := (if isRequired then [] else ["@IsOptional()"])
                    ++ option_list (nameDecorator (toLowerCase propertyName)) in
  let formatted := if needsQuotes propertyName
                   then "'" +:+ propertyName +:+ "'" else propertyName in
  resolveRef ref doc = None ∧
  ∃ uniqueName, (uniqueName ∉ usedProperties) ∧
    generateClassProperty randomToken (S fuel) propertyName schema required doc
                          usedProperties context st
    = Some (mkProperty (propertyText decorators formatted isRequired "any") [] [],
            usedProperties ∪ {[uniqueName]}, st).
Proof.
  intros Href Hunres Htype Hprops isRequired decorators formatted.
  apply resolveRef_None in Hunres. split; [done|].
  destruct (uniquePropertyName_fresh propertyName usedProperties) as (u & Hu & Hfresh).
  exists u. split; [done|].
  assert (generateDecorators schema propertyName isRequired = decorators) as Hdec.
  { unfold generateDecorators, decorators, Schema.typeIs. rewrite Htype, Hprops.
    destruct (nameDecorator _); simpl; [done|]. by rewrite app_nil_r. }
  cbn [generateClassProperty].
  assert (lift (uniquePropertyName propertyName usedProperties) st = Some (u, st)) as Hlift.
  { unfold lift. by rewrite Hu. }
  rewrite (gen_bind_eq _ _ _ _ _ Hlift).
  rewrite Href. change (default "" (Some ref)) with ref. rewrite Hunres.
  assert ((if truthy (Some ref) then None else None) = (None : option OpenAPISchema)) as ->
    by (by destruct (truthy _)).
  unfold Schema.typeIs. rewrite Htype, Hprops.
  rewrite !bool_decide_eq_false_2 by done. cbn [orb andb].
  fold isRequired. unfold Schema.typeIs in Hdec. by rewrite Hdec.
Qed.

(** [unresolved_reference_any] on a reference to an undeclared [Missing]. *)
Lemma unresolved_reference_any_witness :
  resolveRef "#/components/schemas/Missing" petStore = None ∧
  ∃ uniqueName, (uniqueName ∉ (∅ : gset string)) ∧
    generateClassProperty noToken 1 "owner" (reference "#/components/schemas/Missing") []
                          petStore ∅ "Pet" (initGen [])
    = Some (mkProperty (propertyText ["@IsOptional()"] "owner" false "any") [] [],
            ∅ ∪ {[uniqueName]}, initGen []).
Proof.
  apply (unresolved_reference_any noToken 0 "owner"
           (reference "#/components/schemas/Missing") [] petStore ∅ "Pet" (initGen [])
           "#/components/schemas/Missing").
  - reflexivity.
  - right. reflexivity.
  - reflexivity.
  - reflexivity.
Defined.

(** C9 as stated fails in two ways. A reference that stands next to a
    declared type does not resolve, and the property is emitted with the
    type [string]. And a reference to [constructor], a name that the
    document does not declare, resolves to the member of that name that the
    schemas object inherits: the property is emitted with the type
    [constructor]. *)
Lemma unresolved_reference_not_any :
  (Schema.ref typedReference = Some "#/components/schemas/Missing" ∧
   resolveRef "#/components/schemas/Missing" petStore = None ∧
   (λ r, property r.1.1)
     <$> generateClassProperty noToken 1 "owner" typedReference [] petStore ∅ "Pet" (initGen [])
   = Some (propertyText ["@IsOptional()"; "@IsString()"] "owner" false "string")) ∧
  ((documentSchemas petStore ≫= JsMap.get "constructor") = None ∧
   resolveRef "#/components/schemas/constructor" petStore = Some Schema.empty ∧
   (λ r, property r.1.1)
     <$> generateClassProperty noToken 1 "owner"
           (reference "#/components/schemas/constructor") [] petStore ∅ "Pet" (initGen [])
   = Some (propertyText ["@IsOptional()"] "owner" false "constructor")).
Proof. split_and!; by vm_compute. Qed.

(** C4, as the code has it. For the document of scenario B the run emits
    [Pet] as a base class and [Dog extends Pet], and the body of [Dog]
    declares the merged [id] and [name] again, before its own [breed]. *)
Theorem scenarioB_dog_redeclares (randomToken : nat → string) (fuel : nat) :
  (λ r, (generatedEnums r.1, baseClasses r.1, childClasses r.1))
    <$> run randomToken (3 + fuel) petStore []
  = Some ([],
          [classText "Pet" ""
             [propertyText ["@IsOptional()"; "@IsInt()"] "id" false "number";
              propertyText ["@IsString()"] "name" true "string"]],
          [classText "Dog" " extends Pet"
             [propertyText ["@IsOptional()"; "@IsInt()"] "id" false "number";
              propertyText ["@IsString()"] "name" true "string";
              propertyText ["@IsOptional()"; "@IsString()"] "breed" false "string"]]).
Proof. by vm_compute. Qed.

(** C4 as stated fails: the class emitted for [Dog] declares [id] and
    [name], not only [breed]. *)
Lemma scenarioB_dog_not_only_breed :
  (λ r, childClasses r.1) <$> run noToken 3 petStore []
  = Some ["
export class Dog extends Pet {
  @IsOptional()
  @IsInt()
  id?: number;

  @IsString()
  name: string;

  @IsOptional()
  @IsString()
  breed?: string;

}"].
Proof. by vm_compute. Qed.

(** C5, as the code has it. With a 200 and a 404 response only the class
    [GetPet200Response] is emitted: the 404 response is not a 2xx response.
    With a 200 and a 201 response over the same enum values under
    differently named fields, the classes [GetPet200Response] and
    [GetPet201Response] are emitted, both refer to the enum
    [GetPetStatus], and the output holds one declaration of it. *)
Theorem scenarioC_two_hundreds_only (randomToken : nat → string) (fuel : nat) :
  let status := propertyText ["@IsOptional()"; "@IsString()"; "@IsEnum(GetPetStatus)"]
                             "status" false "GetPetStatus" in
  let state := propertyText ["@IsOptional()"; "@IsString()"; "@IsEnum(GetPetStatus)"]
                            "state" false "GetPetStatus" in
  let declaration := inlineEnumText "GetPetStatus" ["available"; "sold"] in
  (λ r, (uniq (generatedEnums r.1), baseClasses r.1, childClasses r.1))
    <$> run randomToken (2 + fuel) (getPetDocument "404") statusArrays
  = Some ([declaration], [classText "GetPet200Response" "" [status]], [])
  ∧
  (λ r, (uniq (generatedEnums r.1), baseClasses r.1, childClasses r.1))
    <$> run randomToken (2 + fuel) (getPetDocument "201") statusArrays
  = Some ([declaration],
          [classText "GetPet200Response" "" [status];
           classText "GetPet201Response" "" [state]], []).
Proof. split; by vm_compute. Qed.

(** C5 as stated fails: no class is emitted for the 404 response. *)
Lemma scenarioC_no_404_class :
  (λ r, baseClasses r.1 ++ childClasses r.1)
    <$> run noToken 2 (getPetDocument "404") statusArrays
  = Some ["
export class GetPet200Response {
  @IsOptional()
  @IsString()
  @IsEnum(GetPetStatus)
  status?: GetPetStatus;

}"].
Proof. by vm_compute. Qed.

(** C6 as stated fails for a top-level enum: [Status] and the inline enum of
    [Order.kind] hold the same values and are declared under two names. *)
Lemma enums_top_level_not_shared :
  (λ r, uniq (generatedEnums r.1))
    <$> run noToken 3 orderDocument [["A"; "B"]; ["A"; "B"]]
  = Some [enumText "Status" ["A"; "B"]; inlineEnumText "OrderKind" ["A"; "B"]].
Proof. by vm_compute. Qed.

(** C7 fails on the code: the run sorts the enum array of the document in
    place. *)
Lemma run_sorts_document_enum :
  (λ r, arrays r.2) <$> run noToken 3 orderDocument [["A"; "B"]; ["sold"; "available"]]
  = Some [["A"; "B"]; ["available"; "sold"]].
Proof. by vm_compute. Qed.

Section Skipped.
Context (randomToken : nat → string).

Lemma forM_app {A B} (body : A → B → Gen B) l1 l2 acc st :
  forM body (l1 ++ l2) acc st = (forM body l1 acc ≫= forM body l2) st.
Proof.
  revert acc st. unfold mbind, gen_bind.
  induction l1 as [|x l1 IH]; intros acc st; simpl; [done|].
  unfold mbind, gen_bind.
  destruct (body x acc st) as [[acc' st']|]; [|done]. apply IH.
Qed.

Lemma forM_cons_skip {A B} (body : A → B → Gen B) x l :
  (∀ acc st, body x acc st = Some (acc, st)) →
  ∀ acc st, forM body (x :: l) acc st = forM body l acc st.
Proof. intros Hx acc st. simpl. by rewrite (gen_bind_eq _ _ _ _ _ (Hx acc st)). Qed.
End Skipped.

(** * The generator reads the document through its schemas *)

Lemma forOf_ext {A S} (body body' : A → S → option S) l s :
  (∀ x s, body x s = body' x s) → forOf body l s = forOf body' l s.
Proof.
  intros Hb. revert s. induction l as [|x l IH]; intros s; simpl; [done|].
  rewrite Hb. destruct (body' x s); [apply IH | done].
Qed.

Lemma forM_ext {A B} (body body' : A → B → Gen B) l acc st :
  (∀ x acc st, body x acc st = body' x acc st) → forM body l acc st = forM body' l acc st.
Proof.
  intros Hb. revert acc st. induction l as [|x l IH]; intros acc st; simpl; [done|].
  unfold mbind, gen_bind. rewrite Hb. destruct (body' x acc st) as [[acc' st']|]; [apply IH | done].
Qed.

Section SchemasOnly.
Context (randomToken : nat → string) (doc doc' : OpenAPIDocument).
Context (Hschemas : documentSchemas doc = documentSchemas doc').

Lemma lookupSchema_schemas name : lookupSchema doc name = lookupSchema doc' name.
Proof. unfold lookupSchema. by rewrite Hschemas. Qed.

Lemma resolveRef_schemas ref : resolveRef ref doc = resolveRef ref doc'.
Proof. unfold resolveRef. by rewrite lookupSchema_schemas. Qed.

Lemma getAllParentClasses_schemas fuel : ∀ s,
  getAllParentClasses fuel s doc = getAllParentClasses fuel s doc'.
Proof.
  induction fuel as [|fuel IH]; intros s; simpl; [done|].
  destruct (Schema.allOf s) as [subs|]; [|done]. simpl.
  f_equal. apply forOf_ext. intros sub parents.
  destruct (refName sub); [|done]. rewrite lookupSchema_schemas.
  destruct (lookupSchema doc' _); [|done]. by rewrite IH.
Qed.

Lemma mergeParentProperties_schemas fuel : ∀ s,
  mergeParentProperties fuel s doc = mergeParentProperties fuel s doc'.
Proof.
  induction fuel as [|fuel IH]; intros s; simpl; [done|].
  destruct (Schema.allOf s) as [subs|]; [|done]. simpl.
  f_equal. apply forOf_ext. intros sub merged.
  destruct (truthy _); [|done]. rewrite resolveRef_schemas.
  destruct (resolveRef _ doc'); [|done]. by rewrite IH.
Qed.

(** One step through two computations that differ by the document. *)
Ltac same_step IHp IHps :=
  first
    [ reflexivity
    | rewrite resolveRef_schemas
    | rewrite mergeParentProperties_schemas
    | rewrite getAllParentClasses_schemas
    | rewrite IHp
    | rewrite IHps
    | progress (unfold mbind, gen_bind; cbv beta)
    | match goal with
      | |- match ?m with _ => _ end = _ => destruct m
      | |- (match ?m with _ => _ end) _ = _ => destruct m
      | |- (match ?m with _ => _ end) _ _ = _ => destruct m
      end ].

Lemma generateClassProperty_schemas fuel :
  (∀ p s req used ctx st,
     generateClassProperty randomToken fuel p s req doc used ctx st
     = generateClassProperty randomToken fuel p s req doc' used ctx st) ∧
  (∀ s req ctx st,
     generateClassProperties randomToken fuel s req doc ctx st
     = generateClassProperties randomToken fuel s req doc' ctx st).
Proof.
  induction fuel as [|fuel [IHp IHps]]; [done|]. split.
  - intros p s req used ctx st. cbn [generateClassProperty].
    repeat same_step IHp IHps.
  - intros s req ctx st. cbn [generateClassProperties].
    unfold mbind, gen_bind. rewrite mergeParentProperties_schemas.
    destruct (lift _ st) as [[[mergedProperties mergedRequired] st1]|]; [|done].
    match goal with
    | |- match forM ?b ?l ?a ?s with _ => _ end = match forM ?b' _ _ _ with _ => _ end =>
      rewrite (forM_ext b b' l a s); [done|]
    end.
    intros kv acc st'. by rewrite IHp.
Qed.

Lemma generateClassProperties_schemas fuel s req ctx st :
  generateClassProperties randomToken fuel s req doc ctx st
  = generateClassProperties randomToken fuel s req doc' ctx st.
Proof. apply generateClassProperty_schemas. Qed.

Ltac same_call :=
  first
    [ reflexivity
    | rewrite lookupSchema_schemas
    | rewrite getAllParentClasses_schemas
    | rewrite generateClassProperties_schemas
    | progress (unfold mbind, gen_bind; cbv beta)
    | match goal with
      | |- match ?m with _ => _ end = _ => destruct m
      | |- (match ?m with _ => _ end) _ = _ => destruct m
      | |- (match ?m with _ => _ end) _ _ = _ => destruct m
      end ].

Lemma intermediateClasses_schemas fuel className others e st :
  intermediateClasses randomToken fuel doc className others e st
  = intermediateClasses randomToken fuel doc' className others e st.
Proof.
  unfold intermediateClasses, mbind, gen_bind.
  match goal with
  | |- match forM ?b ?l ?a ?s with _ => _ end = match forM ?b' _ _ _ with _ => _ end =>
    rewrite (forM_ext b b' l a s); [done|]
  end.
  intros parentName acc st'. repeat same_call.
Qed.

Lemma processSchemaName_schemas fuel schemaName e st :
  processSchemaName randomToken fuel doc schemaName e st
  = processSchemaName randomToken fuel doc' schemaName e st.
Proof.
  unfold processSchemaName. rewrite lookupSchema_schemas.
  destruct (lookupSchema doc' schemaName) as [s|]; [|done].
  case_decide; [done|]. unfold mbind, gen_bind.
  destruct (getClassNameFromSchemaName _ _ st) as [[className st1]|]; [|done].
  rewrite generateClassProperties_schemas.
  destruct (generateClassProperties _ _ _ _ doc' _ st1) as [[res st2]|]; [|done].
  destruct (bool_decide _); [done|].
  destruct (Schema.allOf s); [|done].
  rewrite getAllParentClasses_schemas.
  destruct (lift _ st2) as [[[|primary others] st3]|]; [done| |done].
  destruct (getClassNameFromSchemaName _ _ st3) as [[primaryName st4]|]; [|done].
  by rewrite intermediateClasses_schemas.
Qed.

Lemma processOperation_schemas fuel operation e st :
  processOperation randomToken fuel doc operation e st
  = processOperation randomToken fuel doc' operation e st.
Proof.
  unfold processOperation. destruct (negb _); [done|].
  apply forM_ext. intros [code response] e' st'. unfold processResponse. cbn [fst snd].
  destruct (negb _); [done|]. destruct (content response); [|done].
  apply forM_ext. intros [contentType media] e'' st''. unfold processContent. cbn [fst snd].
  destruct (schema media); [|done]. unfold mbind, gen_bind.
  destruct (getClassNameFromOperationId _ _ _ st'') as [[className st1]|]; [|done].
  by rewrite generateClassProperties_schemas.
Qed.

Lemma processPaths_schemas fuel pathList e st :
  processPaths randomToken fuel doc pathList e st
  = processPaths randomToken fuel doc' pathList e st.
Proof.
  unfold processPaths. apply forM_ext. intros pathEntry e' st'.
  apply forM_ext. intros opEntry e'' st''. apply processOperation_schemas.
Qed.
End SchemasOnly.

Lemma processPaths_skip (randomToken : nat → string) fuel doc operation
    before after path method ops1 ops2 e st :
  (∀ e st, processOperation randomToken fuel doc operation e st = Some (e, st)) →
  processPaths randomToken fuel doc
    (before ++ (path, ops1 ++ (method, operation) :: ops2) :: after) e st
  = processPaths randomToken fuel doc (before ++ (path, ops1 ++ ops2) :: after) e st.
Proof.
  intros Hskip. unfold processPaths.
  rewrite !forM_app. unfold mbind, gen_bind.
  match goal with
  | |- context [forM ?body before e st] => destruct (forM body before e st) as [[e1 st1]|]
  end; [|done].
  cbn [forM]. unfold mbind, gen_bind. cbn [snd].
  rewrite !forM_app. unfold mbind, gen_bind.
  match goal with
  | |- context [forM ?body ops1 e1 st1] => destruct (forM body ops1 e1 st1) as [[e2 st2]|]
  end; [|done].
  by rewrite forM_cons_skip.
Qed.

(** C10. An operation without an [operationId] leaves the emission and the
    registries as they are, whatever its responses, and the run on a
    document gives the same result, an emission or none, as the run on the
    document without the operation. *)
Theorem operation_without_id_skipped (randomToken : nat → string) (fuel : nat)
    (operation : OpenAPIOperation) :
  truthy (operationId operation) = false →
  (∀ doc e st, processOperation randomToken fuel doc operation e st = Some (e, st)) ∧
  (∀ before after path method ops1 ops2 components h,
     run randomToken fuel
         (mkDocument (before ++ (path, ops1 ++ (method, operation) :: ops2) :: after)
                     components) h
     = run randomToken fuel
           (mkDocument (before ++ (path, ops1 ++ ops2) :: after) components) h).
Proof.
  intros Hid.
  assert (∀ doc e st, processOperation randomToken fuel doc operation e st = Some (e, st))
    as Hskip.
  { intros doc e st. unfold processOperation. by rewrite Hid. }
  split; [done|].
  intros before after path method ops1 ops2 components h.
  set (doc := mkDocument (before ++ (path, ops1 ++ (method, operation) :: ops2) :: after)
                         components).
  set (doc' := mkDocument (before ++ (path, ops1 ++ ops2) :: after) components).
  assert (documentSchemas doc = documentSchemas doc') as Hschemas by done.
  unfold run, generateClasses. rewrite !gen_bind_getState.
  change (buildSchemaDependencyGraph doc') with (buildSchemaDependencyGraph doc).
  change (getEnums (arrays (initGen h)) doc') with (getEnums (arrays (initGen h)) doc).
  unfold mbind, gen_bind.
  destruct (lift _ (initGen h)) as [[sortedSchemas st0]|]; [|done].
  rewrite <-Hschemas.
  assert (∀ e st, forM (processSchemaName randomToken fuel doc) sortedSchemas e st
                  = forM (processSchemaName randomToken fuel doc') sortedSchemas e st) as Hloop.
  { intros e st. apply forM_ext. intros. by apply processSchemaName_schemas. }
  pose proof (processPaths_schemas randomToken doc doc' Hschemas fuel) as Hpaths.
  destruct (documentSchemas doc); [rewrite Hloop|];
    (match goal with
     | |- match ?m with _ => _ end = _ => destruct m as [[e1 st1]|]; [|done]
     end);
    rewrite Hpaths.
  all: apply processPaths_skip, Hskip.
Qed.

(** [operation_without_id_skipped] on an operation with a 200 response. *)
Lemma operation_without_id_skipped_witness :
  (∀ doc e st, processOperation noToken 3 doc anonymousOperation e st = Some (e, st)) ∧
  (∀ before after path method ops1 ops2 components h,
     run noToken 3
         (mkDocument (before ++ (path, ops1 ++ (method, anonymousOperation) :: ops2) :: after)
                     components) h
     = run noToken 3 (mkDocument (before ++ (path, ops1 ++ ops2) :: after) components) h).
Proof.
  apply (operation_without_id_skipped noToken 3 anonymousOperation).
  reflexivity.
Defined.

(** * Further properties of the program *)

Import Document.

(** ** Strings and names *)

Section Prefixes.
Implicit Types (p s : string).

Lemma prefix_append p s : String.prefix p (p +:+ s) = true.
Proof.
  induction p as [|c p IH]; simpl; [by destruct s|].
  destruct (ascii_dec c c); [done|congruence].
Qed.

Lemma dropChars_append p s : dropChars (String.length p) (p +:+ s) = s.
Proof. induction p as [|c p IH]; simpl; [by destruct s | done]. Qed.

Lemma prefix_split p s : String.prefix p s = true → s = p +:+ dropChars (String.length p) s.
Proof.
  revert s. induction p as [|c p IH]; intros [|d s]; simpl; try done.
  destruct (ascii_dec c d) as [->|]; [|done]. intros H.
  change (String d p +:+ ?x) with (String d (p +:+ x)). f_equal. by apply IH.
Qed.

Lemma replace_prefix p s rep :
  String.prefix p s = true → replace s p rep = rep +:+ dropChars (String.length p) s.
Proof. intros H. destruct s; cbn [replace]; by rewrite H. Qed.

(** A reference with the prefix of the component schemas is the prefix
    followed by the name taken from it, and the other way round. *)
Lemma refPrefix_name r :
  startsWith r refPrefix = true → r = refPrefix +:+ replace r refPrefix "".
Proof.
  unfold startsWith. intros H. rewrite (replace_prefix _ _ _ H). simpl ("" +:+ _).
  by apply prefix_split.
Qed.

Lemma name_refPrefix name :
  startsWith (refPrefix +:+ name) refPrefix = true ∧
  replace (refPrefix +:+ name) refPrefix "" = name.
Proof.
  unfold startsWith. split; [apply prefix_append|].
  rewrite replace_prefix by apply prefix_append. by rewrite dropChars_append.
Qed.
End Prefixes.

Section Characters.
Implicit Types (c : ascii).

Ltac by_cases c := destruct c as [[] [] [] [] [] [] [] []]; vm_compute; try done.

Lemma upperChar_not_lower c : isLower (upperChar c) = false.
Proof. by_cases c. Qed.

Lemma upperChar_not_separator c :
  isLower c = true → Ascii.eqb (upperChar c) "-" || Ascii.eqb (upperChar c) "_" = false.
Proof. by_cases c. Qed.

Lemma lower_not_separator c :
  isLower c = true → Ascii.eqb c "-" || Ascii.eqb c "_" = false.
Proof. by_cases c. Qed.

Lemma upperChar_word c :
  let d := upperChar (if isWord c then c else "_"%char) in
  isUpper d || isDigit d || Ascii.eqb d "_" = true.
Proof. by_cases c. Qed.
End Characters.

Section PascalCase.
Implicit Types (s t : string) (c d : ascii).

Lemma camelize_cons_plain c s :
  Ascii.eqb c "-" || Ascii.eqb c "_" = false → camelize (String c s) = String c (camelize s).
Proof. intros H. cbn [camelize]. by rewrite H. Qed.

Lemma camelize_cons_kept c d s :
  isLower d = false → camelize (String c (String d s)) = String c (camelize (String d s)).
Proof.
  intros H. cbn [camelize]. rewrite H. by destruct (Ascii.eqb c "-" || Ascii.eqb c "_").
Qed.

Lemma camelize_cons_joined c d s :
  Ascii.eqb c "-" || Ascii.eqb c "_" = true → isLower d = true →
  camelize (String c (String d s)) = String (upperChar d) (camelize s).
Proof. intros Hc Hd. cbn [camelize]. by rewrite Hc, Hd. Qed.

(** What [camelize] yields for a string that does not begin with a
    lower-case letter does not begin with one either. *)
Lemma camelize_head d s :
  isLower d = false → ∃ e t, camelize (String d s) = String e t ∧ isLower e = false.
Proof.
  intros Hd. destruct (Ascii.eqb d "-" || Ascii.eqb d "_") eqn:Hsep.
  - destruct s as [|e s].
    + exists d, "". cbn [camelize]. by rewrite Hsep.
    + destruct (isLower e) eqn:He.
      * exists (upperChar e), (camelize s). split; [by apply camelize_cons_joined|].
        apply upperChar_not_lower.
      * exists d, (camelize (String e s)). split; [by apply camelize_cons_kept | done].
  - exists d, (camelize s). split; [by apply camelize_cons_plain | done].
Qed.

Lemma camelize_idempotent_bounded n : ∀ s,
  String.length s ≤ n → camelize (camelize s) = camelize s.
Proof.
  induction (lt_wf n) as [n _ IH]. intros [|c s] Hlen; [done|]. simpl in Hlen.
  destruct (Ascii.eqb c "-" || Ascii.eqb c "_") eqn:Hsep.
  - destruct s as [|d s]; [cbn [camelize]; rewrite Hsep; cbn [camelize]; by rewrite Hsep|].
    simpl in Hlen. destruct (isLower d) eqn:Hd.
    + rewrite (camelize_cons_joined c d s) by done.
      rewrite camelize_cons_plain by (by apply upperChar_not_separator).
      f_equal. apply (IH (String.length s)); lia.
    + rewrite (camelize_cons_kept c d s) by done.
      destruct (camelize_head d s Hd) as (e & t & Heq & He). rewrite Heq at 1.
      rewrite camelize_cons_kept by done. rewrite <-Heq. f_equal.
      apply (IH (String.length (String d s))); simpl; lia.
  - rewrite !camelize_cons_plain by done.
    f_equal. apply (IH (String.length s)); lia.
Qed.

Lemma camelize_idempotent s : camelize (camelize s) = camelize s.
Proof. by apply (camelize_idempotent_bounded (String.length s)). Qed.

Lemma capitalize_head s c t : capitalize s = String c t → isLower c = false.
Proof.
  destruct s as [|d s]; simpl; [done|]. destruct (isLower d) eqn:Hd.
  - intros [= <- _]. apply upperChar_not_lower.
  - by intros [= <- _].
Qed.

Lemma capitalize_idempotent s : capitalize (capitalize s) = capitalize s.
Proof.
  destruct (capitalize s) as [|c t] eqn:Heq; [done|].
  apply capitalize_head in Heq. simpl. by rewrite Heq.
Qed.

Lemma camelize_capitalize s : camelize s = s → camelize (capitalize s) = capitalize s.
Proof.
  destruct s as [|c s]; [done|]. cbn [capitalize]. destruct (isLower c) eqn:Hc; [|done].
  rewrite camelize_cons_plain by (by apply lower_not_separator).
  rewrite camelize_cons_plain by (by apply upperChar_not_separator).
  by intros [= ->].
Qed.
End PascalCase.

(** X1. [toPascalCase] is idempotent: a name that it has produced is left
    as it is by a second application. And what it produces never begins
    with a lower-case letter [a-z]. *)
Theorem toPascalCase_idempotent (str : string) :
  toPascalCase (toPascalCase str) = toPascalCase str ∧
  ∀ c rest, toPascalCase str = String c rest → isLower c = false.
Proof.
  unfold toPascalCase. split.
  - rewrite camelize_capitalize by apply camelize_idempotent.
    apply capitalize_idempotent.
  - intros c rest. apply capitalize_head.
Qed.

(** X2. The key of an enum member, as computed for the top-level and the
    inline enums alike, has the length of the value and consists of
    upper-case letters, digits and underscores only. *)
Theorem enumMemberKey_characters (v : string) :
  String.length (enumMemberKey v) = String.length v ∧
  existsChar (λ c, negb (isUpper c || isDigit c || Ascii.eqb c "_")) (enumMemberKey v) = false.
Proof.
  unfold enumMemberKey, toUpperCase. induction v as [|c v [IHlen IHchars]]; [done|].
  cbn [mapChars existsChar String.length]. split; [by rewrite IHlen|].
  rewrite IHchars, orb_false_r. apply negb_false_iff, upperChar_word.
Qed.

(** ** The dependency graph of a document *)

Section SchemaRefs.
Implicit Types (s : OpenAPISchema) (refs : list string) (x : string).
#[local] Arguments truthy : simpl never.
#[local] Arguments startsWith : simpl never.

Lemma setAdd_spec x refs :
  NoDup refs → NoDup (setAdd x refs) ∧ ∀ y, y ∈ setAdd x refs ↔ y ∈ refs ∨ y = x.
Proof.
  intros Hnd. unfold setAdd. case_decide as Hx.
  - split; [done|]. intros y. naive_solver.
  - split.
    + apply NoDup_app. split_and!; [done | | apply NoDup_singleton].
      intros y Hy ->%list_elem_of_singleton. done.
    + intros y. rewrite elem_of_app, list_elem_of_singleton. done.
Qed.

(** A loop that adds to [refs], one step per element of [l]. *)
Lemma foldl_refs {A} (f : list string → A → list string) (Q : A → string → Prop)
    (l : list A) :
  Forall (λ a, ∀ refs, NoDup refs →
               NoDup (f refs a) ∧ ∀ x, x ∈ f refs a ↔ x ∈ refs ∨ Q a x) l →
  ∀ refs, NoDup refs →
    NoDup (foldl f refs l) ∧ ∀ x, x ∈ foldl f refs l ↔ x ∈ refs ∨ ∃ a, a ∈ l ∧ Q a x.
Proof.
  induction 1 as [|a l Ha _ IH]; intros refs Hnd; simpl.
  - split; [done|]. intros x. split; [by left|]. intros [?|(a & Ha & _)]; [done|].
    by apply elem_of_nil in Ha.
  - destruct (Ha refs Hnd) as [Hnd1 Hin1]. destruct (IH _ Hnd1) as [Hnd2 Hin2].
    split; [done|]. intros x. rewrite Hin2, Hin1. split.
    + intros [[?|?]|(b & Hb & ?)]; [by left | right; exists a | right; exists b].
      * split; [by left | done].
      * split; [by right | done].
    + intros [?|(b & [->|Hb]%elem_of_cons & ?)]; [by left; left | by left; right |].
      right. by exists b.
Qed.

Lemma nested_inv s s' :
  nested s s' ↔
  s' = s ∨
  (∃ l s1, Schema.allOf s = Some l ∧ s1 ∈ l ∧ nested s1 s') ∨
  (∃ l kv, Schema.properties s = Some l ∧ kv ∈ l ∧ nested kv.2 s') ∨
  (∃ s1, Schema.items s = Some s1 ∧ nested s1 s').
Proof.
  split.
  - inversion 1; subst; [by left | right; left | right; right; left | right; right; right].
    + by eexists _, _.
    + by eexists _, (_, _).
    + by eexists.
  - intros [->|[(l & s1 & ? & ? & ?)|[(l & [k s1] & ? & ? & ?)|(s1 & ? & ?)]]].
    + constructor.
    + by eapply nested_allOf.
    + by eapply nested_properties.
    + by eapply nested_items.
Qed.

(** [processSchema] adds to [refs], without a duplicate, the names of the
    component references found in the schema at any depth. *)
Lemma processSchema_spec s : ∀ refs,
  NoDup refs →
  NoDup (processSchema s refs) ∧
  ∀ x, x ∈ processSchema s refs ↔ x ∈ refs ∨ ∃ s', nested s s' ∧ refName s' = Some x.
Proof.
  induction s as [type format enum minimum maximum minLength maxLength pattern
                  properties items required allOf ref title Hprops Hitems HallOf]
    using schema_ind.
  intros refs Hnd.
  set (s := Schema.mk type format enum minimum maximum minLength maxLength pattern
                      properties items required allOf ref title).
  set (refs1 := match refName s with Some n => setAdd n refs | None => refs end).
  assert (NoDup refs1 ∧ ∀ x, x ∈ refs1 ↔ x ∈ refs ∨ refName s = Some x) as [Hnd1 Hin1].
  { clear Hprops Hitems HallOf. unfold refs1. destruct (refName s) as [n|].
    - destruct (setAdd_spec n refs Hnd) as [? Hin]. split; [done|].
      intros x. rewrite Hin. naive_solver.
    - split; [done|]. naive_solver. }
  set (refs2 := match allOf with
                | Some l => foldl (λ acc s', processSchema s' acc) refs1 l
                | None => refs1
                end).
  assert (NoDup refs2 ∧
          ∀ x, x ∈ refs2 ↔ x ∈ refs1 ∨
            ∃ l s1, allOf = Some l ∧ s1 ∈ l ∧ ∃ s', nested s1 s' ∧ refName s' = Some x)
    as [Hnd2 Hin2].
  { clear Hprops Hitems Hin1. unfold refs2. destruct allOf as [l|]; simpl in HallOf.
    - destruct (foldl_refs (λ acc s', processSchema s' acc)
                  (λ s1 x, ∃ s', nested s1 s' ∧ refName s' = Some x) l HallOf refs1 Hnd1)
        as [? Hin].
      clear HallOf. split; [done|]. intros x. rewrite Hin. naive_solver.
    - split; [done|]. naive_solver. }
  set (refs3 := match properties with
                | Some l => foldl (λ acc kv, processSchema kv.2 acc) refs2 l
                | None => refs2
                end).
  assert (NoDup refs3 ∧
          ∀ x, x ∈ refs3 ↔ x ∈ refs2 ∨
            ∃ l kv, properties = Some l ∧ kv ∈ l ∧ ∃ s', nested kv.2 s' ∧ refName s' = Some x)
    as [Hnd3 Hin3].
  { clear HallOf Hitems Hin1 Hin2. unfold refs3. destruct properties as [l|]; simpl in Hprops.
    - destruct (foldl_refs (λ acc (kv : string * OpenAPISchema), processSchema kv.2 acc)
                  (λ kv x, ∃ s', nested kv.2 s' ∧ refName s' = Some x) l Hprops refs2 Hnd2)
        as [? Hin].
      clear Hprops. split; [done|]. intros x. rewrite Hin. naive_solver.
    - split; [done|]. naive_solver. }
  assert (processSchema s refs
          = match items with Some s' => processSchema s' refs3 | None => refs3 end) as ->.
  { clear. subst refs3 refs2 refs1. unfold refName. simpl.
    destruct ref as [r|]; [destruct (truthy (Some r) && startsWith r refPrefix)|];
      reflexivity. }
  assert (∀ x, (x ∈ refs ∨ ∃ s', nested s s' ∧ refName s' = Some x) ↔
               x ∈ refs3 ∨ ∃ s1, items = Some s1 ∧ ∃ s', nested s1 s' ∧ refName s' = Some x)
    as Hall.
  { clear Hprops Hitems HallOf Hnd Hnd1 Hnd2 Hnd3.
    intros x. rewrite Hin3, Hin2, Hin1. clear Hin1 Hin2 Hin3. split.
    - intros [?|(s' & Hs' & Hx)]; [by do 4 left|].
      apply nested_inv in Hs' as [->|[(l & s1 & ? & ? & ?)|[(l & kv & ? & ? & ?)|(s1 & ? & ?)]]].
      + by left; left; left; right.
      + left; left; right. exists l, s1. split_and!; [done..|]. by exists s'.
      + left; right. exists l, kv. split_and!; [done..|]. by exists s'.
      + right. exists s1. split; [done|]. by exists s'.
    - intros [[[[?|?]|(l & s1 & ? & ? & s' & ? & ?)]|(l & kv & ? & ? & s' & ? & ?)]
             |(s1 & ? & s' & ? & ?)].
      + by left.
      + right. exists s. split; [constructor | done].
      + right. exists s'. split; [by eapply nested_allOf | done].
      + right. exists s'. split; [|done]. destruct kv. by eapply nested_properties.
      + right. exists s'. split; [by eapply nested_items | done]. }
  clearbody refs3. clear Hprops HallOf.
  destruct items as [s1|]; simpl in Hitems.
  - destruct (Hitems refs3 Hnd3) as [? Hin]. clear Hitems. split; [done|].
    intros x. rewrite Hin, Hall. naive_solver.
  - split; [done|]. intros x. rewrite Hall. naive_solver.
Qed.
End SchemaRefs.

Section Uniq.
Implicit Types (l : list string) (x y : string).

Lemma uniq_elem l x : x ∈ uniq l ↔ x ∈ l.
Proof.
  revert x. induction l as [|y l IH]; intros x; simpl; [done|].
  rewrite !elem_of_cons, list_elem_of_filter, IH.
  destruct (decide (x = y)); naive_solver.
Qed.

Lemma uniq_NoDup l : NoDup (uniq l).
Proof.
  induction l as [|y l IH]; simpl; [constructor|].
  constructor; [|by apply NoDup_filter].
  rewrite list_elem_of_filter. naive_solver.
Qed.

Lemma filter_all {A} (P : A → Prop) `{!∀ a, Decision (P a)} (l : list A) :
  Forall P l → filter P l = l.
Proof.
  induction 1 as [|a l Ha _ IH]; [done|]. by rewrite filter_cons_True, IH.
Qed.

Lemma filter_none {A} (P : A → Prop) `{!∀ a, Decision (P a)} (l : list A) :
  Forall (λ a, ¬ P a) l → filter P l = [].
Proof.
  induction 1 as [|a l Ha _ IH]; [done|]. by rewrite filter_cons_False.
Qed.

Lemma uniq_id l : NoDup l → uniq l = l.
Proof.
  induction 1 as [|y l Hy _ IH]; simpl; [done|]. rewrite IH. f_equal.
  apply filter_all, Forall_forall. intros z Hz ->. done.
Qed.

Lemma uniq_app l l' : uniq (l ++ l') = uniq l ++ filter (λ y, y ∉ l) (uniq l').
Proof.
  induction l as [|x l IH]; simpl.
  - symmetry. apply filter_all, Forall_forall. intros y _. apply not_elem_of_nil.
  - rewrite IH, filter_app. do 2 f_equal.
    rewrite list_filter_filter. apply list_filter_iff.
    intros y. rewrite not_elem_of_cons. naive_solver.
Qed.

Lemma uniq_app_included l l' : NoDup l → l' ⊆ l → uniq (l ++ l') = l.
Proof.
  intros Hnd Hsub. rewrite uniq_app, uniq_id by done.
  rewrite filter_none; [by rewrite app_nil_r|].
  apply Forall_forall. intros y Hy Hn. rewrite uniq_elem in Hy. by apply Hn, (Hsub y).
Qed.

Lemma uniq_head l : head (uniq l) = head l.
Proof. by destruct l. Qed.
End Uniq.

Section References.
Implicit Types (s : OpenAPISchema) (name : string).
#[local] Arguments truthy : simpl never.
#[local] Arguments startsWith : simpl never.

(** The test and the replacement that the program applies to a [$ref]
    single out the references [#/components/schemas/name]. *)
Lemma refName_Some s name :
  refName s = Some name ↔ Schema.ref s = Some (refPrefix +:+ name).
Proof.
  unfold refName. split.
  - destruct (Schema.ref s) as [r|]; [|done].
    destruct (truthy (Some r) && startsWith r refPrefix) eqn:Hr; [|done].
    apply andb_true_iff in Hr as [_ Hr]. intros [= <-]. f_equal.
    by apply refPrefix_name.
  - intros ->. destruct (name_refPrefix name) as [-> ->]. done.
Qed.

Lemma getParentClasses_nested s name :
  name ∈ getParentClasses s → ∃ s', nested s s' ∧ refName s' = Some name.
Proof.
  unfold getParentClasses. rewrite elem_of_app. intros [Hn|Hn].
  - exists s. split; [constructor|]. destruct (refName s); simpl in Hn; [|by apply elem_of_nil in Hn].
    by apply list_elem_of_singleton in Hn as ->.
  - destruct (Schema.allOf s) as [l|] eqn:Hl; [|by apply elem_of_nil in Hn].
    apply list_elem_of_omap in Hn as (s1 & Hs1 & Hname).
    exists s1. split; [|done]. eapply nested_allOf; [done..|constructor].
Qed.

Lemma dependencies_refs s :
  uniq (getSchemaRefs s ++ getParentClasses s) = getSchemaRefs s.
Proof.
  destruct (processSchema_spec s [] NoDup_nil_2) as [Hnd Hin].
  apply uniq_app_included; [done|].
  intros name Hname%getParentClasses_nested. apply Hin. by right.
Qed.
End References.

Section Fold.
Context {V W : Type} (f : string * V → W).
Implicit Types (g : list (string * W)) (l : list (string * V)).

Lemma set_fresh k (w : W) g : k ∉ g.*1 → JsMap.set k w g = g ++ [(k, w)].
Proof.
  induction g as [|[k' w'] g IH]; simpl; [done|].
  intros [Hne Hk]%not_elem_of_cons. rewrite decide_False by done. by rewrite IH.
Qed.

Lemma set_present k (w w0 : W) g rest :
  k ∉ g.*1 → JsMap.set k w (g ++ (k, w0) :: rest) = g ++ (k, w) :: rest.
Proof.
  induction g as [|[k' w'] g IH]; simpl.
  - intros _. by rewrite decide_True.
  - intros [Hne Hk]%not_elem_of_cons. rewrite decide_False by done. by rewrite IH.
Qed.

(** Setting the entries of [l], none of which is present, appends them. *)
Lemma foldl_set_fresh l : ∀ g,
  NoDup (g.*1 ++ l.*1) →
  foldl (λ g kv, JsMap.set kv.1 (f kv) g) g l = g ++ ((λ kv, (kv.1, f kv)) <$> l).
Proof.
  induction l as [|[k v] l IH]; intros g Hnd; simpl; [by rewrite app_nil_r|].
  simpl in Hnd. apply NoDup_app in Hnd as (Hg & Hdisj & [Hk Hl]%NoDup_cons).
  rewrite set_fresh.
  - rewrite IH; [by rewrite <-app_assoc|].
    rewrite fmap_app. simpl. apply NoDup_app. split_and!; [|set_solver|done].
    apply NoDup_app. split_and!; [done | | apply NoDup_singleton].
    intros x Hx ->%list_elem_of_singleton. eapply Hdisj; [done | by left].
  - intros Hin. eapply Hdisj; [done | by left].
Qed.

(** Setting the entries of [l], all of which are present in the order of
    [l], replaces their values in place. *)
Lemma foldl_set_present (f0 : string * V → W) l : ∀ g,
  NoDup (g.*1 ++ l.*1) →
  foldl (λ g kv, JsMap.set kv.1 (f kv) g) (g ++ ((λ kv, (kv.1, f0 kv)) <$> l)) l
  = g ++ ((λ kv, (kv.1, f kv)) <$> l).
Proof.
  induction l as [|[k v] l IH]; intros g Hnd; simpl; [done|].
  simpl in Hnd. apply NoDup_app in Hnd as (Hg & Hdisj & [Hk Hl]%NoDup_cons).
  rewrite set_present by (intros Hin; eapply Hdisj; [done | by left]).
  rewrite (cons_middle (k, f (k, v))), app_assoc. rewrite IH; [by rewrite <-app_assoc|].
  rewrite fmap_app. simpl. apply NoDup_app. split_and!; [|set_solver|done].
  apply NoDup_app. split_and!; [done | | apply NoDup_singleton].
  intros x Hx ->%list_elem_of_singleton. eapply Hdisj; [done | by left].
Qed.
End Fold.

Section Graph.
Implicit Types (doc : OpenAPIDocument) (schemas : list (string * OpenAPISchema)).

(** The graph of a document whose schema names are distinct: one entry per
    schema, in the order of the document, with the references of the
    schema as its dependencies. *)
Lemma buildSchemaDependencyGraph_eq doc :
  NoDup (JsMap.keys (default [] (documentSchemas doc))) →
  buildSchemaDependencyGraph doc
  = (λ kv, (kv.1, getSchemaRefs kv.2)) <$> default [] (documentSchemas doc).
Proof.
  intros Hnd. unfold buildSchemaDependencyGraph.
  set (schemas := default [] (documentSchemas doc)) in *.
  rewrite (foldl_set_fresh (λ _, []) schemas []) by done.
  rewrite (foldl_set_present
             (λ kv, uniq (getSchemaRefs kv.2 ++ getParentClasses kv.2)) (λ _, [])
             schemas []) by done.
  simpl. apply list_fmap_ext. intros _ [k s] _. simpl. by rewrite dependencies_refs.
Qed.

Lemma get_fmap {V W} (h : V → W) k (m : list (string * V)) :
  JsMap.get k ((λ kv, (kv.1, h kv.2)) <$> m) = h <$> JsMap.get k m.
Proof.
  induction m as [|[k' v] m IH]; simpl; [done|]. by case_decide.
Qed.

Lemma keys_fmap {V W} (h : V → W) (m : list (string * V)) :
  JsMap.keys ((λ kv, (kv.1, h kv.2)) <$> m) = JsMap.keys m.
Proof. unfold JsMap.keys. rewrite <-list_fmap_compose. by apply list_fmap_ext. Qed.
End Graph.

(** X3. The references that [getSchemaRefs] collects from a schema are the
    names [n] of the references [#/components/schemas/n] that the schema
    holds, itself or under [allOf], [properties] and [items] at any depth;
    each name is collected once. *)
Theorem getSchemaRefs_nested (schema : OpenAPISchema) :
  NoDup (getSchemaRefs schema) ∧
  ∀ name, name ∈ getSchemaRefs schema ↔
          ∃ s', nested schema s' ∧ Schema.ref s' = Some (refPrefix +:+ name).
Proof.
  destruct (processSchema_spec schema [] NoDup_nil_2) as [Hnd Hin].
  split; [done|]. intros name. unfold getSchemaRefs. rewrite Hin.
  setoid_rewrite refName_Some. split; [|by right].
  intros [Hn|?]; [by apply elem_of_nil in Hn | done].
Qed.

Section DocumentGraph.
Context (doc : OpenAPIDocument).
Context (Hnames : NoDup (schemaNames doc)).

Lemma documentSchemas_get a :
  (documentSchemas doc ≫= JsMap.get a) = JsMap.get a (default [] (documentSchemas doc)).
Proof. by destruct (documentSchemas doc). Qed.

Lemma graph_get a :
  JsMap.get a (buildSchemaDependencyGraph doc)
  = getSchemaRefs <$> (documentSchemas doc ≫= JsMap.get a).
Proof.
  rewrite buildSchemaDependencyGraph_eq by done.
  by rewrite (get_fmap getSchemaRefs), documentSchemas_get.
Qed.

Lemma graph_keys : JsMap.keys (buildSchemaDependencyGraph doc) = schemaNames doc.
Proof.
  rewrite buildSchemaDependencyGraph_eq by done. apply (keys_fmap getSchemaRefs).
Qed.

Lemma graph_edge a b : edge (buildSchemaDependencyGraph doc) a b ↔ refersTo doc a b.
Proof.
  unfold edge, dependenciesOf, refersTo. rewrite graph_get.
  destruct (documentSchemas doc ≫= JsMap.get a) as [s|]; simpl.
  - destruct (processSchema_spec s [] NoDup_nil_2) as [_ Hin].
    unfold getSchemaRefs. rewrite Hin. setoid_rewrite refName_Some. split.
    + intros [Hb|(s' & ? & ?)]; [by apply elem_of_nil in Hb | by exists s, s'].
    + intros (? & s' & [= <-] & ? & ?). right. by exists s'.
  - split; [by intros ?%elem_of_nil | by intros (? & ? & [=] & _)].
Qed.
End DocumentGraph.

(** X4. For a document whose schema names are distinct, the dependency
    graph has the schema names as its keys, in the order of the document,
    and the dependencies of a schema are the references collected by
    [getSchemaRefs]: the parent classes, which are added to them, are among
    them already. So [a] depends on [b] exactly when the schema [a] holds
    a reference to [b]. *)
Theorem buildSchemaDependencyGraph_entries (doc : OpenAPIDocument) :
  NoDup (schemaNames doc) →
  JsMap.keys (buildSchemaDependencyGraph doc) = schemaNames doc ∧
  (∀ name s, (documentSchemas doc ≫= JsMap.get name) = Some s →
             JsMap.get name (buildSchemaDependencyGraph doc) = Some (getSchemaRefs s)) ∧
  ∀ a b, edge (buildSchemaDependencyGraph doc) a b ↔ refersTo doc a b.
Proof.
  intros Hnames. split_and!.
  - by apply graph_keys.
  - intros name s Hs. by rewrite graph_get, Hs.
  - by apply graph_edge.
Qed.

Lemma petStore_names : NoDup (schemaNames petStore).
Proof. vm_compute. apply NoDup_ListNoDup. repeat constructor; set_solver. Qed.

(** [buildSchemaDependencyGraph_entries] on the document of [Pet] and [Dog]. *)
Lemma buildSchemaDependencyGraph_entries_witness :
  JsMap.keys (buildSchemaDependencyGraph petStore) = schemaNames petStore ∧
  (∀ name s, (documentSchemas petStore ≫= JsMap.get name) = Some s →
             JsMap.get name (buildSchemaDependencyGraph petStore) = Some (getSchemaRefs s)) ∧
  ∀ a b, edge (buildSchemaDependencyGraph petStore) a b ↔ refersTo petStore a b.
Proof. apply (buildSchemaDependencyGraph_entries petStore), petStore_names. Defined.

(** X5. The sorter returns on every graph, whatever its cycles, and the
    names it returns are those the graph mentions: every key, and every
    dependency of a key, also one that is not a key itself. *)
Theorem sortSchemasByDependency_mentioned (graph : Graph) :
  ∃ out, sortSchemasByDependency graph = Some out ∧
    ∀ name, name ∈ out ↔
            name ∈ JsMap.keys graph ∨ ∃ key, name ∈ dependenciesOf graph key.
Proof.
  destruct (sortSchemasByDependency_spec graph) as (out & cyc & Hout & Hm & _).
  exists out. split; [done|]. intros name. by rewrite Hm.
Qed.

(** X6. When no schema lists itself among its dependencies, no name is
    returned twice, also when the graph has cycles or mentions names that
    are not keys. *)
Theorem sortSchemasByDependency_NoDup (graph : Graph) :
  noSelfDependency graph →
  ∃ out, sortSchemasByDependency graph = Some out ∧ NoDup out.
Proof.
  intros Hself.
  destruct (sortSchemasByDependency_spec graph) as (out & cyc & Hout & _ & _ & _ & Hnd).
  exists out. split; [done | by apply Hnd].
Qed.

Lemma graphCycleLeaf_noSelf : noSelfDependency graphCycleLeaf.
Proof. intros a H. edge_cases H. Qed.

(** [sortSchemasByDependency_NoDup] on a graph with the cycle [X <-> A]. *)
Lemma sortSchemasByDependency_NoDup_witness :
  ∃ out, sortSchemasByDependency graphCycleLeaf = Some out ∧ NoDup out.
Proof. apply (sortSchemasByDependency_NoDup graphCycleLeaf), graphCycleLeaf_noSelf. Defined.

Lemma tc_iff {A} (R1 R2 : relation A) x y :
  (∀ a b, R1 a b → R2 a b) → tc R1 x y → tc R2 x y.
Proof.
  intros Hsub. induction 1 as [x y H|x y z H _ IH].
  - apply tc_once. by apply Hsub.
  - eapply tc_l; [by apply Hsub | done].
Qed.

(** X7. The order in which the generator processes the schemas of a
    document. When the schema names are distinct, every reference found in
    a schema names a schema of the document, and the references form no
    cycle, the sorted list of the document's graph is a permutation of the
    schema names in which every schema comes after each schema it refers
    to. *)
Theorem schemas_in_reference_order (doc : OpenAPIDocument) :
  NoDup (schemaNames doc) →
  (∀ a b, refersTo doc a b → b ∈ schemaNames doc) →
  (∀ a, ¬ tc (refersTo doc) a a) →
  ∃ out, sortSchemasByDependency (buildSchemaDependencyGraph doc) = Some out ∧
    out ≡ₚ schemaNames doc ∧
    ∀ a b, refersTo doc a b → precedes out b a.
Proof.
  intros Hnames Hclosed Hacyclic.
  set (g := buildSchemaDependencyGraph doc).
  assert (∀ a b, edge g a b ↔ refersTo doc a b) as Hedge by (by apply graph_edge).
  assert (JsMap.keys g = schemaNames doc) as Hkeys by (by apply graph_keys).
  assert (∀ a, ¬ tc (edge g) a a) as Hacyclic'.
  { intros a Ha. apply (Hacyclic a). revert Ha. apply tc_iff. intros ??. by apply Hedge. }
  destruct (sortSchemasByDependency_spec g) as (out & cyc & Hout & Hm & Hcyc & Hdeps & Hnd).
  exists out. split_and!; [done| |].
  - apply NoDup_Permutation; [|done|].
    + apply Hnd. intros a Ha. apply (Hacyclic' a). by apply tc_once.
    + intros x. rewrite Hm. unfold mentioned. rewrite Hkeys. split; [|by left].
      intros [Hx|[u Hu]]; [done|]. eapply Hclosed. by apply Hedge.
  - intros a b Hab%Hedge.
    assert (a ∈ out) as Hin.
    { apply Hm. left. by eapply edge_key. }
    destruct (indexOf_elem a out Hin) as [j Hj].
    destruct (indexOf_split a out j Hj) as (l1 & l2 & -> & _ & Hl1).
    apply precedes_split; [done|].
    eapply Hdeps; [done | | done].
    intros (c & _ & Hc)%Hcyc. by apply (Hacyclic' c).
Qed.

Lemma petStore_graph :
  buildSchemaDependencyGraph petStore = [("Pet", []); ("Dog", ["Pet"])].
Proof. by vm_compute. Qed.

Lemma petStore_refersTo a b : refersTo petStore a b → a = "Dog" ∧ b = "Pet".
Proof.
  intros H%(graph_edge petStore petStore_names). rewrite petStore_graph in H.
  by edge_cases H.
Qed.

(** [schemas_in_reference_order] on the document of [Pet] and [Dog]. *)
Lemma schemas_in_reference_order_witness :
  ∃ out, sortSchemasByDependency (buildSchemaDependencyGraph petStore) = Some out ∧
    out ≡ₚ schemaNames petStore ∧
    ∀ a b, refersTo petStore a b → precedes out b a.
Proof.
  apply (schemas_in_reference_order petStore).
  - apply petStore_names.
  - intros a b [_ ->]%petStore_refersTo. vm_compute. set_solver.
  - intros a (b & [-> ->]%petStore_refersTo & Hrest)%tc_first.
    apply rtc_inv in Hrest as [[=]|(c & [[=] _]%petStore_refersTo & _)].
Defined.

(** ** References, top-level enums and the properties of a child *)

Section ResolveFacts.
Implicit Types (doc : OpenAPIDocument) (ref name : string) (s : OpenAPISchema).

Lemma withTitle_withTitle s name name' :
  Schema.withTitle (Schema.withTitle s name') name = Schema.withTitle s name.
Proof. done. Qed.

Lemma resolveRef_truthy ref doc s : resolveRef ref doc = Some s → truthy (Some ref) = true.
Proof.
  unfold resolveRef. destruct (startsWith ref refPrefix) eqn:Hp; [|done].
  intros _. by destruct ref.
Qed.
End ResolveFacts.

(** X8. [resolveRef] resolves the references [#/components/schemas/name]
    whose [name] the document declares or is the name of a member that the
    schemas object inherits from [Object.prototype], and no other reference.
    For a declared name it returns the declared schema, up to its title; for
    an inherited member, which is found only when no schema is declared
    under that name, it returns that member, which has no field of a
    schema. *)
Theorem resolveRef_found (ref : string) (doc : OpenAPIDocument) :
  (∀ resolved, resolveRef ref doc = Some resolved →
     ∃ name, ref = refPrefix +:+ name ∧
       ((∃ s, (documentSchemas doc ≫= JsMap.get name) = Some s ∧
              Schema.withTitle resolved name = Schema.withTitle s name) ∨
        ((documentSchemas doc ≫= JsMap.get name) = None ∧
         name ∈ prototypeMembers ∧ resolved = Schema.empty))) ∧
  (∀ name, ref = refPrefix +:+ name →
     is_Some (documentSchemas doc ≫= JsMap.get name) ∨
     (is_Some (documentSchemas doc) ∧ name ∈ prototypeMembers) →
     is_Some (resolveRef ref doc)).
Proof.
  split.
  - intros resolved Hres. exists (replace ref refPrefix "").
    assert (startsWith ref refPrefix = true) as Hp.
    { unfold resolveRef in Hres. by destruct (startsWith ref refPrefix). }
    split; [by apply refPrefix_name|].
    pose proof Hres as (s & Hs & Hcopy)%resolveRef_Some.
    pose proof Hs as [Hown|(_ & Hno & Hin & ->)]%lookupSchema_Some.
    + left. exists s. split; [done|]. by destruct Hcopy as [->| ->].
    + right. split_and!; [done..|].
      unfold resolveRef in Hres. rewrite Hp, Hs in Hres. by injection Hres as <-.
  - intros name -> Hname. destruct (name_refPrefix name) as [Hp Hrep].
    destruct (resolveRef (refPrefix +:+ name) doc) eqn:Hres; [done|].
    apply resolveRef_None in Hres as [Hres|Hres]; [congruence|].
    rewrite Hrep in Hres. apply lookupSchema_None in Hres as [Hno Hproto].
    destruct Hname as [[s Hs]|[Hsome Hin]]; [congruence|].
    by destruct (Hproto Hsome).
Qed.

Lemma foldl_ext {A B} (f g : B → A → B) (l : list A) : ∀ b,
  (∀ b a, f b a = g b a) → foldl f b l = foldl g b l.
Proof.
  induction l as [|a l IH]; intros b Hfg; simpl; [done|]. rewrite Hfg. by apply IH.
Qed.

Section Enums.
Implicit Types (h : Arrays.t) (doc : OpenAPIDocument).

(** The entry that [getEnums] makes for a schema, if any. *)
Lemma getEnums_fold h (step : string * OpenAPISchema → option (string * nat))
    (l : list (string * OpenAPISchema)) : ∀ (enums : list (string * nat)),
  (∀ kv e, step kv = Some e → e.1 = kv.1) →
  NoDup (enums.*1 ++ l.*1) →
  foldl (λ enums kv, match step kv with
                     | Some e => JsMap.set e.1 e.2 enums
                     | None => enums
                     end) enums l
  = enums ++ omap step l.
Proof.
  intros enums Hstep. revert enums.
  induction l as [|kv l IH]; intros enums Hnd; simpl; [by rewrite app_nil_r|].
  simpl in Hnd. apply NoDup_app in Hnd as (Hg & Hdisj & [Hk Hl]%NoDup_cons).
  destruct (step kv) as [[k loc]|] eqn:Hkv; simpl.
  - apply Hstep in Hkv. simpl in Hkv. subst k.
    rewrite set_fresh by (intros Hin; eapply Hdisj; [done | by left]).
    rewrite IH; [by rewrite <-app_assoc|].
    rewrite fmap_app. simpl. apply NoDup_app. split_and!; [|set_solver|done].
    apply NoDup_app. split_and!; [done | | apply NoDup_singleton].
    intros x Hx ->%list_elem_of_singleton. eapply Hdisj; [done | by left].
  - apply IH. apply NoDup_app. split_and!; [done | | done].
    intros x Hx Hx'. eapply Hdisj; [done | by right].
Qed.
End Enums.

(** X9. For a document whose schema names are distinct, [getEnums] lists
    the schemas of type [string] with a non-empty [enum], in the order of
    the document, each with its own array. *)
Theorem getEnums_entries (h : Arrays.t) (doc : OpenAPIDocument) :
  NoDup (schemaNames doc) →
  getEnums h doc
  = omap (λ kv : string * OpenAPISchema,
            if isEnumSchema h kv.2 then (λ loc, (kv.1, loc)) <$> Schema.enum kv.2 else None)
         (default [] (documentSchemas doc)).
Proof.
  unfold schemaNames, getEnums. destruct (documentSchemas doc) as [l|]; simpl; [|done].
  intros Hnd.
  set (step := λ kv : string * OpenAPISchema,
         if isEnumSchema h kv.2 then (λ loc, (kv.1, loc)) <$> Schema.enum kv.2 else None).
  etrans; [|apply (getEnums_fold h step l [])]; [| |done].
  - apply foldl_ext. intros enums kv. unfold step.
    by destruct (Schema.enum kv.2), (isEnumSchema h kv.2).
  - intros kv e. unfold step.
    destruct (isEnumSchema h kv.2), (Schema.enum kv.2); simpl; [|done..]. by intros [= <-].
Qed.

Lemma orderDocument_names : NoDup (schemaNames orderDocument).
Proof. vm_compute. apply NoDup_ListNoDup. repeat constructor; set_solver. Qed.

(** [getEnums_entries] on the document of [Status] and [Order]. *)
Lemma getEnums_entries_witness :
  getEnums statusArrays orderDocument
  = omap (λ kv : string * OpenAPISchema,
            if isEnumSchema statusArrays kv.2
            then (λ loc, (kv.1, loc)) <$> Schema.enum kv.2 else None)
         (default [] (documentSchemas orderDocument)).
Proof. apply (getEnums_entries statusArrays orderDocument), orderDocument_names. Defined.

Section NonParent.
Context (doc : OpenAPIDocument).
#[local] Arguments truthy : simpl never.

(** The names that the loop over [allOf] collects in [parentProps]. *)
Lemma parentProps_spec (subs : list OpenAPISchema) (k : string) :
  k ∈ foldl (λ acc sub,
               match Schema.ref sub with
               | Some r =>
                 if truthy (Some r) then
                   match resolveRef r doc with
                   | Some refSchema =>
                     match Schema.properties refSchema with
                     | Some ps => foldl (λ a k, setAdd k a) acc (JsMap.keys ps)
                     | None => acc
                     end
                   | None => acc
                   end
                 else acc
               | None => acc
               end) [] subs
  ↔ inheritedProperty doc subs k.
Proof.
  set (Q := λ (sub : OpenAPISchema) (x : string),
         ∃ ref parent ps, Schema.ref sub = Some ref ∧ resolveRef ref doc = Some parent ∧
           Schema.properties parent = Some ps ∧ x ∈ JsMap.keys ps).
  match goal with |- _ ∈ foldl ?f _ _ ↔ _ =>
    destruct (foldl_refs f Q subs) with (refs := @nil string) as [_ Hin]
  end.
  - apply Forall_forall. intros sub _ refs Hnd.
    destruct (Schema.ref sub) as [r|] eqn:Hr; [|by split; [|unfold Q; naive_solver]].
    destruct (truthy (Some r)) eqn:Ht.
    + destruct (resolveRef r doc) as [parent|] eqn:Hres; [|by split; [|unfold Q; naive_solver]].
      destruct (Schema.properties parent) as [ps|] eqn:Hps;
        [|by split; [|unfold Q; naive_solver]].
      destruct (foldl_refs (λ a k, setAdd k a) (λ k x, x = k) (JsMap.keys ps))
        with (refs := refs) as [Hnd' Hin']; [|done|].
      { apply Forall_forall. intros k' _ refs' Hnd'. by apply setAdd_spec. }
      split; [done|]. intros x. rewrite Hin'. unfold Q. naive_solver.
    + split; [done|]. intros x. split; [by left|].
      intros [?|(ref & parent & ps & Href & Hres%resolveRef_truthy & _)]; [done|].
      rewrite Hr in Href. injection Href as <-. congruence.
  - constructor.
  - rewrite Hin. unfold inheritedProperty, Q. split.
    + intros [Hk|(sub & ? & r & parent & ps & ?)]; [by apply elem_of_nil in Hk|].
      exists sub, r, parent, ps. naive_solver.
    + intros (sub & r & parent & ps & ? & ?). right. exists sub. split; [done|].
      by exists r, parent, ps.
Qed.
End NonParent.

(** X10. [getNonParentProperties] returns a schema without [allOf] as it
    is, and it fails exactly on a schema whose [allOf] is empty, the last
    member of which it reads. *)
Theorem getNonParentProperties_empty_allOf (schema : OpenAPISchema) (doc : OpenAPIDocument) :
  (Schema.allOf schema = None → getNonParentProperties schema doc = Some schema) ∧
  (getNonParentProperties schema doc = None ↔ Schema.allOf schema = Some []).
Proof.
  unfold getNonParentProperties. destruct (Schema.allOf schema) as [subs|]; [|done].
  split; [done|]. destruct (last subs) as [lastSub|] eqn:Hlast; simpl.
  - split; [done|]. by intros [= ->].
  - apply last_None in Hlast as ->. done.
Qed.

(** X11. Of a schema with a non-empty [allOf], [getNonParentProperties]
    returns an object schema with the properties of the last member of
    [allOf], less those that a schema referenced from [allOf] declares
    itself. Only the referenced schemas are looked at, not what they
    inherit in their turn. *)
Theorem getNonParentProperties_own (schema : OpenAPISchema) (doc : OpenAPIDocument)
    (subs : list OpenAPISchema) (lastSub : OpenAPISchema) :
  Schema.allOf schema = Some subs → last subs = Some lastSub →
  ∃ kept,
    getNonParentProperties schema doc
    = Some (Schema.mk (Some "object") None None None None None None None
                      (Some kept) None None None None None) ∧
    ∀ kv, kv ∈ kept ↔
          kv ∈ default [] (Schema.properties lastSub) ∧ ¬ inheritedProperty doc subs kv.1.
Proof.
  intros Hsubs Hlast. unfold getNonParentProperties. rewrite Hsubs, Hlast. simpl.
  eexists. split; [done|]. intros kv. rewrite list_elem_of_filter, parentProps_spec.
  naive_solver.
Qed.

(** [getNonParentProperties_own] on [Dog], composed from [Pet] and [breed]. *)
Lemma getNonParentProperties_own_witness :
  ∃ kept,
    getNonParentProperties dog petStore
    = Some (Schema.mk (Some "object") None None None None None None None
                      (Some kept) None None None None None) ∧
    ∀ kv, kv ∈ kept ↔
          kv ∈ default [] (Schema.properties (object [("breed", primitive "string")] [])) ∧
          ¬ inheritedProperty petStore
              [reference "#/components/schemas/Pet"; object [("breed", primitive "string")] []]
              kv.1.
Proof.
  apply (getNonParentProperties_own dog petStore
           [reference "#/components/schemas/Pet"; object [("breed", primitive "string")] []]
           (object [("breed", primitive "string")] [])); reflexivity.
Defined.

(** ** Decorators *)

Section Decorators.
Implicit Types (schema : OpenAPISchema) (propertyName : string).

Lemma includes_false_ne (s sub other : string) :
  includes other sub = false → includes s sub = true → s ≠ other.
Proof. intros Hother Hs ->. congruence. Qed.

Lemma nameDecorator_not_optional lower d :
  nameDecorator lower = Some d → d ≠ "@IsOptional()".
Proof.
  unfold nameDecorator.
  repeat (match goal with
          | |- context [if ?b then _ else _] => destruct b
          end; [by intros [= <-]|]).
  done.
Qed.

Lemma typed_not_optional schema propertyName :
  nameDecorator (toLowerCase propertyName) = None →
  "@IsOptional()" ∉ generateDecorators schema propertyName true.
Proof.
  intros Hname. unfold generateDecorators. rewrite Hname.
  repeat match goal with
         | |- _ ∉ (if ?b then _ else _) => destruct b
         end;
    rewrite ?not_elem_of_app; repeat split;
    repeat match goal with
           | |- _ ∉ (if ?b then _ else _) => destruct b
           | |- _ ∉ [if ?b then _ else _] => destruct b
           | |- _ ∉ from_option _ _ ?o => destruct o as [?|]; cbn [from_option]
           | |- _ ∉ formatDecorator _ => unfold formatDecorator
           end;
    cbv [String.append];
    rewrite ?elem_of_cons, ?elem_of_nil; intros H; repeat destruct H as [H|H];
    try discriminate; done.
Qed.
End Decorators.

(** X12. The decorators of an optional property are [@IsOptional()]
    followed by the decorators that the property has when it is required,
    and [@IsOptional()] is none of the latter. *)
Theorem generateDecorators_optional (schema : OpenAPISchema) (propertyName : string) :
  generateDecorators schema propertyName false
  = "@IsOptional()" :: generateDecorators schema propertyName true ∧
  "@IsOptional()" ∉ generateDecorators schema propertyName true.
Proof.
  split.
  - unfold generateDecorators.
    repeat match goal with
           | |- context [match ?o with Some _ => _ | None => _ end] => destruct o
           | |- context [if ?b then _ else _] => destruct b
           end; reflexivity.
  - destruct (nameDecorator (toLowerCase propertyName)) as [d|] eqn:Hname.
    + unfold generateDecorators. rewrite Hname. simpl.
      intros <-%list_elem_of_singleton. by eapply nameDecorator_not_optional.
    + by apply typed_not_optional.
Qed.

(** What [generateDecorators] returns for a property whose name contains
    [email], in any letter case: [@IsEmail()] after [@IsOptional()], whatever
    the schema is. *)
Lemma generateDecorators_email (schema : OpenAPISchema) (propertyName : string)
    (isRequired : bool) :
  includes (toLowerCase propertyName) "email" = true →
  generateDecorators schema propertyName isRequired
  = (if isRequired then [] else ["@IsOptional()"]) ++ ["@IsEmail()"].
Proof.
  intros Hemail. unfold generateDecorators, nameDecorator.
  rewrite decide_False by (by apply (includes_false_ne _ "email")).
  rewrite decide_False by (by apply (includes_false_ne _ "email")).
  by rewrite Hemail, orb_true_r.
Qed.

(** ** Parents and merged properties *)

Section ForOfFacts.
Context {A S : Type}.
Implicit Types (body : A → S → option S) (l : list A).

(** A loop does not return when the iteration for one of its elements
    does not. *)
Lemma forOf_None body l x :
  x ∈ l → (∀ s, body x s = None) → ∀ s, forOf body l s = None.
Proof.
  induction l as [|a l IH]; [by intros ?%elem_of_nil|].
  intros [->|Hx]%elem_of_cons Hbody s; simpl.
  - by rewrite Hbody.
  - destruct (body a s); [by apply IH | done].
Qed.

(** What a loop that returns has done for each of its elements. *)
Lemma forOf_steps body (R : relation S) `{!PreOrder R} l :
  (∀ x s s', body x s = Some s' → R s s') →
  ∀ s0 s', forOf body l s0 = Some s' →
    R s0 s' ∧ ∀ x, x ∈ l → ∃ s1 s2, body x s1 = Some s2 ∧ R s2 s'.
Proof.
  intros Hstep. induction l as [|a l IH]; intros s0 s'; simpl.
  - intros [= <-]. split; [done|]. by intros x ?%elem_of_nil.
  - destruct (body a s0) as [s1|] eqn:Ha; [|done]. intros [HR Hl]%IH.
    split; [by etrans; [eapply Hstep|]|].
    intros x [->|Hx]%elem_of_cons; [by exists s0, s1 | by apply Hl].
Qed.

Lemma forOf_ext_elem body body' l :
  (∀ x s, x ∈ l → body x s = body' x s) → ∀ s, forOf body l s = forOf body' l s.
Proof.
  induction l as [|a l IH]; intros Hext s; simpl; [done|].
  rewrite Hext by (by left). destruct (body' a s); [|done].
  apply IH. intros x s' Hx. apply Hext. by right.
Qed.

(** A loop returns when each of its iterations does. *)
Lemma forOf_total body l :
  (∀ x s, x ∈ l → is_Some (body x s)) → ∀ s, is_Some (forOf body l s).
Proof.
  induction l as [|a l IH]; intros Hbody s; simpl; [done|].
  destruct (Hbody a s) as [s' ->]; [by left|]. apply IH. intros x s'' Hx. apply Hbody. by right.
Qed.
End ForOfFacts.

Section Assign.
Context {V : Type}.
Implicit Types (target source : list (string * V)) (k : string) (v : V).

Lemma keys_assign target source k :
  k ∈ JsMap.keys (assign target source) ↔ k ∈ JsMap.keys target ∨ k ∈ JsMap.keys source.
Proof.
  unfold assign. revert target.
  induction source as [|[k' v'] source IH]; intros target; simpl.
  - change (JsMap.keys (@nil (string * V))) with (@nil string).
    rewrite elem_of_nil. naive_solver.
  - change (JsMap.keys ((k', v') :: source)) with (k' :: JsMap.keys source).
    rewrite IH, keys_set, elem_of_cons.
    case_decide as Hk'; [|rewrite elem_of_app, list_elem_of_singleton]; naive_solver.
Qed.


End Assign.

Section Merge.
Context (doc : OpenAPIDocument).
Implicit Types (s schema parent : OpenAPISchema) (fuel : nat).
#[local] Arguments truthy : simpl never.

(** The body of the loop over [allOf] in [mergeParentProperties], the
    recursive calls having [fuel]. *)
#[local] Abbreviation mergeStep fuel :=
  (λ (subSchema : OpenAPISchema) (merged : list (string * OpenAPISchema) * list string),
     if truthy (Schema.ref subSchema) then
       match resolveRef (default "" (Schema.ref subSchema)) doc with
       | Some parentSchema =>
         parent ← mergeParentProperties fuel parentSchema doc;
         Some (assign merged.1 parent.1, merged.2 ++ parent.2)
       | None => Some merged
       end
     else
       Some (assign merged.1 (default [] (Schema.properties subSchema)),
             merged.2 ++ default [] (Schema.required subSchema))).

Lemma mergeParentProperties_S fuel schema :
  mergeParentProperties (S fuel) schema doc
  = merged ← match Schema.allOf schema with
             | None => Some ([], [])
             | Some subs => forOf (mergeStep fuel) subs ([], [])
             end;
    Some (assign merged.1 (default [] (Schema.properties schema)),
          uniq (merged.2 ++ default [] (Schema.required schema))).
Proof. done. Qed.

Lemma mergeStep_parent fuel sub ref parent merged :
  Schema.ref sub = Some ref → resolveRef ref doc = Some parent →
  mergeStep fuel sub merged
  = parent ← mergeParentProperties fuel parent doc;
    Some (assign merged.1 parent.1, merged.2 ++ parent.2).
Proof.
  intros Href Hres. cbv beta. rewrite Href. rewrite (resolveRef_truthy _ _ _ Hres).
  change (default "" (Some ref)) with ref. by rewrite Hres.
Qed.

(** Along an endless chain of parents the recursion never ends. *)
Lemma mergeParentProperties_endless (endless : OpenAPISchema → Prop) :
  (∀ s, endless s → ∃ parent, inheritsFrom doc s parent ∧ endless parent) →
  ∀ fuel s, endless s → mergeParentProperties fuel s doc = None.
Proof.
  intros Hclosed. induction fuel as [|fuel IH]; intros s Hs; [done|].
  destruct (Hclosed s Hs)
    as (parent & (subs & sub & ref & Hsubs & Hsub & Href & Hres) & Hparent).
  rewrite mergeParentProperties_S, Hsubs.
  rewrite (forOf_None _ subs sub); [done | done |].
  intros merged. rewrite (mergeStep_parent fuel sub ref parent) by done.
  by rewrite (IH parent Hparent).
Qed.

(** More fuel than is needed changes nothing, and it is needed only for
    the parents. *)
Lemma mergeParentProperties_parents schema (N : nat) :
  (∀ parent, inheritsFrom doc schema parent →
     ∃ result, ∀ fuel, N ≤ fuel → mergeParentProperties fuel parent doc = Some result) →
  ∃ result, ∀ fuel, S N ≤ fuel → mergeParentProperties fuel schema doc = Some result.
Proof.
  intros Hparents.
  assert (∀ fuel, N ≤ fuel →
            mergeParentProperties (S fuel) schema doc
            = mergeParentProperties (S N) schema doc) as Hsame.
  { intros fuel Hfuel. rewrite !mergeParentProperties_S.
    destruct (Schema.allOf schema) as [subs|] eqn:Hsubs; [|done].
    rewrite (forOf_ext_elem (mergeStep fuel) (mergeStep N) subs); [done|].
    intros sub merged Hsub. destruct (Schema.ref sub) as [ref|] eqn:Href; [|done].
    destruct (truthy (Some ref)); [|done]. change (default "" (Some ref)) with ref.
    destruct (resolveRef ref doc) as [parent|] eqn:Hres; [|done].
    destruct (Hparents parent) as [result Hresult]; [by exists subs, sub, ref|].
    by rewrite !Hresult by lia. }
  assert (is_Some (mergeParentProperties (S N) schema doc)) as [result Hresult].
  { rewrite mergeParentProperties_S.
    destruct (Schema.allOf schema) as [subs|] eqn:Hsubs; [|done].
    destruct (forOf_total (mergeStep N) subs) with (s := (@nil (string * OpenAPISchema), @nil string))
      as [merged ->]; [|done].
    intros sub merged Hsub. destruct (Schema.ref sub) as [ref|] eqn:Href; [|done].
    destruct (truthy (Some ref)); [|done]. change (default "" (Some ref)) with ref.
    destruct (resolveRef ref doc) as [parent|] eqn:Hres; [|done].
    destruct (Hparents parent) as [result Hresult]; [by exists subs, sub, ref|].
    by rewrite Hresult by lia. }
  exists result. intros [|fuel] Hfuel; [lia|]. rewrite Hsame by lia. done.
Qed.

(** The parents that [inheritsFrom] relates to a schema are finitely
    many, so one bound serves them all. *)
Lemma parents_bound schema :
  (∀ parent, inheritsFrom doc schema parent →
     ∃ N result, ∀ fuel, N ≤ fuel → mergeParentProperties fuel parent doc = Some result) →
  ∃ N, ∀ parent, inheritsFrom doc schema parent →
     ∃ result, ∀ fuel, N ≤ fuel → mergeParentProperties fuel parent doc = Some result.
Proof.
  intros Hparents. destruct (Schema.allOf schema) as [subs|] eqn:Hsubs.
  - assert (∀ l, l ⊆ subs → ∃ N, ∀ sub ref parent,
              sub ∈ l → Schema.ref sub = Some ref → resolveRef ref doc = Some parent →
              ∃ result, ∀ fuel, N ≤ fuel → mergeParentProperties fuel parent doc = Some result)
      as Hall.
    { induction l as [|a l IH]; intros Hl.
      - exists 0. by intros sub ref parent ?%elem_of_nil.
      - destruct IH as [N HN]; [set_solver|].
        destruct (Schema.ref a) as [ref|] eqn:Href;
          [destruct (resolveRef ref doc) as [parent|] eqn:Hres|].
        + destruct (Hparents parent) as (M & result & Hresult).
          { exists subs, a, ref. split_and!; [done | apply Hl; by left | done..]. }
          exists (N `max` M). intros sub ref' parent' [->|Hsub]%elem_of_cons Href' Hres'.
          * simplify_eq. exists result. intros fuel Hfuel. apply Hresult. lia.
          * destruct (HN sub ref' parent' Hsub Href' Hres') as [result' Hresult'].
            exists result'. intros fuel Hfuel. apply Hresult'. lia.
        + exists N. intros sub ref' parent' [->|Hsub]%elem_of_cons Href' Hres';
            [congruence | by eapply HN].
        + exists N. intros sub ref' parent' [->|Hsub]%elem_of_cons Href' Hres';
            [congruence | by eapply HN]. }
    destruct (Hall subs) as [N HN]; [done|]. exists N.
    intros parent (subs' & sub & ref & Hsubs' & Hsub & Href & Hres).
    simplify_eq. by eapply HN.
  - exists 0. intros parent (subs' & sub & ref & Hsubs' & _). congruence.
Qed.
End Merge.

(** X14. [mergeParentProperties] does not return for a schema from which
    the references in [allOf] lead on without end, as they do around a
    cycle of schemas that inherit from each other: whatever the bound on
    the depth of its calls, it is reached. *)
Theorem mergeParentProperties_inheritance_cycle (doc : OpenAPIDocument)
    (endless : OpenAPISchema → Prop) (schema : OpenAPISchema) :
  (∀ s, endless s → ∃ parent, inheritsFrom doc s parent ∧ endless parent) →
  endless schema →
  ∀ fuel, mergeParentProperties fuel schema doc = None.
Proof.
  intros Hclosed Hschema fuel. by apply (mergeParentProperties_endless doc endless).
Qed.

Lemma node_inheritsFrom : inheritsFrom nodeDocument node node.
Proof.
  exists [reference "#/components/schemas/Node"; object [("next", primitive "string")] []],
         (reference "#/components/schemas/Node"), "#/components/schemas/Node".
  split_and!; [done | by left | done | by vm_compute].
Qed.

(** [mergeParentProperties_inheritance_cycle] on [Node], which inherits
    from itself. *)
Lemma mergeParentProperties_inheritance_cycle_witness :
  mergeParentProperties 1000 node nodeDocument = None.
Proof.
  apply (mergeParentProperties_inheritance_cycle nodeDocument (λ s, s = node) node).
  - intros s ->. exists node. split; [apply node_inheritsFrom | done].
  - done.
Defined.

(** X15. [mergeParentProperties] returns for a schema from which every
    chain of references in [allOf] ends: with enough fuel it has a result,
    which more fuel does not change. *)
Theorem mergeParentProperties_returns (doc : OpenAPIDocument) (schema : OpenAPISchema) :
  Acc (λ parent s, inheritsFrom doc s parent) schema →
  ∃ bound result, ∀ fuel, bound ≤ fuel → mergeParentProperties fuel schema doc = Some result.
Proof.
  induction 1 as [schema _ IH].
  destruct (parents_bound doc schema IH) as [N HN].
  destruct (mergeParentProperties_parents doc schema N HN) as [result Hresult].
  by exists (S N), result.
Qed.

Lemma pet_Acc : Acc (λ parent s, inheritsFrom petStore s parent) pet.
Proof. constructor. intros parent (subs & sub & ref & [=] & _). Qed.

Lemma dog_Acc : Acc (λ parent s, inheritsFrom petStore s parent) dog.
Proof.
  constructor. intros parent (subs & sub & ref & [= <-] & Hsub & Href & Hres).
  apply elem_of_cons in Hsub as [->|Hsub].
  - injection Href as <-. vm_compute in Hres. injection Hres as <-. apply pet_Acc.
  - apply list_elem_of_singleton in Hsub as ->. done.
Qed.

(** [mergeParentProperties_returns] on [Dog], which inherits from [Pet]. *)
Lemma mergeParentProperties_returns_witness :
  ∃ bound result, ∀ fuel, bound ≤ fuel → mergeParentProperties fuel dog petStore = Some result.
Proof. apply (mergeParentProperties_returns petStore dog), dog_Acc. Defined.

Section Merged.
Context (doc : OpenAPIDocument).
Implicit Types (s schema parent : OpenAPISchema) (fuel : nat).
Implicit Types (merged : list (string * OpenAPISchema) * list string).
#[local] Arguments truthy : simpl never.

#[local] Instance includedIn_preorder : PreOrder includedIn.
Proof. split; [by split | intros ??? [??] [??]; split; naive_solver]. Qed.

Lemma includedIn_assign merged source extra :
  includedIn merged (assign merged.1 source, merged.2 ++ extra).
Proof.
  split; simpl.
  - intros k Hk. apply keys_assign. by left.
  - intros k Hk. apply elem_of_app. by left.
Qed.

Lemma includedIn_source merged source extra :
  includedIn (source, extra) (assign merged.1 source, merged.2 ++ extra).
Proof.
  split; simpl.
  - intros k Hk. apply keys_assign. by right.
  - intros k Hk. apply elem_of_app. by right.
Qed.

#[local] Abbreviation mergeStep fuel :=
  (λ (subSchema : OpenAPISchema) (merged : list (string * OpenAPISchema) * list string),
     if truthy (Schema.ref subSchema) then
       match resolveRef (default "" (Schema.ref subSchema)) doc with
       | Some parentSchema =>
         parent ← mergeParentProperties fuel parentSchema doc;
         Some (assign merged.1 parent.1, merged.2 ++ parent.2)
       | None => Some merged
       end
     else
       Some (assign merged.1 (default [] (Schema.properties subSchema)),
             merged.2 ++ default [] (Schema.required subSchema))).

Lemma mergeStep_includedIn fuel sub merged merged' :
  mergeStep fuel sub merged = Some merged' → includedIn merged merged'.
Proof.
  cbv beta. destruct (truthy (Schema.ref sub)).
  - destruct (resolveRef (default "" (Schema.ref sub)) doc) as [parent|];
      [|by intros; simplify_eq].
    destruct (mergeParentProperties fuel parent doc) as [result|]; [|done].
    simpl. intros; simplify_eq. apply includedIn_assign.
  - intros; simplify_eq. apply includedIn_assign.
Qed.

(** The loop over [allOf] of a call that returns has merged what the call
    for each parent returned. *)
Lemma merge_loop fuel subs merged :
  forOf (mergeStep fuel) subs ([], []) = Some merged →
  ∀ sub ref parent,
    sub ∈ subs → Schema.ref sub = Some ref → resolveRef ref doc = Some parent →
    ∃ result, mergeParentProperties fuel parent doc = Some result ∧ includedIn result merged.
Proof.
  intros Hloop sub ref parent Hsub Href Hres.
  apply (forOf_steps _ includedIn) in Hloop as [_ Hloop];
    [|by apply mergeStep_includedIn].
  destruct (Hloop sub Hsub) as (m1 & m2 & Hstep & Hincl).
  rewrite (mergeStep_parent doc fuel sub ref parent) in Hstep by done.
  destruct (mergeParentProperties fuel parent doc) as [result|]; [|done].
  exists result. split; [done|]. simpl in Hstep. injection Hstep as <-.
  etrans; [|done]. destruct result. apply includedIn_source.
Qed.
End Merged.



(** X17. A schema has, among its merged properties and required names, the
    merged properties and required names of every schema that a reference
    in its [allOf] resolves to: what a class inherits it also declares. *)
Theorem mergeParentProperties_inherited (fuel : nat) (schema parent : OpenAPISchema)
    (doc : OpenAPIDocument) (properties : list (string * OpenAPISchema))
    (required : list string) :
  mergeParentProperties (S fuel) schema doc = Some (properties, required) →
  inheritsFrom doc schema parent →
  ∃ parentProperties parentRequired,
    mergeParentProperties fuel parent doc = Some (parentProperties, parentRequired) ∧
    (∀ k, k ∈ JsMap.keys parentProperties → k ∈ JsMap.keys properties) ∧
    (∀ k, k ∈ parentRequired → k ∈ required).
Proof.
  rewrite mergeParentProperties_S.
  intros Hmerge (subs & sub & ref & Hsubs & Hsub & Href & Hres). rewrite Hsubs in Hmerge.
  destruct (forOf _ subs _) as [merged|] eqn:Hloop; [|done].
  simpl in Hmerge. injection Hmerge as <- <-.
  destruct (merge_loop doc fuel subs merged Hloop sub ref parent Hsub Href Hres)
    as ([parentProperties parentRequired] & Hparent & Hkeys & Hreq).
  exists parentProperties, parentRequired. split_and!; [done| |].
  - intros k Hk. apply keys_assign. left. by apply Hkeys.
  - intros k Hk. apply uniq_elem, elem_of_app. left. by apply Hreq.
Qed.

Lemma dog_inheritsFrom : inheritsFrom petStore dog pet.
Proof.
  exists [reference "#/components/schemas/Pet"; object [("breed", primitive "string")] []],
         (reference "#/components/schemas/Pet"), "#/components/schemas/Pet".
  split_and!; [done | by left | done | by vm_compute].
Qed.

(** [mergeParentProperties_inherited] on [Dog] and its parent [Pet]. *)
Lemma mergeParentProperties_inherited_witness :
  ∃ parentProperties parentRequired,
    mergeParentProperties 1 pet petStore = Some (parentProperties, parentRequired) ∧
    (∀ k, k ∈ JsMap.keys parentProperties →
          k ∈ JsMap.keys [("id", primitive "integer"); ("name", primitive "string");
                          ("breed", primitive "string")]) ∧
    (∀ k, k ∈ parentRequired → k ∈ ["name"]).
Proof.
  apply (mergeParentProperties_inherited 1 dog pet petStore).
  - reflexivity.
  - apply dog_inheritsFrom.
Defined.

Section Parents.
Context (doc : OpenAPIDocument).
Implicit Types (schema : OpenAPISchema) (fuel : nat) (parents : list string).

(** The body of the loop over [allOf] in [getAllParentClasses]. *)
#[local] Abbreviation parentStep fuel :=
  (λ (subSchema : OpenAPISchema) (parents : list string),
     match refName subSchema with
     | Some parentName =>
       match lookupSchema doc parentName with
       | Some parentSchema =>
         more ← getAllParentClasses fuel parentSchema doc;
         Some (parents ++ [parentName] ++ more)
       | None => Some (parents ++ [parentName])
       end
     | None => Some parents
     end).

Lemma getAllParentClasses_S fuel schema :
  getAllParentClasses (S fuel) schema doc
  = parents ← match Schema.allOf schema with
              | None => Some []
              | Some subs => forOf (parentStep fuel) subs []
              end;
    Some (uniq parents).
Proof. done. Qed.

(** The loop pushes the name of each reference, then the parents of the
    schema it names. *)
Lemma parents_loop fuel subs : ∀ acc parents,
  forOf (parentStep fuel) subs acc = Some parents →
  ∃ rest, parents = acc ++ rest ∧
    head rest = head (omap refName subs) ∧
    ∀ name, name ∈ omap refName subs → name ∈ rest.
Proof.
  induction subs as [|sub subs IH]; intros acc parents; simpl.
  - intros [= <-]. exists []. rewrite app_nil_r. split_and!; [done..|].
    by intros name ?%elem_of_nil.
  - destruct (refName sub) as [name|] eqn:Hname; simpl.
    + destruct (lookupSchema doc name) as [parentSchema|].
      * destruct (getAllParentClasses fuel parentSchema doc) as [more|]; simpl; [|done].
        intros (rest & -> & Hhead & Hin)%IH. exists (name :: more ++ rest).
        split_and!; [by rewrite <-!app_assoc | done |].
        intros n [->|Hn]%elem_of_cons; [by left|].
        right. apply elem_of_app. right. by apply Hin.
      * intros (rest & -> & Hhead & Hin)%IH. exists (name :: rest).
        split_and!; [by rewrite <-app_assoc | done |].
        intros n [->|Hn]%elem_of_cons; [by left|]. right. by apply Hin.
    + apply IH.
Qed.
End Parents.

(** X18. The parents that [getAllParentClasses] returns hold no name twice
    and hold the name of every reference among the members of [allOf];
    the first of them, which the class extends, is the name of the first
    such reference. *)
Theorem getAllParentClasses_primary (fuel : nat) (schema : OpenAPISchema)
    (doc : OpenAPIDocument) (parents : list string) :
  getAllParentClasses fuel schema doc = Some parents →
  NoDup parents ∧
  head parents = head (directParents schema) ∧
  ∀ name, name ∈ directParents schema → name ∈ parents.
Proof.
  destruct fuel as [|fuel]; [done|]. rewrite getAllParentClasses_S. unfold directParents.
  destruct (Schema.allOf schema) as [subs|]; simpl.
  - destruct (forOf _ subs []) as [all|] eqn:Hloop; [|done]. simpl. intros [= <-].
    apply parents_loop in Hloop as (rest & -> & Hhead & Hin). simpl.
    split_and!; [apply uniq_NoDup | by rewrite uniq_head |].
    intros name Hname. by apply uniq_elem, Hin.
  - intros [= <-]. split_and!; [constructor | done | done].
Qed.

(** [getAllParentClasses_primary] on [Dog]. *)
Lemma getAllParentClasses_primary_witness :
  NoDup ["Pet"] ∧
  head ["Pet"] = head (directParents dog) ∧
  ∀ name, name ∈ directParents dog → name ∈ ["Pet"].
Proof. apply (getAllParentClasses_primary 2 dog petStore). reflexivity. Defined.

(** ** The properties of a class *)

Section Least.
Implicit Types (used R : gset string) (p : string).

Lemma uniquePropertyNameFrom_least fuel : ∀ p used k R,
  (∀ j, k ≤ j → candidate p j ∈ used → candidate p j ∈ R) →
  size R ≤ fuel →
  ∃ m, k ≤ m ∧
    uniquePropertyNameFrom fuel p used (candidate p k) (S k) = Some (candidate p m) ∧
    (candidate p m ∉ used) ∧ ∀ j, k ≤ j < m → candidate p j ∈ used.
Proof.
  induction fuel as [|fuel IH]; intros p used k R HR Hsize.
  - simpl. case_decide as Hin.
    + apply HR in Hin; [|done].
      assert (R ≡ ∅) as HR0 by (apply size_empty_inv; lia). set_solver.
    + exists k. split_and!; [done..|]. intros j Hj. lia.
  - simpl. case_decide as Hin.
    + destruct (IH p used (S k) (R ∖ {[candidate p k]})) as (m & Hm & Heq & Hfresh & Hused).
      * intros j Hj Hj'. apply elem_of_difference. split; [apply HR; [lia|done]|].
        intros Heq%elem_of_singleton%candidate_inj. lia.
      * assert (candidate p k ∈ R) as HinR by (apply HR; [lia|done]).
        assert (R ∖ {[candidate p k]} ⊂ R) as Hsub%subset_size by set_solver. lia.
      * exists m. split_and!; [lia | done | done |].
        intros j Hj. destruct (decide (j = k)) as [->|Hne]; [done|]. apply Hused. lia.
    + exists k. split_and!; [done..|]. intros j Hj. lia.
Qed.
End Least.

(** X19. The loop that looks for an unused property name ends, whatever
    names are in use: it returns the property name itself when that is not
    in use, and else the name with the least suffix 1, 2, 3, ... that is
    not in use. *)
Theorem uniquePropertyName_least (propertyName : string) (usedProperties : gset string) :
  ∃ k, uniquePropertyName propertyName usedProperties = Some (candidate propertyName k) ∧
    (candidate propertyName k ∉ usedProperties) ∧
    ∀ j, j < k → candidate propertyName j ∈ usedProperties.
Proof.
  destruct (uniquePropertyNameFrom_least (size usedProperties) propertyName usedProperties
              0 usedProperties) as (k & _ & Heq & Hfresh & Hused); [done | lia |].
  exists k. split_and!; [done..|]. intros j Hj. apply Hused. lia.
Qed.

Lemma gen_bind_Some {A B} (m : Gen A) (f : A → Gen B) st r :
  (m ≫= f) st = Some r → ∃ x st1, m st = Some (x, st1) ∧ f x st1 = Some r.
Proof.
  unfold mbind, gen_bind. destruct (m st) as [[x st1]|]; [|done]. intros Hf. by exists x, st1.
Qed.

Lemma lift_Some {A} (o : option A) st x st' : lift o st = Some (x, st') → o = Some x ∧ st' = st.
Proof. unfold lift. destruct o; simpl; [|done]. by intros [= <- <-]. Qed.

Section GenFacts.
Context {A B : Type}.

(** What holds of the accumulator of a loop after so many iterations. *)
Lemma forM_count (body : A → B → Gen B) (I : nat → B → Prop) :
  (∀ x acc st acc' st' n, I n acc → body x acc st = Some (acc', st') → I (S n) acc') →
  ∀ l acc st acc' st' n,
    I n acc → forM body l acc st = Some (acc', st') → I (n + length l) acc'.
Proof.
  intros Hbody. induction l as [|x l IH]; intros acc st acc' st' n Hacc; simpl.
  - intros [= <- <-]. by rewrite Nat.add_0_r.
  - intros (acc1 & st1 & Hx & Hl)%gen_bind_Some.
    rewrite Nat.add_succ_r. apply (IH acc1 st1 acc' st' (S n)); [|done].
    by eapply Hbody.
Qed.
End GenFacts.

(** X20. [generateClassProperties] returns one property text for each of
    the merged properties of the schema, so that a class is left out as
    empty exactly when its schema has no property, inherited ones
    included. *)
Theorem generateClassProperties_count (randomToken : nat → string) (fuel : nat)
    (schema : OpenAPISchema) (required : list string) (doc : OpenAPIDocument)
    (context : string) (st st' : GenState) (result : PropertiesResult) :
  generateClassProperties randomToken (S fuel) schema required doc context st
  = Some (result, st') →
  ∃ merged mergedRequired,
    mergeParentProperties fuel schema doc = Some (merged, mergedRequired) ∧
    length (classProperties result) = length merged.
Proof.
  cbn [generateClassProperties].
  intros ([merged mergedRequired] & st1 & [Hmerge ->]%lift_Some & Hloop)%gen_bind_Some.
  exists merged, mergedRequired. split; [done|].
  apply gen_bind_Some in Hloop as ([res used] & st2 & Hloop & Hret).
  injection Hret as <- <-.
  apply (forM_count _ (λ n (acc : PropertiesResult * gset string),
                         length (classProperties acc.1) = n)) with (n := 0) in Hloop;
    [done | | done].
  intros [k s] acc st0 acc1 st3 n Hn
         ([p used'] & st4 & _ & Hret)%gen_bind_Some.
  injection Hret as <- <-. simpl. rewrite length_app. simpl. lia.
Qed.

(** [generateClassProperties_count] on [Dog], which has three merged
    properties. *)
Lemma generateClassProperties_count_witness :
  ∃ result st',
    generateClassProperties noToken 3 dog [] petStore "Dog" (initGen []) = Some (result, st') ∧
    ∃ merged mergedRequired,
      mergeParentProperties 2 dog petStore = Some (merged, mergedRequired) ∧
      length (classProperties result) = length merged.
Proof.
  destruct (generateClassProperties noToken 3 dog [] petStore "Dog" (initGen []))
    as [[result st']|] eqn:Hrun; [|by vm_compute in Hrun].
  exists result, st'. split; [done|].
  by apply (generateClassProperties_count noToken 2 dog [] petStore "Dog" (initGen []) st').
Defined.

Section Allocators.
Context (randomToken : nat → string).

Lemma getClassNameFromSchemaName_total schemaName st :
  ∃ name st', getClassNameFromSchemaName randomToken schemaName st = Some (name, st').
Proof.
  unfold getClassNameFromSchemaName. rewrite gen_bind_getState.
  destruct (schemaToClassName st !! schemaName); [by eexists _, _|].
  repeat case_decide; [by eexists _, _..|].
  destruct (firstFree _ _ _); by eexists _, _.
Qed.
End Allocators.

Section PrimitiveArray.
Implicit Types (schema items : OpenAPISchema).

Lemma typeIs_other schema name name' :
  Schema.type schema = Some name → name ≠ name' → Schema.typeIs schema name' = false.
Proof.
  intros Htype Hne. unfold Schema.typeIs. rewrite Htype.
  apply bool_decide_eq_false. congruence.
Qed.

Lemma generateDecorators_array schema items propertyName isRequired :
  Schema.type schema = Some "array" → Schema.items schema = Some items →
  nameDecorator (toLowerCase propertyName) = None →
  generateDecorators schema propertyName isRequired
  = (if isRequired then [] else ["@IsOptional()"])
    ++ ["@IsArray()"; "@ValidateNested({ each: true })"; "@Type(() => PLACEHOLDER)"].
Proof.
  intros Htype Hitems Hname. unfold generateDecorators. rewrite Hname.
  rewrite !(typeIs_other schema "array") by done.
  unfold Schema.typeIs. rewrite Htype, Hitems.
  rewrite bool_decide_eq_true_2 by done. by rewrite bool_decide_eq_true_2 by eauto.
Qed.
End PrimitiveArray.

(** X21. A property that is an array of items without properties of their
    own is declared as an array of the type of the items, [any] if that is
    no primitive type, and its decorators are [@IsArray()] and the check
    of each element, without [@ValidateNested] and [@Type]. The class name
    that is looked up for the items, the property name followed by [Item],
    is registered all the same. *)
Theorem generateClassProperty_primitive_array (randomToken : nat → string) (fuel : nat)
    (propertyName : string) (schema items : OpenAPISchema) (required : list string)
    (doc : OpenAPIDocument) (usedProperties : gset string) (context : string)
    (st : GenState) :
  Schema.ref schema = None →
  Schema.type schema = Some "array" →
  Schema.items schema = Some items →
  Schema.ref items = None →
  Schema.properties items = None →
  nameDecorator (toLowerCase propertyName) = None →
  ∃ uniqueName itemClassName st',
    (uniqueName ∉ usedProperties) ∧
    getClassNameFromSchemaName randomToken (propertyName +:+ "Item") st
    = Some (itemClassName, st') ∧
    generateClassProperty randomToken (S fuel) propertyName schema required doc
                          usedProperties context st
    = Some (mkProperty
              (propertyText
                 ((if bool_decide (propertyName ∈ required) then [] else ["@IsOptional()"])
                  ++ "@IsArray()"
                  :: (if Schema.typeIs items "string" then ["@IsString({ each: true })"]
                      else if Schema.typeIs items "number" || Schema.typeIs items "integer"
                      then ["@IsNumber({}, { each: true })"]
                      else if Schema.typeIs items "boolean"
                      then ["@IsBoolean({ each: true })"]
                      else []))
                 (if needsQuotes propertyName
                  then "'" +:+ propertyName +:+ "'" else propertyName)
                 (bool_decide (propertyName ∈ required))
                 (if Schema.typeIs items "string" then "string[]"
                  else if Schema.typeIs items "number" || Schema.typeIs items "integer"
                  then "number[]"
                  else if Schema.typeIs items "boolean" then "boolean[]"
                  else "any[]"))
              [] [],
            usedProperties ∪ {[uniqueName]}, st').
Proof.
  intros Href Htype Hitems Hitemref Hitemprops Hname.
  destruct (uniquePropertyName_fresh propertyName usedProperties) as (u & Hu & Hfresh).
  destruct (getClassNameFromSchemaName_total randomToken (propertyName +:+ "Item") st)
    as (n & st' & Hn).
  exists u, n, st'. split_and!; [done..|].
  cbn [generateClassProperty].
  assert (lift (uniquePropertyName propertyName usedProperties) st = Some (u, st)) as Hlift.
  { unfold lift. by rewrite Hu. }
  rewrite (gen_bind_eq _ _ _ _ _ Hlift). rewrite Href. cbn [truthy].
  rewrite !(typeIs_other schema "array") by done. cbn [orb].
  assert (Schema.typeIs schema "array" = true) as ->.
  { unfold Schema.typeIs. rewrite Htype. by apply bool_decide_eq_true. }
  rewrite Hitems. rewrite (gen_bind_eq _ _ _ _ _ Hn). rewrite Hitemref. cbn [truthy].
  rewrite Hitemprops.
  rewrite (generateDecorators_array schema items) by done.
  unfold simpleArray.
  destruct (bool_decide (propertyName ∈ required));
    destruct (Schema.typeIs items "string");
    [| destruct (Schema.typeIs items "number" || Schema.typeIs items "integer");
       [| destruct (Schema.typeIs items "boolean")] ..];
    reflexivity.
Qed.

(** [generateClassProperty_primitive_array] on a list of tags. *)
Lemma generateClassProperty_primitive_array_witness :
  ∃ uniqueName itemClassName st',
    (uniqueName ∉ (∅ : gset string)) ∧
    getClassNameFromSchemaName noToken ("tags" +:+ "Item") (initGen [])
    = Some (itemClassName, st') ∧
    generateClassProperty noToken 1 "tags" tagList ["tags"] petStore ∅ "Pet" (initGen [])
    = Some (mkProperty
              (propertyText
                 ((if bool_decide ("tags" ∈ ["tags"]) then [] else ["@IsOptional()"])
                  ++ "@IsArray()"
                  :: (if Schema.typeIs (primitive "integer") "string"
                      then ["@IsString({ each: true })"]
                      else if Schema.typeIs (primitive "integer") "number"
                              || Schema.typeIs (primitive "integer") "integer"
                      then ["@IsNumber({}, { each: true })"]
                      else if Schema.typeIs (primitive "integer") "boolean"
                      then ["@IsBoolean({ each: true })"]
                      else []))
                 (if needsQuotes "tags" then "'" +:+ "tags" +:+ "'" else "tags")
                 (bool_decide ("tags" ∈ ["tags"]))
                 (if Schema.typeIs (primitive "integer") "string" then "string[]"
                  else if Schema.typeIs (primitive "integer") "number"
                          || Schema.typeIs (primitive "integer") "integer"
                  then "number[]"
                  else if Schema.typeIs (primitive "integer") "boolean" then "boolean[]"
                  else "any[]"))
              [] [],
            ∅ ∪ {[uniqueName]}, st').
Proof.
  apply (generateClassProperty_primitive_array noToken 0 "tags" tagList (primitive "integer")
           ["tags"] petStore ∅ "Pet" (initGen [])); reflexivity.
Defined.

(** ** What a run keeps *)

Section Grows.
Implicit Types (st : GenState).

#[global] Instance grows_preorder : PreOrder grows.
Proof.
  split.
  - intros st. split; auto.
  - intros st1 st2 st3 H12 H23. split.
    + intros n Hn. by apply (gr_names _ _ H23), (gr_names _ _ H12).
    + intros k n Hk. by apply (gr_classes _ _ H23), (gr_classes _ _ H12).
    + intros n Hn. by apply (gr_enums _ _ H23), (gr_enums _ _ H12).
    + intros k Hk. by apply (gr_classMap _ _ H23), (gr_classMap _ _ H12).
    + pose proof (gr_random _ _ H12). pose proof (gr_random _ _ H23). lia.
    + rewrite (gr_length _ _ H23). apply (gr_length _ _ H12).
    + intros loc.
      destruct (gr_arrays _ _ H23 loc) as [->| ->], (gr_arrays _ _ H12 loc) as [->| ->];
        rewrite ?sort_idempotent; auto.
    + intros Hused. by apply (gr_used _ _ H23), (gr_used _ _ H12).
Qed.

Lemma keeps_ret {A} (x : A) : keeps (mret x).
Proof. intros st y st' [= <- <-]. reflexivity. Qed.

Lemma keeps_diverge {A} : keeps (@diverge A).
Proof. by intros st y st'. Qed.

Lemma keeps_lift {A} (o : option A) : keeps (lift o).
Proof. intros st y st' [_ ->]%lift_Some. reflexivity. Qed.

Lemma keeps_getState : keeps getState.
Proof. intros st y st' [= <- <-]. reflexivity. Qed.

Lemma keeps_bind {A B} (m : Gen A) (f : A → Gen B) :
  keeps m → (∀ x, keeps (f x)) → keeps (m ≫= f).
Proof.
  intros Hm Hf st y st' (x & st1 & Hx & Hy)%gen_bind_Some.
  etrans; [by eapply Hm | by eapply Hf].
Qed.

Lemma keeps_forM {A B} (body : A → B → Gen B) l :
  (∀ x acc, keeps (body x acc)) → ∀ acc, keeps (forM body l acc).
Proof.
  intros Hbody. induction l as [|x l IH]; intros acc; simpl.
  - apply keeps_ret.
  - apply keeps_bind; [apply Hbody | apply IH].
Qed.

Lemma grows_names st n calls :
  randomCalls st ≤ calls →
  grows st (mkGen (schemaToClassName st) (usedNames st ∪ {[n]}) (usedEnums st)
                  (classMap st) (arrays st) calls).
Proof.
  intros Hcalls. split; simpl; try done; try (by left); [set_solver|].
  intros Hused k n' Hk. simpl in *. apply elem_of_union_l. by eapply Hused.
Qed.

Lemma grows_class st k n calls :
  schemaToClassName st !! k = None → randomCalls st ≤ calls →
  grows st (mkGen (<[k := n]> (schemaToClassName st)) (usedNames st ∪ {[n]}) (usedEnums st)
                  (classMap st) (arrays st) calls).
Proof.
  intros Hk Hcalls. split; simpl; try done; try (by left).
  - set_solver.
  - intros k' n' Hk'. rewrite lookup_insert_ne; [done | congruence].
  - intros Hused k' n'. unfold classNamesUsed in Hused. simpl.
    rewrite lookup_insert. case_decide; [set_solver|].
    intros Hk'. apply elem_of_union_l. by eapply Hused.
Qed.

Lemma grows_enum st n loc calls :
  randomCalls st ≤ calls →
  grows st (mkGen (schemaToClassName st) (usedNames st) (JsMap.set n loc (usedEnums st))
                  (classMap st) (arrays st) calls).
Proof.
  intros Hcalls. split; simpl; try done; try (by left).
  intros n' Hn'. rewrite keys_set. case_decide; [done|]. apply elem_of_app. by left.
Qed.

Lemma grows_classMap st k n :
  grows st (mkGen (schemaToClassName st) (usedNames st) (usedEnums st)
                  (JsMap.set k n (classMap st)) (arrays st) (randomCalls st)).
Proof.
  split; simpl; try done; try (by left).
  intros k' Hk'. rewrite keys_set. case_decide; [done|]. apply elem_of_app. by left.
Qed.

Lemma read_sortInPlace h loc loc' :
  Arrays.read (Arrays.sortInPlace h loc') loc = Arrays.read h loc ∨
  Arrays.read (Arrays.sortInPlace h loc') loc = sort (Arrays.read h loc).
Proof.
  destruct (decide (loc = loc')) as [->|Hne].
  - right. apply read_sortInPlace_eq.
  - left. unfold Arrays.sortInPlace, Arrays.read. by rewrite list_lookup_insert_ne.
Qed.

Lemma grows_sort st loc :
  grows st (mkGen (schemaToClassName st) (usedNames st) (usedEnums st)
                  (classMap st) (Arrays.sortInPlace (arrays st) loc) (randomCalls st)).
Proof.
  split; simpl; try done; try (by left).
  - unfold Arrays.sortInPlace. by rewrite length_insert.
  - intros loc'. apply read_sortInPlace.
Qed.
End Grows.

Section KeepsAllocators.
Context (randomToken : nat → string).

Lemma keeps_getClassNameFromSchemaName schemaName :
  keeps (getClassNameFromSchemaName randomToken schemaName).
Proof.
  intros st n st'. unfold getClassNameFromSchemaName. rewrite gen_bind_getState.
  destruct (schemaToClassName st !! schemaName) eqn:Hk; [intros [= <- <-]; reflexivity|].
  repeat case_decide; [gen_unfold; simpl; intros [= <- <-]; by apply grows_class..|].
  destruct (firstFree _ _ _); gen_unfold; simpl; intros [= <- <-]; apply grows_class;
    [done | lia | done | lia].
Qed.

Lemma keeps_getClassNameFromOperationId operationId statusCode :
  keeps (getClassNameFromOperationId randomToken operationId statusCode).
Proof.
  intros st n st'. unfold getClassNameFromOperationId. rewrite gen_bind_getState.
  case_decide; [gen_unfold; simpl; intros [= <- <-]; by apply grows_names|].
  destruct (firstFree _ _ _); gen_unfold; simpl; intros [= <- <-]; apply grows_names; lia.
Qed.

Lemma keeps_sortedKey loc : keeps (sortedKey loc).
Proof. intros st k st'. unfold sortedKey. gen_unfold. intros [= <- <-]. apply grows_sort. Qed.

Lemma keeps_findEnum enumKey entries : keeps (findEnum enumKey entries).
Proof.
  induction entries as [|[name loc] entries IH]; simpl; [apply keeps_ret|].
  apply keeps_bind; [apply keeps_sortedKey|]. intros k.
  case_decide; [apply keeps_ret | apply IH].
Qed.

Lemma keeps_getEnumNameFromProperty propertyName enumValues context :
  keeps (getEnumNameFromProperty randomToken propertyName enumValues context).
Proof.
  unfold getEnumNameFromProperty.
  apply keeps_bind; [apply keeps_sortedKey|]. intros k.
  apply keeps_bind; [apply keeps_getState|]. intros st0.
  apply keeps_bind; [apply keeps_findEnum|]. intros [found|]; [apply keeps_ret|].
  intros st n st'. rewrite gen_bind_getState.
  destruct (negb _); [gen_unfold; simpl; intros [= <- <-]; by apply grows_enum|].
  destruct (firstFree _ _ _); gen_unfold; simpl; intros [= <- <-]; apply grows_enum; lia.
Qed.

Lemma keeps_setClassMap k n : keeps (setClassMap k n).
Proof. intros st x st'. gen_unfold. intros [= <- <-]. apply grows_classMap. Qed.
End KeepsAllocators.

Section KeepsGenerator.
Context (randomToken : nat → string) (doc : OpenAPIDocument).

(** One step through a computation built from the operations that keep
    the state. *)
Ltac keeps_step IH :=
  first
    [ apply keeps_ret
    | apply keeps_diverge
    | apply keeps_lift
    | apply keeps_getState
    | apply keeps_setClassMap
    | apply keeps_getClassNameFromSchemaName
    | apply keeps_getClassNameFromOperationId
    | apply keeps_getEnumNameFromProperty
    | apply IH
    | apply keeps_bind; [|intros ?]
    | apply keeps_forM; intros ? ?
    | match goal with
      | |- keeps (match ?x with _ => _ end) => destruct x
      end ].

Lemma keeps_generateClassProperties fuel :
  (∀ propertyName schema required usedProperties context,
     keeps (generateClassProperty randomToken fuel propertyName schema required doc
                                  usedProperties context)) ∧
  (∀ schema required context,
     keeps (generateClassProperties randomToken fuel schema required doc context)).
Proof.
  induction fuel as [|fuel [IHp IHps]]; [split; intros; apply keeps_diverge|].
  split.
  - intros propertyName schema required usedProperties context.
    cbn [generateClassProperty]. repeat keeps_step IHps.
  - intros schema required context.
    cbn [generateClassProperties]. repeat keeps_step IHp.
Qed.

Lemma keeps_intermediateClasses fuel className others e :
  keeps (intermediateClasses randomToken fuel doc className others e).
Proof.
  unfold intermediateClasses.
  repeat keeps_step (proj2 (keeps_generateClassProperties fuel)).
Qed.

Lemma keeps_processSchemaName fuel schemaName e :
  keeps (processSchemaName randomToken fuel doc schemaName e).
Proof.
  unfold processSchemaName.
  repeat first [ apply keeps_intermediateClasses
               | keeps_step (proj2 (keeps_generateClassProperties fuel)) ].
Qed.

Lemma keeps_responseExtends schema : keeps (responseExtends randomToken schema).
Proof. unfold responseExtends. repeat keeps_step keeps_getState. Qed.

Lemma keeps_processPaths fuel pathList e :
  keeps (processPaths randomToken fuel doc pathList e).
Proof.
  unfold processPaths, processOperation, processResponse, processContent.
  repeat first [ apply keeps_responseExtends
               | keeps_step (proj2 (keeps_generateClassProperties fuel)) ].
Qed.

Lemma keeps_generateClasses fuel : keeps (generateClasses randomToken fuel doc).
Proof.
  unfold generateClasses.
  repeat first [ apply keeps_processPaths
               | apply keeps_processSchemaName
               | keeps_step keeps_getState ].
Qed.
End KeepsGenerator.

(** X22. What a run leaves of the state it starts from. The arrays of the
    document keep their number, and each of them is as it was or has been
    sorted, so that it holds the values it held; and every class name that
    the run has given to a schema is registered as used. *)
Theorem run_keeps_arrays (randomToken : nat → string) (fuel : nat) (doc : OpenAPIDocument)
    (h : Arrays.t) (e : Emission) (st : GenState) :
  run randomToken fuel doc h = Some (e, st) →
  length (arrays st) = length h ∧
  (∀ loc, Arrays.read (arrays st) loc = Arrays.read h loc ∨
          Arrays.read (arrays st) loc = sort (Arrays.read h loc)) ∧
  (∀ loc, Arrays.read (arrays st) loc ≡ₚ Arrays.read h loc) ∧
  classNamesUsed st.
Proof.
  intros Hrun%keeps_generateClasses. split_and!.
  - apply (gr_length _ _ Hrun).
  - apply (gr_arrays _ _ Hrun).
  - intros loc. destruct (gr_arrays _ _ Hrun loc) as [->| ->]; [done|].
    apply merge_sort_Permutation.
  - apply (gr_used _ _ Hrun). by intros k n.
Qed.

(** [run_keeps_arrays] on the document of [Status] and [Order], the second
    array of which is not sorted. *)
Lemma run_keeps_arrays_witness :
  ∃ e st,
    run noToken 3 orderDocument [["A"; "B"]; ["sold"; "available"]] = Some (e, st) ∧
    length (arrays st) = length [["A"; "B"]; ["sold"; "available"]] ∧
    (∀ loc, Arrays.read (arrays st) loc = Arrays.read [["A"; "B"]; ["sold"; "available"]] loc ∨
            Arrays.read (arrays st) loc
            = sort (Arrays.read [["A"; "B"]; ["sold"; "available"]] loc)) ∧
    (∀ loc, Arrays.read (arrays st) loc
            ≡ₚ Arrays.read [["A"; "B"]; ["sold"; "available"]] loc) ∧
    classNamesUsed st.
Proof.
  destruct (run noToken 3 orderDocument [["A"; "B"]; ["sold"; "available"]])
    as [[e st]|] eqn:Hrun; [|by vm_compute in Hrun].
  exists e, st. split; [done|].
  by apply (run_keeps_arrays noToken 3 orderDocument [["A"; "B"]; ["sold"; "available"]] e).
Defined.

(** ** Schemas that yield no class *)

Section Empty.
Context (randomToken : nat → string).

Lemma generateClassProperties_empty fuel schema required doc context mergedRequired st :
  mergeParentProperties fuel schema doc = Some ([], mergedRequired) →
  generateClassProperties randomToken (S fuel) schema required doc context st
  = Some (mkProperties [] [] [], st).
Proof.
  intros Hmerge. cbn [generateClassProperties].
  assert (lift (mergeParentProperties fuel schema doc) st = Some (([], mergedRequired), st))
    as Hlift by (unfold lift; by rewrite Hmerge).
  by rewrite (gen_bind_eq _ _ _ _ _ Hlift).
Qed.
End Empty.

(** X23. A schema without merged properties yields no class: the emission
    is left as it was, and the schema is not marked as processed. Its name
    is registered as a class name all the same. *)
Theorem processSchemaName_empty (randomToken : nat → string) (fuel : nat)
    (doc : OpenAPIDocument) (schemaName : string) (schema : OpenAPISchema)
    (mergedRequired : list string) (e : Emission) (st : GenState) :
  (documentSchemas doc ≫= JsMap.get schemaName) = Some schema →
  schemaName ∉ processedSchemas e →
  mergeParentProperties fuel schema doc = Some ([], mergedRequired) →
  processSchemaName randomToken (S fuel) doc schemaName e st
  = (λ r, (e, r.2)) <$> getClassNameFromSchemaName randomToken schemaName st.
Proof.
  intros Hschema%lookupSchema_declared Hfresh Hmerge. unfold processSchemaName.
  rewrite Hschema.
  rewrite decide_False by done.
  destruct (getClassNameFromSchemaName_total randomToken schemaName st)
    as (className & st1 & Hname).
  rewrite (gen_bind_eq _ _ _ _ _ Hname), Hname.
  rewrite (gen_bind_eq _ _ _ _ _
             (generateClassProperties_empty randomToken fuel schema [] doc schemaName
                                            mergedRequired st1 Hmerge)).
  done.
Qed.

(** [processSchemaName_empty] on the top-level enum [Status]. *)
Lemma processSchemaName_empty_witness :
  processSchemaName noToken 2 orderDocument "Status" (mkEmission [] [] [] ∅)
                    (initGen [["A"; "B"]; ["A"; "B"]])
  = (λ r, (mkEmission [] [] [] ∅, r.2))
      <$> getClassNameFromSchemaName noToken "Status" (initGen [["A"; "B"]; ["A"; "B"]]).
Proof.
  apply (processSchemaName_empty noToken 1 orderDocument "Status" (stringEnum 0) []).
  - reflexivity.
  - apply not_elem_of_empty.
  - reflexivity.
Defined.

(** ** A cycle of inheritance *)

Section Yields.
Lemma yields_ret {A} (x : A) (Q : A → Prop) : Q x → yields (mret x) Q.
Proof. intros HQ st y st' [= <- <-]. done. Qed.

Lemma yields_bind {A B} (m : Gen A) (f : A → Gen B) (P : A → Prop) (Q : B → Prop) :
  yields m P → (∀ x, P x → yields (f x) Q) → yields (m ≫= f) Q.
Proof.
  intros Hm Hf st y st' (x & st1 & Hx & Hy)%gen_bind_Some.
  eapply Hf; [by eapply Hm | done].
Qed.

Lemma yields_any {A} (m : Gen A) : yields m (λ _, True).
Proof. by intros st y st'. Qed.

Lemma yields_forM {A B} (body : A → B → Gen B) (I : B → Prop) l :
  (∀ x acc, I acc → yields (body x acc) I) → ∀ acc, I acc → yields (forM body l acc) I.
Proof.
  intros Hbody. induction l as [|x l IH]; intros acc Hacc; simpl.
  - by apply yields_ret.
  - eapply yields_bind; [by apply Hbody | apply IH].
Qed.

(** A loop does not return when the iteration for one of its elements
    does not, in any state that the iterations before may leave. *)
Lemma forM_None {A B} (body : A → B → Gen B) (I : B → Prop) l x :
  x ∈ l →
  (∀ y acc, I acc → yields (body y acc) I) →
  (∀ acc st, I acc → body x acc st = None) →
  ∀ acc st, I acc → forM body l acc st = None.
Proof.
  intros Hx Hkeep Hbody. induction l as [|a l IH]; [by apply elem_of_nil in Hx|].
  intros acc st Hacc. simpl. unfold mbind, gen_bind.
  destruct (body a acc st) as [[acc' st']|] eqn:Ha; [|done].
  apply elem_of_cons in Hx as [->|Hx]; [by rewrite Hbody in Ha|].
  apply IH; [done|]. by eapply Hkeep.
Qed.
End Yields.

Section Processed.
Context (randomToken : nat → string) (doc : OpenAPIDocument).

Lemma processedSchemas_pushClasses nestedClasses classDefinition extendsClause e :
  processedSchemas (pushClasses nestedClasses classDefinition extendsClause e)
  = processedSchemas e.
Proof.
  unfold pushClasses.
  assert (∀ l e0, processedSchemas
                    (foldl (λ e nestedClass,
                              if includes nestedClass " extends "
                              then pushChild nestedClass e
                              else pushBase nestedClass e) e0 l)
                  = processedSchemas e0) as Hfold.
  { induction l as [|c l IH]; intros e0; simpl; [done|].
    rewrite IH. by destruct (includes c " extends "). }
  destruct (truthy (Some extendsClause)); simpl; apply Hfold.
Qed.

Lemma yields_intermediateClasses fuel className others e :
  yields (intermediateClasses randomToken fuel doc className others e)
         (λ e', processedSchemas e' = processedSchemas e).
Proof.
  unfold intermediateClasses.
  eapply yields_bind; [|intros res Hres; apply yields_ret, Hres].
  apply (yields_forM _ (λ acc : list string * Emission,
                          processedSchemas acc.2 = processedSchemas e)); [|done].
  intros parentName acc Hacc.
  destruct (lookupSchema doc parentName); [|by apply yields_ret].
  eapply yields_bind; [apply yields_any|]. intros parentClassName _.
  eapply yields_bind; [apply yields_any|]. intros parent _.
  destruct (bool_decide _); by apply yields_ret.
Qed.

(** Processing a schema marks no other schema as processed. *)
Lemma yields_processSchemaName fuel schemaName e :
  yields (processSchemaName randomToken fuel doc schemaName e)
         (λ e', processedSchemas e' ⊆ processedSchemas e ∪ {[schemaName]}).
Proof.
  unfold processSchemaName.
  destruct (lookupSchema doc schemaName) as [schema|];
    [|apply yields_ret; set_solver].
  case_decide; [apply yields_ret; set_solver|].
  eapply yields_bind; [apply yields_any|]. intros className _.
  eapply yields_bind; [apply yields_any|]. intros res _.
  destruct (bool_decide _); [apply yields_ret; set_solver|].
  eapply (yields_bind _ _ (λ ext : string * Emission,
                             processedSchemas ext.2 = processedSchemas e)).
  - destruct (Schema.allOf schema); [|by apply yields_ret].
    eapply yields_bind; [apply yields_any|]. intros [|primaryParent others] _;
      [by apply yields_ret|].
    eapply yields_bind; [apply yields_any|]. intros primaryParentClassName _.
    eapply yields_bind; [apply yields_intermediateClasses|].
    intros e2 He2. by apply yields_ret.
  - intros [extendsClause e3] He3. apply yields_ret. simpl in *.
    rewrite processedSchemas_pushClasses, He3. set_solver.
Qed.
End Processed.

Section GraphKeys.
Context {V W : Type} (f : string * V → W).

Lemma keys_foldl_set (l : list (string * V)) : ∀ (g : list (string * W)) k,
  k ∈ JsMap.keys (foldl (λ g kv, JsMap.set kv.1 (f kv) g) g l)
  ↔ k ∈ JsMap.keys g ∨ k ∈ JsMap.keys l.
Proof.
  induction l as [|[k' v'] l IH]; intros g k; simpl.
  - change (JsMap.keys (@nil (string * V))) with (@nil string).
    rewrite elem_of_nil. naive_solver.
  - change (JsMap.keys ((k', v') :: l)) with (k' :: JsMap.keys l).
    rewrite IH, keys_set, elem_of_cons.
    case_decide as Hk'; [|rewrite elem_of_app, list_elem_of_singleton]; naive_solver.
Qed.
End GraphKeys.

Lemma buildSchemaDependencyGraph_keys (doc : OpenAPIDocument) (k : string) :
  k ∈ JsMap.keys (buildSchemaDependencyGraph doc) ↔ k ∈ schemaNames doc.
Proof.
  unfold buildSchemaDependencyGraph, schemaNames. rewrite !keys_foldl_set.
  change (JsMap.keys (@nil (string * list string))) with (@nil string).
  rewrite elem_of_nil. naive_solver.
Qed.

(** X24. A run does not return on a document that declares a schema from
    which the references in [allOf] lead on without end, as they do for a
    schema that inherits from itself, directly or through other schemas:
    the call that merges the properties of its parents never ends. *)
Theorem run_inheritance_cycle (randomToken : nat → string) (doc : OpenAPIDocument)
    (h : Arrays.t) (endless : OpenAPISchema → Prop) (schemaName : string)
    (schema : OpenAPISchema) :
  (∀ s, endless s → ∃ parent, inheritsFrom doc s parent ∧ endless parent) →
  (documentSchemas doc ≫= JsMap.get schemaName) = Some schema →
  endless schema →
  ∀ fuel, run randomToken fuel doc h = None.
Proof.
  intros Hclosed Hschema Hendless fuel.
  pose proof (lookupSchema_declared _ _ _ Hschema) as Hlookup.
  unfold run, generateClasses.
  rewrite gen_bind_getState.
  destruct (sortSchemasByDependency_spec (buildSchemaDependencyGraph doc))
    as (out & cyc & Hout & Hm & _).
  assert (schemaName ∈ out) as Hin.
  { apply Hm. left. apply buildSchemaDependencyGraph_keys.
    rewrite documentSchemas_get in Hschema. apply get_elem in Hschema.
    unfold schemaNames, JsMap.keys. apply list_elem_of_fmap. by exists (schemaName, schema). }
  assert (lift (sortSchemasByDependency (buildSchemaDependencyGraph doc)) (initGen h)
          = Some (out, initGen h)) as Hlift by (unfold lift; by rewrite Hout).
  rewrite (gen_bind_eq _ _ _ _ _ Hlift).
  apply gen_bind_None.
  destruct (documentSchemas doc) as [schemas|] eqn:Hschemas; [|done].
  apply (forM_None _ (λ e, schemaName ∉ processedSchemas e) out schemaName); [done| | |].
  - intros y e Hy. destruct (decide (y = schemaName)) as [->|Hne].
    + intros st e' st' Hrun. exfalso. revert Hrun.
      unfold processSchemaName. rewrite Hlookup. rewrite decide_False by done.
      destruct (getClassNameFromSchemaName_total randomToken schemaName st)
        as (className & st1 & Hname).
      rewrite (gen_bind_eq _ _ _ _ _ Hname).
      rewrite gen_bind_None; [done|].
      destruct fuel as [|fuel]; [done|]. cbn [generateClassProperties].
      apply gen_bind_None. unfold lift.
      by rewrite (mergeParentProperties_endless doc endless Hclosed fuel schema Hendless).
    + intros st e' st' Hrun. apply yields_processSchemaName in Hrun. set_solver.
  - intros e st He. unfold processSchemaName. rewrite Hlookup.
    rewrite decide_False by done.
    destruct (getClassNameFromSchemaName_total randomToken schemaName st)
      as (className & st1 & Hname).
    rewrite (gen_bind_eq _ _ _ _ _ Hname).
    apply gen_bind_None.
    destruct fuel as [|fuel]; [done|]. cbn [generateClassProperties].
    apply gen_bind_None. unfold lift.
    by rewrite (mergeParentProperties_endless doc endless Hclosed fuel schema Hendless).
  - simpl. apply not_elem_of_empty.
Qed.

(** [run_inheritance_cycle] on the document of [Node], which inherits from
    itself. *)
Lemma run_inheritance_cycle_witness :
  run noToken 1000 nodeDocument [] = None.
Proof.
  apply (run_inheritance_cycle noToken nodeDocument [] (λ s, s = node) "Node" node).
  - intros s ->. exists node. split; [apply node_inheritsFrom | done].
  - reflexivity.
  - reflexivity.
Defined.

(** ** What is emitted for a property, a response and the top-level enums *)

Section InlineEnum.
Context (randomToken : nat → string).

(** A request to the enum registry leaves the requested array sorted. *)
Lemma getEnumNameFromProperty_sorts propertyName loc context st name st' :
  getEnumNameFromProperty randomToken propertyName loc context st = Some (name, st') →
  Arrays.read (arrays st') loc = sort (Arrays.read (arrays st) loc).
Proof.
  unfold getEnumNameFromProperty.
  intros (k & st1 & Hkey & Hrest)%gen_bind_Some.
  assert (Arrays.read (arrays st1) loc = sort (Arrays.read (arrays st) loc)) as Hst1.
  { revert Hkey. unfold sortedKey. gen_unfold. intros [= _ <-]. simpl.
    apply read_sortInPlace_eq. }
  assert (grows st1 st') as Hgrows.
  { revert Hrest. apply keeps_bind; [apply keeps_getState|]. intros st0.
    apply keeps_bind; [apply keeps_findEnum|]. intros [found|]; [apply keeps_ret|].
    intros st2 n st3. rewrite gen_bind_getState.
    destruct (negb _); [gen_unfold; simpl; intros [= <- <-]; by apply grows_enum|].
    destruct (firstFree _ _ _); gen_unfold; simpl; intros [= <- <-]; apply grows_enum; lia. }
  destruct (gr_arrays _ _ Hgrows loc) as [->| ->]; rewrite Hst1; [done|].
  apply sort_idempotent.
Qed.
End InlineEnum.

(** X25. For a string property with an inline enum the values are
    declared in sorted order, whatever their order in the document: the
    array of the document is sorted when the name of the enum is looked
    up, and the declaration is written from the sorted array. *)
Theorem generateClassProperty_inline_enum (randomToken : nat → string) (fuel : nat)
    (propertyName : string) (schema : OpenAPISchema) (required : list string)
    (doc : OpenAPIDocument) (usedProperties usedProperties' : gset string)
    (context : string) (st st' : GenState) (loc : nat) (result : PropertyResult) :
  Schema.ref schema = None →
  Schema.type schema = Some "string" →
  Schema.enum schema = Some loc →
  generateClassProperty randomToken fuel propertyName schema required doc
                        usedProperties context st
  = Some (result, usedProperties', st') →
  Arrays.read (arrays st') loc = sort (Arrays.read (arrays st) loc) ∧
  nestedClasses result = [] ∧
  ∃ enumName,
    enums result = [inlineEnumText enumName (sort (Arrays.read (arrays st) loc))].
Proof.
  intros Href Htype Henum. destruct fuel as [|fuel]; [done|].
  cbn [generateClassProperty].
  intros (u & st0 & [_ ->]%lift_Some & Hrest)%gen_bind_Some. revert Hrest.
  rewrite Href. cbn [truthy].
  assert (Schema.typeIs schema "string" = true) as ->.
  { unfold Schema.typeIs. rewrite Htype. by apply bool_decide_eq_true. }
  rewrite Henum.
  intros (enumName & st1 & Hname & Hrest)%gen_bind_Some.
  apply getEnumNameFromProperty_sorts in Hname.
  rewrite gen_bind_getState in Hrest. injection Hrest as <- <- <-.
  simpl. split_and!; [done..|]. exists enumName. by rewrite Hname.
Qed.

(** [generateClassProperty_inline_enum] on an enum given as [sold],
    [available]. *)
Lemma generateClassProperty_inline_enum_witness :
  ∃ result usedProperties' st',
    generateClassProperty noToken 1 "kind" (stringEnum 1) [] orderDocument ∅ "Order"
                          (initGen [["A"; "B"]; ["sold"; "available"]])
    = Some (result, usedProperties', st') ∧
    Arrays.read (arrays st') 1
    = sort (Arrays.read (arrays (initGen [["A"; "B"]; ["sold"; "available"]])) 1) ∧
    nestedClasses result = [] ∧
    ∃ enumName,
      enums result
      = [inlineEnumText enumName
           (sort (Arrays.read (arrays (initGen [["A"; "B"]; ["sold"; "available"]])) 1))].
Proof.
  destruct (generateClassProperty noToken 1 "kind" (stringEnum 1) [] orderDocument ∅ "Order"
              (initGen [["A"; "B"]; ["sold"; "available"]]))
    as [[[result usedProperties'] st']|] eqn:Hrun; [|by vm_compute in Hrun].
  exists result, usedProperties', st'. split; [done|].
  by apply (generateClassProperty_inline_enum noToken 1 "kind" (stringEnum 1) [] orderDocument
              ∅ usedProperties' "Order" (initGen [["A"; "B"]; ["sold"; "available"]])).
Defined.

Section NestedObject.
Context (randomToken : nat → string).

Lemma getClassNameFromSchemaName_recorded schemaName st name st' :
  getClassNameFromSchemaName randomToken schemaName st = Some (name, st') →
  schemaToClassName st' !! schemaName = Some name.
Proof.
  unfold getClassNameFromSchemaName. rewrite gen_bind_getState.
  destruct (schemaToClassName st !! schemaName) eqn:Hk; [by intros [= <- <-]|].
  repeat case_decide;
    [gen_unfold; simpl; intros [= <- <-]; simpl; by rewrite lookup_insert_eq..|].
  destruct (firstFree _ _ _); gen_unfold; simpl; intros [= <- <-]; simpl;
    by rewrite lookup_insert_eq.
Qed.

Lemma getClassNameFromSchemaName_cached schemaName st name :
  schemaToClassName st !! schemaName = Some name →
  getClassNameFromSchemaName randomToken schemaName st = Some (name, st).
Proof.
  intros Hk. unfold getClassNameFromSchemaName. rewrite gen_bind_getState. by rewrite Hk.
Qed.

(** The class that is generated for a property that is an object of its
    own has the name found for the property name followed by [Object]. *)
Lemma nested_object_class fuel propertyName schema properties required doc usedProperties
    usedProperties' context st st' result :
  Schema.ref schema = None → Schema.type schema = Some "object" →
  Schema.properties schema = Some properties →
  generateClassProperty randomToken fuel propertyName schema required doc
                        usedProperties context st
  = Some (result, usedProperties', st') →
  ∃ className st0,
    getClassNameFromSchemaName randomToken (propertyName +:+ "Object") st
    = Some (className, st0) ∧
    grows st0 st' ∧
    (nestedClasses result = [] ∨
     ∃ body, last (nestedClasses result) = Some (classText className "" body)).
Proof.
  intros Href Htype Hprops. destruct fuel as [|fuel]; [done|].
  cbn [generateClassProperty].
  intros (u & st0 & [_ ->]%lift_Some & Hrest)%gen_bind_Some. revert Hrest.
  rewrite Href. cbn [truthy].
  rewrite !(typeIs_other schema "object") by done. cbn [orb].
  assert (Schema.typeIs schema "object" = true) as ->.
  { unfold Schema.typeIs. rewrite Htype. by apply bool_decide_eq_true. }
  cbn [orb]. rewrite Hprops.
  intros (className & st1 & Hname & Hrest)%gen_bind_Some.
  exists className, st1. split; [done|].
  apply gen_bind_Some in Hrest as (nested & st2 & Hnested & Hrest).
  apply (proj2 (keeps_generateClassProperties randomToken doc fuel)) in Hnested.
  destruct (bool_decide (0 < length (classProperties nested))).
  - apply gen_bind_Some in Hrest as ([] & st3 & Hmap%keeps_setClassMap & Hret).
    injection Hret as <- <- <-. split; [by etrans|]. right. simpl.
    exists (classProperties nested). by rewrite last_snoc.
  - injection Hrest as <- <- <-. split; [done|]. by left.
Qed.
End NestedObject.

(** X26. The class that is generated for a property that is an object
    with properties of its own is named after the property alone. Two such
    properties of one name, in whatever schemas of a run they stand, are
    given classes of the same name, though the two classes may differ. *)
Theorem nested_object_class_shared (randomToken : nat → string) (fuel1 fuel2 : nat)
    (propertyName : string) (schema1 schema2 : OpenAPISchema)
    (properties1 properties2 : list (string * OpenAPISchema))
    (required1 required2 : list string) (doc : OpenAPIDocument)
    (used1 used1' used2 used2' : gset string) (context1 context2 : string)
    (st st1 st2 st3 : GenState) (result1 result2 : PropertyResult) :
  Schema.ref schema1 = None → Schema.type schema1 = Some "object" →
  Schema.properties schema1 = Some properties1 →
  Schema.ref schema2 = None → Schema.type schema2 = Some "object" →
  Schema.properties schema2 = Some properties2 →
  generateClassProperty randomToken fuel1 propertyName schema1 required1 doc used1 context1 st
  = Some (result1, used1', st1) →
  grows st1 st2 →
  generateClassProperty randomToken fuel2 propertyName schema2 required2 doc used2 context2 st2
  = Some (result2, used2', st3) →
  nestedClasses result1 ≠ [] → nestedClasses result2 ≠ [] →
  ∃ className body1 body2,
    last (nestedClasses result1) = Some (classText className "" body1) ∧
    last (nestedClasses result2) = Some (classText className "" body2).
Proof.
  intros Href1 Htype1 Hprops1 Href2 Htype2 Hprops2 Hrun1 Hgrows Hrun2 Hne1 Hne2.
  destruct (nested_object_class randomToken _ _ _ _ _ _ _ _ _ _ _ _
              Href1 Htype1 Hprops1 Hrun1) as (n1 & sta & Hn1 & Hga & [?|[body1 Hlast1]]);
    [done|].
  destruct (nested_object_class randomToken _ _ _ _ _ _ _ _ _ _ _ _
              Href2 Htype2 Hprops2 Hrun2) as (n2 & stb & Hn2 & Hgb & [?|[body2 Hlast2]]);
    [done|].
  apply getClassNameFromSchemaName_recorded in Hn1.
  apply (gr_classes _ _ Hga), (gr_classes _ _ Hgrows) in Hn1.
  rewrite (getClassNameFromSchemaName_cached randomToken _ _ _ Hn1) in Hn2.
  injection Hn2 as <- <-. by exists n1, body1, body2.
Qed.

Lemma customer_address :
  (λ r, (bool_decide (nestedClasses r.1.1 ≠ []), r.2))
    <$> generateClassProperty noToken 3 "address"
          (object [("street", primitive "string")] []) [] addressBook ∅ "Customer" (initGen [])
  = Some (true, mkGen {["addressObject" := "addressObject"]} {["addressObject"]} []
                      [("address", "addressObject")] [] 0).
Proof. by vm_compute. Qed.

Lemma warehouse_address :
  (λ r, bool_decide (nestedClasses r.1.1 ≠ []))
    <$> generateClassProperty noToken 3 "address"
          (object [("dock", primitive "integer")] []) [] addressBook ∅ "Warehouse"
          (mkGen {["addressObject" := "addressObject"]} {["addressObject"]} []
                 [("address", "addressObject")] [] 0)
  = Some true.
Proof. by vm_compute. Qed.

(** [nested_object_class_shared] on the property [address] of [Customer]
    and of [Warehouse]: both classes are named [addressObject]. *)
Lemma nested_object_class_shared_witness :
  ∃ result1 used1' st1 result2 used2' st3,
    generateClassProperty noToken 3 "address"
      (object [("street", primitive "string")] []) [] addressBook ∅ "Customer" (initGen [])
    = Some (result1, used1', st1) ∧
    generateClassProperty noToken 3 "address"
      (object [("dock", primitive "integer")] []) [] addressBook ∅ "Warehouse" st1
    = Some (result2, used2', st3) ∧
    ∃ className body1 body2,
      last (nestedClasses result1) = Some (classText className "" body1) ∧
      last (nestedClasses result2) = Some (classText className "" body2).
Proof.
  pose proof customer_address as H1. pose proof warehouse_address as H2.
  destruct (generateClassProperty noToken 3 "address"
              (object [("street", primitive "string")] []) [] addressBook ∅ "Customer"
              (initGen []))
    as [[[result1 used1'] st1]|] eqn:Hrun1; [|done].
  simpl in H1. injection H1 as Hne1%bool_decide_eq_true ->.
  destruct (generateClassProperty noToken 3 "address"
              (object [("dock", primitive "integer")] []) [] addressBook ∅ "Warehouse" _)
    as [[[result2 used2'] st3]|] eqn:Hrun2; [|done].
  simpl in H2. injection H2 as Hne2%bool_decide_eq_true.
  eexists result1, used1', _, result2, used2', st3. split_and!; [done..|].
  by apply (nested_object_class_shared noToken 3 3 "address"
              (object [("street", primitive "string")] [])
              (object [("dock", primitive "integer")] [])
              [("street", primitive "string")] [("dock", primitive "integer")]
              [] [] addressBook ∅ used1' ∅ used2' "Customer" "Warehouse"
              (initGen []) _ _ st3 result1 result2 eq_refl eq_refl eq_refl
              eq_refl eq_refl eq_refl Hrun1 (reflexivity _) Hrun2).
Defined.

Section Reference.
Implicit Types (doc : OpenAPIDocument) (schema target : OpenAPISchema).

Lemma resolveRef_name doc name target :
  (documentSchemas doc ≫= JsMap.get name) = Some target →
  ∃ refSchema, resolveRef (refPrefix +:+ name) doc = Some refSchema ∧
    Schema.enum refSchema = Schema.enum target.
Proof.
  intros Htarget%lookupSchema_declared. unfold resolveRef.
  destruct (name_refPrefix name) as [-> ->].
  simpl. rewrite Htarget. destruct (_ || _); by eexists.
Qed.

Lemma nameDecorator_no_placeholder lower d :
  nameDecorator lower = Some d → includes d "PLACEHOLDER" = false.
Proof.
  unfold nameDecorator.
  repeat (match goal with
          | |- context [if ?b then _ else _] => destruct b
          end; [by intros [= <-]|]).
  done.
Qed.

Lemma replacePlaceholder_none decorators name :
  Forall (λ d, includes d "PLACEHOLDER" = false) decorators →
  replacePlaceholder decorators name = decorators.
Proof. induction 1 as [|d l Hd _ IH]; simpl; [done|]. by rewrite Hd, IH. Qed.

Lemma generateDecorators_untyped schema propertyName isRequired :
  Schema.type schema = None → Schema.properties schema = None →
  generateDecorators schema propertyName isRequired
  = (if isRequired then [] else ["@IsOptional()"])
    ++ option_list (nameDecorator (toLowerCase propertyName)).
Proof.
  intros Htype Hprops. unfold generateDecorators, Schema.typeIs. rewrite Htype, Hprops.
  destruct (nameDecorator _); simpl; [done|]. by rewrite app_nil_r.
Qed.
End Reference.

(** X27. A property that is a reference to a declared schema without
    [enum] has the class name of that schema as its type, and the
    decorators that follow from its requiredness and its name only: the
    referenced object is not validated as a nested object. *)
Theorem generateClassProperty_reference (randomToken : nat → string) (fuel : nat)
    (propertyName name : string) (schema target : OpenAPISchema) (required : list string)
    (doc : OpenAPIDocument) (usedProperties : gset string) (context : string)
    (st : GenState) :
  Schema.ref schema = Some (refPrefix +:+ name) →
  Schema.type schema = None →
  Schema.properties schema = None →
  (documentSchemas doc ≫= JsMap.get name) = Some target →
  Schema.enum target = None →
  ∃ uniqueName className st',
    (uniqueName ∉ usedProperties) ∧
    getClassNameFromSchemaName randomToken name st = Some (className, st') ∧
    generateClassProperty randomToken (S fuel) propertyName schema required doc
                          usedProperties context st
    = Some (mkProperty
              (propertyText
                 ((if bool_decide (propertyName ∈ required) then [] else ["@IsOptional()"])
                  ++ option_list (nameDecorator (toLowerCase propertyName)))
                 (if needsQuotes propertyName
                  then "'" +:+ propertyName +:+ "'" else propertyName)
                 (bool_decide (propertyName ∈ required))
                 className)
              [] [],
            usedProperties ∪ {[uniqueName]}, st').
Proof.
  intros Href Htype Hprops Htarget Henum.
  destruct (uniquePropertyName_fresh propertyName usedProperties) as (u & Hu & Hfresh).
  destruct (getClassNameFromSchemaName_total randomToken name st) as (n & st' & Hn).
  destruct (resolveRef_name doc name target Htarget) as (refSchema & Hres & Henum').
  exists u, n, st'. split_and!; [done..|].
  cbn [generateClassProperty].
  assert (lift (uniquePropertyName propertyName usedProperties) st = Some (u, st)) as Hlift.
  { unfold lift. by rewrite Hu. }
  rewrite (gen_bind_eq _ _ _ _ _ Hlift). rewrite Href.
  change (default "" (Some (refPrefix +:+ name))) with (refPrefix +:+ name).
  assert (truthy (Some (refPrefix +:+ name)) = true) as -> by done.
  rewrite Hres. destruct (name_refPrefix name) as [_ ->].
  rewrite (gen_bind_eq _ _ _ _ _ Hn). rewrite Henum', Henum.
  rewrite bool_decide_eq_false_2 by (by intros [? [=]]).
  rewrite generateDecorators_untyped by done.
  rewrite replacePlaceholder_none; [done|].
  apply Forall_app. split.
  - destruct (bool_decide _); by repeat constructor.
  - destruct (nameDecorator _) eqn:Hname; simpl; [|constructor].
    repeat constructor. by eapply nameDecorator_no_placeholder.
Qed.

(** [generateClassProperty_reference] on a property [owner] that refers
    to [Pet]. *)
Lemma generateClassProperty_reference_witness :
  ∃ uniqueName className st',
    (uniqueName ∉ (∅ : gset string)) ∧
    getClassNameFromSchemaName noToken "Pet" (initGen []) = Some (className, st') ∧
    generateClassProperty noToken 1 "owner" (reference (refPrefix +:+ "Pet")) ["owner"]
                          petStore ∅ "Dog" (initGen [])
    = Some (mkProperty
              (propertyText
                 ((if bool_decide ("owner" ∈ ["owner"]) then [] else ["@IsOptional()"])
                  ++ option_list (nameDecorator (toLowerCase "owner")))
                 (if needsQuotes "owner" then "'" +:+ "owner" +:+ "'" else "owner")
                 (bool_decide ("owner" ∈ ["owner"]))
                 className)
              [] [],
            ∅ ∪ {[uniqueName]}, st').
Proof.
  apply (generateClassProperty_reference noToken 0 "owner" "Pet"
           (reference (refPrefix +:+ "Pet")) pet ["owner"] petStore ∅ "Dog" (initGen []));
    reflexivity.
Defined.

Section EmptyResponse.
Context (randomToken : nat → string).

Lemma getClassNameFromOperationId_total operationId statusCode st :
  ∃ name st',
    getClassNameFromOperationId randomToken operationId statusCode st = Some (name, st').
Proof.
  unfold getClassNameFromOperationId. rewrite gen_bind_getState.
  case_decide; [by eexists _, _|]. destruct (firstFree _ _ _); by eexists _, _.
Qed.
End EmptyResponse.

(** X28. A response whose schema has no merged properties, as a schema
    that is nothing but a reference to a component schema has none, yields
    no response class: the emission is left as it was. A response class
    name is taken for it all the same. *)
Theorem processContent_empty (randomToken : nat → string) (fuel : nat)
    (doc : OpenAPIDocument) (operationId statusCode : string) (media : MediaType)
    (contentSchema : OpenAPISchema) (mergedRequired : list string)
    (e : Emission) (st : GenState) :
  schema media = Some contentSchema →
  mergeParentProperties fuel contentSchema doc = Some ([], mergedRequired) →
  processContent randomToken (S fuel) doc operationId statusCode media e st
  = (λ r, (e, r.2)) <$> getClassNameFromOperationId randomToken operationId statusCode st.
Proof.
  intros Hschema Hmerge. unfold processContent. rewrite Hschema.
  destruct (getClassNameFromOperationId_total randomToken operationId statusCode st)
    as (className & st1 & Hname).
  rewrite (gen_bind_eq _ _ _ _ _ Hname), Hname.
  rewrite (gen_bind_eq _ _ _ _ _
             (generateClassProperties_empty randomToken fuel contentSchema [] doc operationId
                                            mergedRequired st1 Hmerge)).
  done.
Qed.

(** [processContent_empty] on a response that is a reference to [Pet]. *)
Lemma processContent_empty_witness :
  processContent noToken 2 petStore "getPet" "200"
                 (mkMediaType (Some (reference "#/components/schemas/Pet")))
                 (mkEmission [] [] [] ∅) (initGen [])
  = (λ r, (mkEmission [] [] [] ∅, r.2))
      <$> getClassNameFromOperationId noToken "getPet" "200" (initGen []).
Proof.
  apply (processContent_empty noToken 1 petStore "getPet" "200"
           (mkMediaType (Some (reference "#/components/schemas/Pet")))
           (reference "#/components/schemas/Pet") []); reflexivity.
Defined.

Section EnumsFirst.
Context (randomToken : nat → string) (doc : OpenAPIDocument).
Implicit Types (e : Emission).

Lemma generatedEnums_pushClasses nestedClasses classDefinition extendsClause e :
  generatedEnums (pushClasses nestedClasses classDefinition extendsClause e)
  = generatedEnums e.
Proof.
  unfold pushClasses.
  assert (∀ l e0, generatedEnums
                    (foldl (λ e nestedClass,
                              if includes nestedClass " extends "
                              then pushChild nestedClass e
                              else pushBase nestedClass e) e0 l)
                  = generatedEnums e0) as Hfold.
  { induction l as [|c l IH]; intros e0; simpl; [done|].
    rewrite IH. by destruct (includes c " extends "). }
  destruct (truthy (Some extendsClause)); simpl; apply Hfold.
Qed.

Lemma enums_intermediateClasses fuel className others e :
  yields (intermediateClasses randomToken fuel doc className others e)
         (λ e', generatedEnums e' = generatedEnums e).
Proof.
  unfold intermediateClasses.
  eapply yields_bind; [|intros res Hres; apply yields_ret, Hres].
  apply (yields_forM _ (λ acc : list string * Emission,
                          generatedEnums acc.2 = generatedEnums e)); [|done].
  intros parentName acc Hacc.
  destruct (lookupSchema doc parentName); [|by apply yields_ret].
  eapply yields_bind; [apply yields_any|]. intros parentClassName _.
  eapply yields_bind; [apply yields_any|]. intros parent _.
  destruct (bool_decide _); by apply yields_ret.
Qed.

Lemma enums_processSchemaName fuel schemaName e :
  yields (processSchemaName randomToken fuel doc schemaName e)
         (λ e', generatedEnums e `prefix_of` generatedEnums e').
Proof.
  unfold processSchemaName.
  destruct (lookupSchema doc schemaName) as [schema|];
    [|by apply yields_ret].
  case_decide; [by apply yields_ret|].
  eapply yields_bind; [apply yields_any|]. intros className _.
  eapply yields_bind; [apply yields_any|]. intros res _.
  destruct (bool_decide _); [by apply yields_ret|].
  eapply (yields_bind _ _ (λ ext : string * Emission,
                             generatedEnums ext.2 = generatedEnums e ++ classEnums res)).
  - destruct (Schema.allOf schema); [|by apply yields_ret].
    eapply yields_bind; [apply yields_any|]. intros [|primaryParent others] _;
      [by apply yields_ret|].
    eapply yields_bind; [apply yields_any|]. intros primaryParentClassName _.
    eapply yields_bind; [apply enums_intermediateClasses|].
    intros e2 He2. by apply yields_ret.
  - intros [extendsClause e3] He3. apply yields_ret. simpl in *.
    rewrite generatedEnums_pushClasses, He3. by apply prefix_app_r.
Qed.

Lemma enums_processPaths fuel pathList e :
  yields (processPaths randomToken fuel doc pathList e)
         (λ e', generatedEnums e `prefix_of` generatedEnums e').
Proof.
  unfold processPaths.
  apply (yields_forM _ (λ e', generatedEnums e `prefix_of` generatedEnums e')); [|done].
  intros pathEntry e1 He1.
  apply (yields_forM _ (λ e', generatedEnums e `prefix_of` generatedEnums e')); [|done].
  intros opEntry e2 He2. unfold processOperation.
  destruct (negb _); [by apply yields_ret|].
  apply (yields_forM _ (λ e', generatedEnums e `prefix_of` generatedEnums e')); [|done].
  intros response e3 He3. unfold processResponse.
  destruct (negb _); [by apply yields_ret|].
  destruct (content response.2); [|by apply yields_ret].
  apply (yields_forM _ (λ e', generatedEnums e `prefix_of` generatedEnums e')); [|done].
  intros media e4 He4. unfold processContent.
  destruct (schema media.2); [|by apply yields_ret].
  eapply yields_bind; [apply yields_any|]. intros className _.
  eapply yields_bind; [apply yields_any|]. intros res _.
  destruct (bool_decide _); [by apply yields_ret|].
  eapply yields_bind; [apply yields_any|]. intros extendsClause _.
  apply yields_ret. rewrite generatedEnums_pushClasses. simpl.
  etrans; [done|]. by apply prefix_app_r.
Qed.
End EnumsFirst.

(** X29. The enums that a run has collected for the output begin with the
    declarations of the top-level enums, in the order of [getEnums], each
    with its values in the order that they have in the document when the
    run begins. *)
Theorem run_top_level_enums_first (randomToken : nat → string) (fuel : nat)
    (doc : OpenAPIDocument) (h : Arrays.t) (e : Emission) (st : GenState) :
  run randomToken fuel doc h = Some (e, st) →
  ((λ kv, enumText kv.1 (Arrays.read h kv.2)) <$> getEnums h doc)
    `prefix_of` generatedEnums e.
Proof.
  unfold run, generateClasses. rewrite gen_bind_getState.
  intros (sortedSchemas & st1 & _ & Hrest)%gen_bind_Some.
  apply gen_bind_Some in Hrest as (e1 & st2 & Hschemas & Hpaths).
  apply enums_processPaths in Hpaths. etrans; [|done].
  destruct (documentSchemas doc); [|by injection Hschemas as <- _].
  revert Hschemas.
  apply (yields_forM _ (λ e', _ `prefix_of` generatedEnums e')); [|done].
  intros schemaName e2 He2 st3 e3 st4 Hrun%enums_processSchemaName. by etrans.
Qed.

(** [run_top_level_enums_first] on the document of [Status] and [Order]. *)
Lemma run_top_level_enums_first_witness :
  ∃ e st,
    run noToken 3 orderDocument [["B"; "A"]; ["sold"; "available"]] = Some (e, st) ∧
    ((λ kv, enumText kv.1 (Arrays.read [["B"; "A"]; ["sold"; "available"]] kv.2))
       <$> getEnums [["B"; "A"]; ["sold"; "available"]] orderDocument)
      `prefix_of` generatedEnums e.
Proof.
  destruct (run noToken 3 orderDocument [["B"; "A"]; ["sold"; "available"]])
    as [[e st]|] eqn:Hrun; [|by vm_compute in Hrun].
  exists e, st. split; [done|].
  by apply (run_top_level_enums_first noToken 3 orderDocument
              [["B"; "A"]; ["sold"; "available"]] e st).
Defined.

(** ** The property names of a class *)

Section MergedKeys.
Context {V : Type}.
Implicit Types (target source : list (string * V)).

End MergedKeys.



Section PerClass.
Context (randomToken : nat → string).
Implicit Types (doc : OpenAPIDocument) (used usedProperties : gset string)
  (required mergedRequired : list string).


Lemma yields_lift {A B} (o : option A) (f : A → Gen B) (Q : B → Prop) :
  (∀ x, o = Some x → yields (f x) Q) → yields (lift o ≫= f) Q.
Proof.
  intros Hf st y st' (x & st1 & [Hx ->]%lift_Some & Hy)%gen_bind_Some.
  by eapply Hf.
Qed.


(** The body of the loop of [classPropertiesLoop]. *)
#[local] Abbreviation propertyStep fuel mergedRequired doc context :=
  (λ (kv : string * OpenAPISchema) (acc : PropertiesResult * gset string),
     r ← generateClassProperty randomToken fuel kv.1 kv.2 mergedRequired doc acc.2 context;
     let '(p, usedProperties) := r in
     mret (mkProperties (classProperties acc.1 ++ [property p])
                        (classNestedClasses acc.1 ++ nestedClasses p)
                        (classEnums acc.1 ++ enums p),
           usedProperties)).

(** The declaration of the property [kv] in a class with the required
    names [mergedRequired]. *)
#[local] Abbreviation declares mergedRequired :=
  (λ (kv : string * OpenAPISchema) (text : string),
     ∃ decorators propertyType,
       text = propertyText decorators (formattedPropertyName kv.1)
                           (bool_decide (kv.1 ∈ mergedRequired)) propertyType).

End PerClass.




(** ** The decorators of an e-mail address *)

Section Email.
Context (randomToken : nat → string).
Implicit Types (decorators appended : list string) (isRequired : bool).

(** [@IsOptional()], if the property is not required, and [@IsEmail()]. *)
#[local] Abbreviation emailDecorators isRequired :=
  ((if isRequired then [] else ["@IsOptional()"]) ++ ["@IsEmail()"]).

(** What [generateClassProperty] pushes after the decorators of
    [generateDecorators]: nothing, the check of the elements of an array,
    or the annotation of an enum. *)
#[local] Abbreviation pushed appended :=
  (appended = [] ∨
   appended = ["@IsString({ each: true })"] ∨
   appended = ["@IsNumber({}, { each: true })"] ∨
   appended = ["@IsBoolean({ each: true })"] ∨
   ∃ enumName, appended = ["@IsEnum(" +:+ enumName +:+ ")"]).

(** The decorators of an e-mail address and what is pushed after them. *)
#[local] Abbreviation emailAnd isRequired decorators :=
  (∃ appended, decorators = emailDecorators isRequired ++ appended ∧ pushed appended).

Lemma emailDecorators_lacks isRequired sub :
  includes "@IsOptional()" sub = false → includes "@IsEmail()" sub = false →
  Forall (λ d, includes d sub = false) (emailDecorators isRequired).
Proof. intros Ho He. destruct isRequired; repeat constructor; done. Qed.

Lemma replacePlaceholder_app decorators appended name :
  Forall (λ d, includes d "PLACEHOLDER" = false) decorators →
  replacePlaceholder (decorators ++ appended) name
  = decorators ++ replacePlaceholder appended name.
Proof. induction 1 as [|d l Hd _ IH]; simpl; [done|]. by rewrite Hd, IH. Qed.

Lemma removeFirst_none decorators sub :
  Forall (λ d, includes d sub = false) decorators → removeFirst decorators sub = decorators.
Proof. induction 1 as [|d l Hd _ IH]; simpl; [done|]. by rewrite Hd, IH. Qed.

(** What follows a prefix [pat] of a string that ends with a character
    which is not in [pat] ends with that character. *)
Lemma dropChars_prefix (c : ascii) (pat : string) : ∀ s,
  existsChar (Ascii.eqb c) pat = false →
  String.prefix pat (s +:+ String c "") = true →
  ∃ rest, dropChars (String.length pat) (s +:+ String c "") = rest +:+ String c "".
Proof.
  induction pat as [|p pat IH]; intros s Hc Hp.
  - by exists s.
  - cbn [existsChar] in Hc. apply orb_false_iff in Hc as [Hcp Hc]. destruct s as [|a s].
    + change ("" +:+ String c "") with (String c "") in Hp. cbn [String.prefix] in Hp.
      destruct (Ascii.ascii_dec p c) as [->|]; [|done]. by rewrite Ascii.eqb_refl in Hcp.
    + change (String a s +:+ String c "") with (String a (s +:+ String c "")) in *.
      cbn [String.prefix] in Hp. destruct (Ascii.ascii_dec p a); [|done].
      cbn [String.length dropChars]. by apply IH.
Qed.

(** Replacing in a string that ends with a character which is not in the
    pattern leaves that character at the end. *)
Lemma replace_before (c : ascii) (pat rep : string) : ∀ s,
  pat ≠ "" → existsChar (Ascii.eqb c) pat = false →
  ∃ s', replace (s +:+ String c "") pat rep = s' +:+ String c "".
Proof.
  intros s Hpat Hc. induction s as [|a s IH].
  - change ("" +:+ String c "") with (String c ""). exists "". cbn [replace].
    destruct pat as [|p pat]; [done|]. simpl in Hc. apply orb_false_iff in Hc as [Hcp _].
    cbn [String.prefix]. destruct (Ascii.ascii_dec p c) as [->|].
    + by rewrite Ascii.eqb_refl in Hcp.
    + by destruct pat.
  - change (String a s +:+ String c "") with (String a (s +:+ String c "")).
    cbn [replace]. destruct (String.prefix pat _) eqn:Hp.
    + change (String a (s +:+ String c "")) with (String a s +:+ String c "") in *.
      destruct (dropChars_prefix c pat (String a s) Hc Hp) as (rest & ->).
      exists (rep +:+ rest). clear. induction rep as [|r rep IHr]; [done|].
      change (String r rep +:+ ?x) with (String r (rep +:+ x)). by rewrite IHr.
    + destruct IH as (s' & ->). by exists (String a s').
Qed.

(** The annotation of an enum stays one after the replacement of
    [PLACEHOLDER], which can only change the name in it. *)
Lemma replace_IsEnum name rep :
  ∃ enumName, replace ("@IsEnum(" +:+ name +:+ ")") "PLACEHOLDER" rep
              = "@IsEnum(" +:+ enumName +:+ ")".
Proof.
  destruct (replace_before ")" "PLACEHOLDER" rep name) as (enumName & Heq); [done..|].
  exists enumName. rewrite <-Heq. reflexivity.
Qed.

Lemma emailAnd_refl isRequired : emailAnd isRequired (emailDecorators isRequired).
Proof. exists []. rewrite app_nil_r. by eauto. Qed.

Lemma emailAnd_enum isRequired name :
  emailAnd isRequired (emailDecorators isRequired ++ ["@IsEnum(" +:+ name +:+ ")"]).
Proof. eexists. split; [done|]. by eauto 10. Qed.

Lemma emailAnd_replacePlaceholder isRequired name :
  emailAnd isRequired (replacePlaceholder (emailDecorators isRequired) name).
Proof.
  rewrite replacePlaceholder_none by (by apply emailDecorators_lacks). apply emailAnd_refl.
Qed.

Lemma emailAnd_reference isRequired (isEnum : bool) name :
  emailAnd isRequired
    (replacePlaceholder
       (if isEnum then emailDecorators isRequired ++ ["@IsEnum(" +:+ name +:+ ")"]
        else emailDecorators isRequired) name).
Proof.
  destruct isEnum; [|apply emailAnd_replacePlaceholder].
  rewrite replacePlaceholder_app by (by apply emailDecorators_lacks).
  cbn [replacePlaceholder]. destruct (includes _ "PLACEHOLDER"); [|apply emailAnd_enum].
  destruct (replace_IsEnum name name) as (enumName & ->). apply emailAnd_enum.
Qed.

Lemma emailAnd_removeFirst isRequired :
  emailAnd isRequired
    (removeFirst (removeFirst (emailDecorators isRequired) "@ValidateNested") "@Type").
Proof.
  rewrite (removeFirst_none _ "@ValidateNested") by (by apply emailDecorators_lacks).
  rewrite (removeFirst_none _ "@Type") by (by apply emailDecorators_lacks).
  apply emailAnd_refl.
Qed.

Lemma emailAnd_simpleArray isRequired items :
  emailAnd isRequired (simpleArray items (emailDecorators isRequired)).1.
Proof.
  unfold simpleArray.
  repeat match goal with
         | |- context [if ?b then _ else _] => destruct b
         end; cbn [fst];
    (eexists; split; [vm_compute; reflexivity | by eauto 10]).
Qed.

(** The decorators written for a property whose name contains [email]. *)
Lemma generateClassProperty_email_decorators fuel propertyName schema required doc used
    context :
  includes (toLowerCase propertyName) "email" = true →
  yields (generateClassProperty randomToken fuel propertyName schema required doc used context)
    (λ r, ∃ decorators propertyType,
       emailAnd (bool_decide (propertyName ∈ required)) decorators ∧
       property r.1 = propertyText decorators (formattedPropertyName propertyName)
                                   (bool_decide (propertyName ∈ required)) propertyType).
Proof.
  intros Hemail. destruct fuel as [|fuel]; [by intros st x st'|].
  cbn [generateClassProperty]. apply yields_lift. intros u Hu. cbv zeta.
  rewrite (generateDecorators_email _ _ _ Hemail).
  set (isRequired := bool_decide (propertyName ∈ required)).
  repeat first
    [ (apply yields_ret; refine (ex_intro _ _ (ex_intro _ _ (conj _ eq_refl)));
       first [ assumption
             | apply emailAnd_refl
             | apply emailAnd_enum
             | apply emailAnd_removeFirst
             | apply emailAnd_replacePlaceholder
             | apply emailAnd_reference ])
    | (eapply yields_bind; [apply yields_any|]; intros ? _)
    | match goal with
      | |- yields (let '(_, _) := simpleArray ?items ?d in _) _ =>
        pose proof (emailAnd_simpleArray isRequired items);
        destruct (simpleArray items d); cbn [fst] in *
      | |- yields (match ?x with _ => _ end) _ => destruct x
      end ].
Qed.
End Email.

(** X13. A property whose name contains [email], in any letter case, is
    declared with [@IsOptional()], unless it is required, then
    [@IsEmail()], then at most one decorator more, which is the check of the
    elements of an array of strings, numbers or booleans or the annotation
    [@IsEnum] of an enum: whatever its schema is, no other decorator is
    written, whenever the call returns. *)
Theorem generateClassProperty_email (randomToken : nat → string) (fuel : nat)
    (propertyName : string) (schema : OpenAPISchema) (required : list string)
    (doc : OpenAPIDocument) (usedProperties : gset string) (context : string)
    (st : GenState) (result : PropertyResult) (usedProperties' : gset string)
    (st' : GenState) :
  includes (toLowerCase propertyName) "email" = true →
  generateClassProperty randomToken fuel propertyName schema required doc usedProperties
                        context st
  = Some (result, usedProperties', st') →
  ∃ appended propertyType,
    (appended = [] ∨
     appended = ["@IsString({ each: true })"] ∨
     appended = ["@IsNumber({}, { each: true })"] ∨
     appended = ["@IsBoolean({ each: true })"] ∨
     ∃ enumName, appended = ["@IsEnum(" +:+ enumName +:+ ")"]) ∧
    property result
    = propertyText ((if bool_decide (propertyName ∈ required) then [] else ["@IsOptional()"])
                    ++ ["@IsEmail()"] ++ appended)
                   (formattedPropertyName propertyName)
                   (bool_decide (propertyName ∈ required)) propertyType.
Proof.
  intros Hemail Hrun.
  apply (generateClassProperty_email_decorators randomToken) in Hrun
    as (decorators & propertyType & (appended & -> & Hpushed) & Htext); [|done].
  exists appended, propertyType. split; [done|]. by rewrite app_assoc.
Qed.

(** [generateClassProperty_email] on a list of e-mail addresses. *)
Lemma generateClassProperty_email_witness :
  ∃ result usedProperties' st',
    generateClassProperty noToken 1 "contactEmails" stringList [] petStore ∅ "Customer"
                          (initGen [])
    = Some (result, usedProperties', st') ∧
    ∃ appended propertyType,
      (appended = [] ∨
       appended = ["@IsString({ each: true })"] ∨
       appended = ["@IsNumber({}, { each: true })"] ∨
       appended = ["@IsBoolean({ each: true })"] ∨
       ∃ enumName, appended = ["@IsEnum(" +:+ enumName +:+ ")"]) ∧
      property result
      = propertyText ((if bool_decide ("contactEmails" ∈ ([] : list string))
                       then [] else ["@IsOptional()"])
                      ++ ["@IsEmail()"] ++ appended)
                     (formattedPropertyName "contactEmails")
                     (bool_decide ("contactEmails" ∈ ([] : list string))) propertyType.
Proof.
  destruct (generateClassProperty noToken 1 "contactEmails" stringList [] petStore ∅ "Customer"
              (initGen []))
    as [[[result usedProperties'] st']|] eqn:Hrun; [|by vm_compute in Hrun].
  exists result, usedProperties', st'. split; [done|].
  apply (generateClassProperty_email noToken 1 "contactEmails" stringList [] petStore ∅
           "Customer" (initGen []) result usedProperties' st'); [reflexivity | done].
Defined.

(** The declaration of that list: the check of its elements is the one
    decorator more. *)
Example contactEmails_declaration :
  (λ r, property r.1.1)
    <$> generateClassProperty noToken 1 "contactEmails" stringList [] petStore ∅ "Customer"
                              (initGen [])
  = Some (propertyText ["@IsOptional()"; "@IsEmail()"; "@IsString({ each: true })"]
                       "contactEmails" false "string[]").
Proof. by vm_compute. Qed.
